(** * serr: stack-capturing errors and their hierarchy reconstruction

    A shallow embedding of [serr.go] (error variants, constructors, chain
    traversal, the [Format] methods) and [format.go] (the [unpack]
    reconstructor, the string renderer, the document renderer and
    [printError]), followed by the properties established about them.

    Go error values are pointers to heap objects, and [JoinDepth] mutates a
    [joinError] in place, so the embedding keeps an explicit store: a heap is
    a list of objects, an address is an index into it, and an [error]
    interface value is either nil or an address.  Loops and recursions that
    follow the cause links of the store take a fuel argument; their result
    is an [outcome], which separates a normal return from a run-time panic
    and from fuel exhaustion.

    [format.go] calls the two interfaces of [serr.go] [FullStackError] and
    [ExtraStackError], with [GetExtraStackData] and [NextExtraStackError];
    they are [StackError] and [StackFrameError], with
    [GetAdditionalInformation] and [nextStackFrameError], and are embedded
    under the names [serr.go] gives them.

    The renderers print through the host's [fmt] package, and [fmt] prints
    an error of the package through its [Format] method, which is
    [printError], which renders again: [Format] below closes that loop, one
    unit of fuel for each call back.  What [fmt] itself does (which
    arguments a template formats, with which verb and flag, and the text it
    assembles) is a parameter; that it calls [Format] on the package's
    errors, recovers a panic of the method, and cannot recover from a method
    that does not return, is modelled.

    Limits of the embedding: a type from outside the package is taken to
    implement neither [StackError] nor [StackFrameError] nor [fmt.Formatter],
    and the text of its [Error()] is fixed; a message argument or field
    value is an error of the store or a value that [fmt] prints without
    calling back into the package; a field formatter prints through [fmt],
    as the default one does; a nil pointer stored in a non-nil interface
    value is not represented; skip depths are natural numbers. *)

From stdpp Require Import base option list gmap strings pretty.
From Stdlib Require Import ZArith Lia Ascii.

Open Scope Z_scope.

(** ** Outcomes of partial computations *)

Inductive outcome (A : Type) : Type :=
| Ok (a : A)
| Panic
| Timeout.

Arguments Ok {A} a.
Arguments Panic {A}.
Arguments Timeout {A}.

#[global] Instance outcome_ret : MRet outcome := @Ok.

#[global] Instance outcome_bind : MBind outcome := fun A B f m =>
  match m with
  | Ok a => f a
  | Panic => Panic
  | Timeout => Timeout
  end.

(** [mapM f l] runs [f] over [l] from left to right, as a Go [range] loop
    that appends each result. *)
Section MapM.

Context {A B : Type}.
Variable f : A -> outcome B.

Fixpoint mapM (l : list A) : outcome (list B) :=
  match l with
  | [] => Ok []
  | x :: l' => y ← f x; ys ← mapM l'; Ok (y :: ys)
  end.

End MapM.

(** A Go slice index expression [s[i]]: out of range is a run-time panic. *)
Definition index {A : Type} (s : list A) (i : nat) : outcome A :=
  match s !! i with
  | Some x => Ok x
  | None => Panic
  end.

(** [o1] is refined by [o2]: either [o1] ran out of fuel or both agree. *)
Definition refines {A : Type} (o1 o2 : outcome A) : Prop :=
  o1 = Timeout \/ o1 = o2.

(** ** Data model of serr.go *)

(** A program counter (Go [uintptr]); only ever compared, never computed on. *)
Abbreviation uintptr := Z.

Abbreviation addr := nat.

(** An [interface{}] value carried in [msgArgs] or [fields].  The library
    never inspects such values, it only counts them and hands them to [fmt]:
    an error of the store, which [fmt] prints through the package when it
    has a [Format] method, or any other value, which stands for itself. *)
Inductive value : Type :=
| Plain (text : string)
| ErrorValue (a : addr).

(** The Go interface type [error]: nil, or a pointer to a heap object. *)
Abbreviation error := (option nat).

Record AdditionalInformation : Type := mkAdditionalInformation {
  caller : uintptr;
  callerCaller : uintptr;
  fields : gmap string value;
  msg : string;
  msgArgs : list value
}.

(** What a type from outside the package exposes to the cause-chain
    protocol: nothing, [Unwrap() error], or [Unwrap() []error]. *)
Inductive unwrapShape : Type :=
| NoUnwrap
| UnwrapOne (err : error)
| UnwrapMany (errs : list error).

Inductive object : Type :=
| rootError (callers : list uintptr)
            (additionalInformation : option AdditionalInformation)
            (err : error)
| wrapError (additionalInformation : option AdditionalInformation)
            (err : error)
| joinError (callers : list uintptr) (errs : list error)
| foreignError (text : string) (next : unwrapShape).

Abbreviation heap := (list object).

(** Dereferencing a pointer.  Go has no dangling pointers; an address
    outside the store is treated as a fault. *)
Definition deref (h : heap) (a : addr) : outcome object :=
  match h !! a with
  | Some o => Ok o
  | None => Panic
  end.

(** Allocation of a fresh object ([&T{...}]). *)
Definition alloc (h : heap) (o : object) : error * heap :=
  (Some (length h), h ++ [o]).

(** *** Method sets *)

(** [Callers()]: [Some] when the dynamic type implements [StackError]. *)
Definition Callers (o : object) : option (list uintptr) :=
  match o with
  | rootError cs _ _ => Some cs
  | joinError cs _ => Some cs
  | _ => None
  end.

(** [GetAdditionalInformation()]: the outer [Some] when the dynamic type
    implements [StackFrameError]; the inner option is the returned pointer. *)
Definition GetAdditionalInformation (o : object)
  : option (option AdditionalInformation) :=
  match o with
  | rootError _ ai _ => Some ai
  | wrapError ai _ => Some ai
  | _ => None
  end.

(** [Unwrap() error]. *)
Definition Unwrap (o : object) : option error :=
  match o with
  | rootError _ _ e => Some e
  | wrapError _ e => Some e
  | foreignError _ (UnwrapOne e) => Some e
  | _ => None
  end.

(** [Unwrap() []error]. *)
Definition UnwrapAll (o : object) : option (list error) :=
  match o with
  | joinError _ es => Some es
  | foreignError _ (UnwrapMany es) => Some es
  | _ => None
  end.

(** *** Stack capture *)

(** [runtime.Callers(skip, pcs)] with [len(pcs) = cap].  [stack] is the
    goroutine's stack at that call, innermost first, index 0 being the frame
    of [runtime.Callers] itself. *)
Definition runtime_Callers (stack : list uintptr) (skip cap : nat) : list uintptr :=
  take cap (drop skip stack).

Definition NewCallers (stack : list uintptr) (skip : nat) : list uintptr :=
  runtime_Callers stack skip 64.

Definition zeroInformation : AdditionalInformation :=
  {| caller := 0; callerCaller := 0; fields := ∅; msg := ""; msgArgs := [] |}.

Definition NewAdditionalInformationFromCallers (callers : list uintptr)
  : AdditionalInformation :=
  let info := zeroInformation in
  let info :=
    match callers !! 0%nat with
    | Some pc => {| caller := pc; callerCaller := callerCaller info;
                    fields := fields info; msg := msg info; msgArgs := msgArgs info |}
    | None => info
    end in
  match callers !! 1%nat with
  | Some pc => {| caller := caller info; callerCaller := pc;
                  fields := fields info; msg := msg info; msgArgs := msgArgs info |}
  | None => info
  end.

Definition NewAdditionalInformation (stack : list uintptr) (skip : nat)
  : AdditionalInformation :=
  NewAdditionalInformationFromCallers (runtime_Callers stack skip 2).

(** Assignment of the three annotation fields after construction. *)
Definition annotate (info : AdditionalInformation)
    (fs : gmap string value) (m : string) (args : list value)
  : AdditionalInformation :=
  {| caller := caller info; callerCaller := callerCaller info;
     fields := fs; msg := m; msgArgs := args |}.

(** *** Chain traversal *)

Fixpoint nextStackFrameError (fuel : nat) (h : heap) (err : error)
    {struct fuel} : outcome error :=
  match err with
  | None => Ok None
  | Some a =>
    match fuel with
    | O => Timeout
    | S fuel' =>
      o ← deref h a;
      match Unwrap o with
      | None => Ok None
      | Some None => Ok None
      | Some (Some b) =>
        o' ← deref h b;
        match GetAdditionalInformation o' with
        | None => Ok None
        | Some (Some _) => Ok (Some b)
        | Some None => nextStackFrameError fuel' h (Some b)
        end
      end
    end
  end.

(** [Cause]: the first error of the single-cause chain that is a
    [StackError] with a non-empty capture; nil if there is none. *)
Fixpoint Cause (fuel : nat) (h : heap) (err : error) {struct fuel}
  : outcome error :=
  match err with
  | None => Ok None
  | Some a =>
    match fuel with
    | O => Timeout
    | S fuel' =>
      o ← deref h a;
      let isAnchor :=
        match Callers o with
        | Some cs => bool_decide (0 < length cs)%nat
        | None => false
        end in
      if isAnchor then Ok (Some a)
      else match Unwrap o with
           | None => Ok None
           | Some e => Cause fuel' h e
           end
    end
  end.

(** *** Constructors *)

Definition ErrorDepths (h : heap) (stack : list uintptr) (skip : nat)
    (fs : gmap string value) (m : string) (args : list value) : error * heap :=
  let callers := NewCallers stack (skip + 3) in
  let additionalInformation :=
    annotate (NewAdditionalInformationFromCallers callers) fs m args in
  alloc h (rootError callers (Some additionalInformation) None).

Definition New (h : heap) (stack : list uintptr) (m : string) :=
  ErrorDepths h stack 1 ∅ m [].

Definition Errorf (h : heap) (stack : list uintptr) (m : string) (args : list value) :=
  ErrorDepths h stack 1 ∅ m args.

Definition Errors (h : heap) (stack : list uintptr)
    (fs : gmap string value) (m : string) (args : list value) :=
  ErrorDepths h stack 1 fs m args.

Definition ErrorDepth (h : heap) (stack : list uintptr) (skip : nat) (m : string) :=
  ErrorDepths h stack (skip + 1) ∅ m [].

Definition ErrorDepthf (h : heap) (stack : list uintptr) (skip : nat)
    (fs : gmap string value) (m : string) (args : list value) :=
  ErrorDepths h stack (skip + 1) fs m args.

Definition WrapDepth (fuel : nat) (h : heap) (stack : list uintptr)
    (skip : nat) (err : error) : outcome (error * heap) :=
  c ← Cause fuel h err;
  match c with
  | Some _ =>
    Ok (alloc h (wrapError (Some (NewAdditionalInformation stack (skip + 3))) err))
  | None =>
    Ok (alloc h (rootError (NewCallers stack (skip + 3)) None err))
  end.

Definition WrapDepths (fuel : nat) (h : heap) (stack : list uintptr)
    (skip : nat) (err : error)
    (fs : gmap string value) (m : string) (args : list value)
  : outcome (error * heap) :=
  c ← Cause fuel h err;
  match c with
  | Some _ =>
    let additionalInformation :=
      annotate (NewAdditionalInformation stack (skip + 3)) fs m args in
    Ok (alloc h (wrapError (Some additionalInformation) err))
  | None =>
    let callers := NewCallers stack (skip + 3) in
    let additionalInformation :=
      annotate (NewAdditionalInformationFromCallers callers) fs m args in
    Ok (alloc h (rootError callers (Some additionalInformation) err))
  end.

Definition Wrap (fuel : nat) (h : heap) (stack : list uintptr) (err : error) :=
  WrapDepth fuel h stack 1 err.

Definition Wrapf (fuel : nat) (h : heap) (stack : list uintptr) (err : error)
    (m : string) (args : list value) :=
  WrapDepths fuel h stack 1 err ∅ m args.

Definition Wraps (fuel : nat) (h : heap) (stack : list uintptr) (err : error)
    (fs : gmap string value) (m : string) (args : list value) :=
  WrapDepths fuel h stack 1 err fs m args.

Definition WrapDepthf (fuel : nat) (h : heap) (stack : list uintptr)
    (skip : nat) (err : error) (m : string) (args : list value) :=
  WrapDepths fuel h stack (skip + 1) err ∅ m args.

(** The non-nil arguments of a variadic call, in argument order. *)
Definition live (errs : list error) : list error :=
  filter (fun e : error => e ≠ None) errs.

(** [errs[0].( *joinError )]: the address and contents when the first
    argument points to a [joinError]. *)
Definition asJoin (h : heap) (e : option error)
  : option (addr * list uintptr * list error) :=
  match e with
  | Some (Some a) =>
    match h !! a with
    | Some (joinError cs es) => Some (a, cs, es)
    | _ => None
    end
  | _ => None
  end.

Definition JoinDepth (h : heap) (stack : list uintptr) (skip : nat)
    (errs : list error) : error * heap :=
  let n := length (live errs) in
  let rest :=
    match asJoin h (errs !! 0%nat) with
    | Some (a, cs, es) =>
      (Some a, <[a := joinError cs (es ++ live (drop 1 errs))]> h)
    | None =>
      alloc h (joinError (NewCallers stack (skip + 3)) (live errs))
    end in
  if (n =? 0)%nat then (None, h)
  else if (n =? 1)%nat then
    match head (live errs) with
    | Some e => alloc h (rootError (NewCallers stack (skip + 3)) None e)
    | None => rest
    end
  else rest.

Definition Join (h : heap) (stack : list uintptr) (errs : list error) :=
  JoinDepth h stack 1 errs.

(** ** Data model of format.go *)

Record Location : Type := mkLocation {
  Filename : string;
  Line : Z;
  FuncName : string
}.

#[global] Instance Location_eq_dec : EqDecision Location.
Proof. solve_decision. Defined.

Record WrapLink : Type := mkWrapLink {
  Msg : string;
  MsgArgs : list value;
  Fields : gmap string value;
  CallerLocation : Location
}.

#[warnings="-register-all"] Inductive UnpackHierarchy : Type := mkUnpackHierarchy {
  ErrExternal : error;
  CallerLocations : list Location;
  Links : list WrapLink;
  SubHierarchies : list UnpackHierarchy
}.

(** The zero value [&UnpackHierarchy{}]. *)
Definition emptyHierarchy : UnpackHierarchy :=
  mkUnpackHierarchy None [] [] [].

(** What [runtime.CallersFrames] reports for one program counter. *)
Record Frame : Type := mkFrame {
  Function : string;
  File : string;
  FrameLine : Z
}.

(** [strings.LastIndex(s, "/")], scanning with [i] the index of the first
    character of [s] and [found] the last index seen so far. *)
Fixpoint LastIndexSlash (s : string) (i found : Z) : Z :=
  match s with
  | EmptyString => found
  | String c s' =>
    LastIndexSlash s' (i + 1) (if Ascii.eqb c "/"%char then i else found)
  end.

(** The slice expression [s[i:]]. *)
Definition sliceFrom (s : string) (i : Z) : string :=
  String.substring (Z.to_nat i) (String.length s - Z.to_nat i) s.

Definition addCallerLocation (o : UnpackHierarchy) (callerLocation : Location)
  : UnpackHierarchy :=
  match last (CallerLocations o) with
  | Some l =>
    if decide (l = callerLocation) then o
    else mkUnpackHierarchy (ErrExternal o) (CallerLocations o ++ [callerLocation])
                           (Links o) (SubHierarchies o)
  | None =>
    mkUnpackHierarchy (ErrExternal o) (CallerLocations o ++ [callerLocation])
                      (Links o) (SubHierarchies o)
  end.

Definition appendLink (o : UnpackHierarchy) (l : WrapLink) : UnpackHierarchy :=
  mkUnpackHierarchy (ErrExternal o) (CallerLocations o) (Links o ++ [l])
                    (SubHierarchies o).

(** The floor scan of [unpack]: [n] is [callerStartIndex + 1]. *)
Fixpoint floorScan (callers : list uintptr) (parentPC : uintptr) (n : nat) : Z :=
  match n with
  | O => -1
  | S k =>
    match callers !! k with
    | Some pc =>
      if pc =? parentPC then Z.of_nat k - 1
      else floorScan callers parentPC k
    | None => floorScan callers parentPC k
    end
  end.

Definition callerStartIndex (callers : list uintptr) (parentPC : uintptr) : Z :=
  if parentPC =? 0 then Z.of_nat (length callers) - 1
  else floorScan callers parentPC (length callers).

(** The flattening step that ends [unpack]. *)
Definition flatten (hierarchy : UnpackHierarchy) : UnpackHierarchy :=
  match SubHierarchies hierarchy with
  | [subHierarchies] =>
    mkUnpackHierarchy (ErrExternal subHierarchies)
      (CallerLocations hierarchy ++ CallerLocations subHierarchies)
      (Links hierarchy ++ Links subHierarchies)
      (SubHierarchies subHierarchies)
  | _ => hierarchy
  end.

Definition withSubHierarchies (o : UnpackHierarchy) (subs : list UnpackHierarchy)
  : UnpackHierarchy :=
  mkUnpackHierarchy (ErrExternal o) (CallerLocations o) (Links o)
                    (SubHierarchies o ++ subs).

(** The annotation is worth a link when it carries a message, arguments or
    fields. *)
Definition annotated (info : AdditionalInformation) : bool :=
  negb ((String.length (msg info) =? 0)%nat)
  || negb ((length (msgArgs info) =? 0)%nat)
  || negb ((size (fields info) =? 0)%nat).

(** The annotation a cursor of the frame walk points at.  The cursor is
    only ever set to an error whose [GetAdditionalInformation()] is non-nil;
    anything else would be a nil dereference. *)
Definition cursorInformation (h : heap) (a : addr) : outcome AdditionalInformation :=
  o ← deref h a;
  match GetAdditionalInformation o with
  | Some (Some info) => Ok info
  | _ => Panic
  end.

Section Reconstructor.

(** The symbol table of the running program. *)
Variable CallersFrames : uintptr -> Frame.

Definition getLocation (pc : uintptr) : Location :=
  if pc =? 0 then mkLocation "" 0 ""
  else
    let frame := CallersFrames pc in
    let i := LastIndexSlash (Function frame) 0 (-1) in
    let name := sliceFrom (Function frame) (i + 1) in
    mkLocation (File frame) (FrameLine frame) name.

(** The inner loop of the frame walk, at frame [callerIndex]: while the
    cursor's [callerCaller] is the frame above, emit the cursor's location
    (and link) and advance the cursor. *)
Fixpoint spliceLoop (fuel : nat) (h : heap) (callers : list uintptr)
    (callerIndex : nat) (hierarchy : UnpackHierarchy) (extraStackErr : error)
    {struct fuel} : outcome (UnpackHierarchy * error) :=
  match extraStackErr with
  | None => Ok (hierarchy, None)
  | Some a =>
    if bool_decide (callerIndex = (length callers - 1)%nat)
    then Ok (hierarchy, extraStackErr)
    else
      above ← index callers (callerIndex + 1);
      extraStackData ← cursorInformation h a;
      if above =? callerCaller extraStackData then
        match fuel with
        | O => Timeout
        | S fuel' =>
          let callerLocation := getLocation (caller extraStackData) in
          let hierarchy :=
            if annotated extraStackData
            then appendLink hierarchy
                   (mkWrapLink (msg extraStackData) (msgArgs extraStackData)
                               (fields extraStackData) callerLocation)
            else hierarchy in
          let hierarchy := addCallerLocation hierarchy callerLocation in
          next ← nextStackFrameError fuel' h extraStackErr;
          spliceLoop fuel' h callers callerIndex hierarchy next
        end
      else Ok (hierarchy, extraStackErr)
  end.

(** The outer loop, [for callerIndex := start; callerIndex >= 0;
    callerIndex--], with [n = callerIndex + 1] iterations left. *)
Fixpoint frameWalk (fuel : nat) (h : heap) (callers : list uintptr)
    (n : nat) (hierarchy : UnpackHierarchy) (extraStackErr : error)
    {struct n} : outcome (UnpackHierarchy * error) :=
  match n with
  | O => Ok (hierarchy, extraStackErr)
  | S callerIndex =>
    '(hierarchy, extraStackErr) ←
      spliceLoop fuel h callers callerIndex hierarchy extraStackErr;
    pc ← index callers callerIndex;
    frameWalk fuel h callers callerIndex
      (addCallerLocation hierarchy (getLocation pc)) extraStackErr
  end.

(** The annotation cursor [unpack] starts from. *)
Definition firstCursor (fuel : nat) (h : heap) (err : error) : outcome error :=
  match err with
  | None => Ok None
  | Some a =>
    o ← deref h a;
    match GetAdditionalInformation o with
    | Some (Some _) => Ok err
    | Some None => nextStackFrameError fuel h err
    | None => Ok None
    end
  end.

(** The recursion into the anchor's cause or causes; [recur] is [unpack]
    itself.  The floor [callers[1]] is read at each call. *)
Definition unpackChildren
    (recur : error -> uintptr -> outcome UnpackHierarchy)
    (o : object) (callers : list uintptr) : outcome (list UnpackHierarchy) :=
  match Unwrap o with
  | Some e =>
    floor ← index callers 1;
    sub ← recur e floor;
    Ok [sub]
  | None =>
    match UnwrapAll o with
    | Some es => mapM (fun e => floor ← index callers 1; recur e floor) es
    | None => Ok []
    end
  end.

Fixpoint unpack (fuel : nat) (h : heap) (err : error) (parentPC : uintptr)
    {struct fuel} : outcome UnpackHierarchy :=
  match fuel with
  | O => Timeout
  | S fuel' =>
    fullStackErr ← Cause fuel' h err;
    match fullStackErr with
    | None => Ok (mkUnpackHierarchy err [] [] [])
    | Some a =>
      o ← deref h a;
      callers ← (match Callers o with Some cs => Ok cs | None => Panic end);
      let start := callerStartIndex callers parentPC in
      extraStackErr ← firstCursor fuel' h err;
      '(hierarchy, _) ←
        frameWalk fuel' h callers (Z.to_nat (start + 1)) emptyHierarchy
                  extraStackErr;
      subs ← unpackChildren (unpack fuel' h) o callers;
      Ok (flatten (withSubHierarchies hierarchy subs))
    end
  end.

Definition Unpack (fuel : nat) (h : heap) (err : error) : outcome UnpackHierarchy :=
  unpack fuel h err 0.

End Reconstructor.

(** ** The host's [fmt] package and the [Format] method of the package *)

(** A verb of a format template (Go [rune]); ['v'] is 118. *)
Abbreviation rune := Z.

(** What one call of the host's [fmt] package does with the errors of the
    package it is handed ([fmt.Sprintf] on a template and its arguments,
    [fmt.Sprint] on a fields map): the calls it makes to their [Format]
    method, in order, each with the verb and the [+] flag of the formatting
    state, and the text it assembles from what those calls wrote. *)
Record fmtCall : Type := mkFmtCall {
  formats : list (addr * rune * bool);
  assemble : list string -> string
}.

(** [rootError], [wrapError] and [joinError] have a [Format] method, so
    [fmt] prints them through it. *)
Definition implementsFormatter (o : object) : bool :=
  match o with
  | foreignError _ _ => false
  | _ => true
  end.

Section Fmt.

(** [fmt]'s note in place of a [Format] method that panicked. *)
Variable FormatPanic : rune -> string.

(** The text of [Error()] of an error from outside the package. *)
Variable SprintError : heap -> addr -> string.

(** The [Format] method of the package's errors as [fmt] calls it: the
    error's address, the verb and the [+] flag, and what the method writes
    to the formatting state.  [Format] below ties it to [printError]. *)
Variable FormatMethod : addr -> rune -> bool -> outcome string.

(** [fmt] recovers a panic of a [Format] method and prints a note in its
    place; a call that does not return is beyond recovery. *)
Definition recovered (verb : rune) (written : outcome string) : outcome string :=
  match written with
  | Ok s => Ok s
  | Panic => Ok (FormatPanic verb)
  | Timeout => Timeout
  end.

(** Running one call of [fmt]. *)
Definition runFmt (c : fmtCall) : outcome string :=
  written ←
    mapM (fun call : addr * rune * bool =>
            recovered call.1.2 (FormatMethod call.1.1 call.1.2 call.2))
         (formats c);
  Ok (assemble c written).

(** [fmt.Sprint(err)] on a non-nil error of the store. *)
Definition Sprint (h : heap) (a : addr) : outcome string :=
  o ← deref h a;
  if implementsFormatter o then recovered 118 (FormatMethod a 118 false)
  else Ok (SprintError h a).

End Fmt.

(** ** The string renderer of format.go *)

Record FormatOptions : Type := mkFormatOptions {
  LocationFormatFunc : Location -> string;
  WithTrace : bool
}.

Record StringFormat : Type := mkStringFormat {
  Options : FormatOptions;
  MsgStackSep : string;
  PreStackSep : string;
  StackElemSep : string;
  ErrorSep : string;
  FieldFormatFunc : gmap string value -> fmtCall
}.

(** [strconv.Itoa]. *)
Definition Itoa (i : Z) : string := pretty i.

(** [strings.Repeat] for a non-negative count. *)
Fixpoint Repeat (s : string) (count : nat) : string :=
  match count with
  | O => ""
  | S n => s +:+ Repeat s n
  end.

Definition DefaultLocationFormatFunc (frame : Location) : string :=
  Filename frame +:+ ":" +:+ Itoa (Line frame) +:+ "(" +:+ FuncName frame +:+ ")".

Section Renderer.

(** The host formatting primitives: [fmt.Sprintf] on a template and its
    arguments, [fmt.Sprint] on a fields map, the text of a foreign error,
    and the note for a panicking [Format] method. *)
Variable Sprintf : string -> list value -> fmtCall.
Variable SprintFields : gmap string value -> fmtCall.
Variable SprintError : heap -> addr -> string.
Variable FormatPanic : rune -> string.

(** The symbol table of the running program. *)
Variable CallersFrames : uintptr -> Frame.

Definition DefaultFieldFormat (fs : gmap string value) : fmtCall :=
  SprintFields fs.

Definition NewDefaultStringFormat (options : FormatOptions) : StringFormat :=
  if WithTrace options
  then mkStringFormat options (String "010" "") (String "009" "")
                      (String "010" "") (String "010" "") DefaultFieldFormat
  else mkStringFormat options "" "" "" ": " DefaultFieldFormat.

(** One emitted stack line. *)
Definition frameLine (format : StringFormat) (level : nat) (l : Location)
    (sep : string) : string :=
  Repeat (PreStackSep format) level
  +:+ LocationFormatFunc (Options format) l +:+ sep.

(** [for stackIndex < len(CallerLocations)-1 &&
    *CallerLocations[stackIndex] != *link.CallerLocation]; [k] bounds the
    number of iterations by the number of locations. *)
Fixpoint leadingFrames (k : nat) (format : StringFormat) (level : nat)
    (locs : list Location) (linkLocation : Location)
    (str : string) (stackIndex : nat) : string * nat :=
  match k with
  | O => (str, stackIndex)
  | S k' =>
    if bool_decide (stackIndex < length locs - 1)%nat then
      match locs !! stackIndex with
      | Some l =>
        if decide (l = linkLocation) then (str, stackIndex)
        else leadingFrames k' format level locs linkLocation
               (str +:+ frameLine format level l (StackElemSep format))
               (S stackIndex)
      | None => (str, stackIndex)
      end
    else (str, stackIndex)
  end.

(** [for stackIndex < len(CallerLocations)]. *)
Definition trailingFrames (format : StringFormat) (level : nat)
    (locs : list Location) (str : string) (stackIndex : nat) : string :=
  foldl (fun acc l => acc +:+ frameLine format level l (StackElemSep format))
        str (drop stackIndex locs).

Section Methods.

(** The [Format] method that [fmt] calls back. *)
Variable FormatMethod : addr -> rune -> bool -> outcome string.

(** The loop over [hierarchy.Links]. *)
Fixpoint linkLoop (format : StringFormat) (level : nat)
    (locs : list Location) (links : list WrapLink)
    (str : string) (stackIndex : nat) : outcome (string * nat) :=
  match links with
  | [] => Ok (str, stackIndex)
  | link :: links' =>
    '(str, stackIndex) ←
      (if WithTrace (Options format) then
         differs ←
           (if bool_decide (stackIndex = 0%nat) then Ok true
            else
              prev ← index locs (stackIndex - 1);
              Ok (bool_decide (prev ≠ CallerLocation link)));
         if (differs : bool) then
           let '(str, stackIndex) :=
             leadingFrames (length locs) format level locs
                           (CallerLocation link) str stackIndex in
           Ok (str +:+ frameLine format level (CallerLocation link)
                                 (MsgStackSep format),
               S stackIndex)
         else Ok (str, stackIndex)
       else Ok (str, stackIndex));
    message ← runFmt FormatPanic FormatMethod (Sprintf (Msg link) (MsgArgs link));
    let str := str +:+ message in
    str ←
      (if negb ((size (Fields link) =? 0)%nat)
       then
         dump ← runFmt FormatPanic FormatMethod
                  (FieldFormatFunc format (Fields link));
         Ok (str +:+ Repeat (PreStackSep format) (level + 1) +:+ dump)
       else Ok str);
    linkLoop format level locs links' (str +:+ ErrorSep format) stackIndex
  end.

Fixpoint toCustomString (h : heap) (hierarchy : UnpackHierarchy)
    (format : StringFormat) (level : nat) {struct hierarchy} : outcome string :=
  match hierarchy with
  | mkUnpackHierarchy ext locs links subs =>
    '(str, stackIndex) ← linkLoop format level locs links "" 0%nat;
    let str :=
      if WithTrace (Options format)
      then trailingFrames format level locs str stackIndex
      else str in
    str ←
      match ext with
      | Some a =>
        text ← Sprint FormatPanic SprintError FormatMethod h a;
        Ok (str +:+ Repeat (PreStackSep format) level
                +:+ text +:+ ErrorSep format)
      | None => Ok str
      end;
    (fix subLoop (subs : list UnpackHierarchy) (i : nat) (str : string)
       {struct subs} : outcome string :=
       match subs with
       | [] => Ok str
       | subHierarchy :: subs' =>
         let str :=
           if WithTrace (Options format)
           then str +:+ Repeat (PreStackSep format) level +:+ "#"
                    +:+ Itoa (Z.of_nat i) +:+ StackElemSep format
           else str in
         s ← toCustomString h subHierarchy format (level + 1);
         subLoop subs' (S i) (str +:+ s)
       end) subs 0%nat str
  end.

Definition ToCustomString (fuel : nat) (h : heap) (err : error)
    (format : StringFormat) : outcome string :=
  frames ← unpack CallersFrames fuel h err 0;
  toCustomString h frames format 1.

Definition ToString (fuel : nat) (h : heap) (err : error) (withTrace : bool)
  : outcome string :=
  ToCustomString fuel h err
    (NewDefaultStringFormat (mkFormatOptions DefaultLocationFormatFunc withTrace)).

(** [printError(err, s, verb)]: the text written to the formatting state
    [s], whose [+] flag is [plus]. *)
Definition printError (fuel : nat) (h : heap) (err : error)
    (verb : rune) (plus : bool) : outcome string :=
  let withTrace := (verb =? 118) && plus in
  ToString fuel h err withTrace.

End Methods.

(** The [Format] method of [rootError], [wrapError] and [joinError]:
    [printError(e, s, verb)].  Each call that [fmt] makes back into the
    package takes one unit of fuel. *)
Fixpoint Format (fuel : nat) (h : heap) (a : addr) (verb : rune) (plus : bool)
    {struct fuel} : outcome string :=
  match fuel with
  | O => Timeout
  | S fuel' => printError (Format fuel' h) fuel' h (Some a) verb plus
  end.

End Renderer.

(** ** The document renderer of format.go *)

Record JSONFormat : Type := mkJSONFormat {
  JSONOptions : FormatOptions
}.

Definition NewDefaultJSONFormat (options : FormatOptions) : JSONFormat :=
  mkJSONFormat options.

(** The values [toCustomJSON] builds: a string, a [[]string], a fields map
    handed over as it is, a [[]interface{}] and a [map[string]interface{}]. *)
#[warnings="-register-all"] Inductive document : Type :=
| DString (s : string)
| DStrings (l : list string)
| DFields (fs : gmap string value)
| DArray (l : list document)
| DObject (m : gmap string document).

Section DocumentRenderer.

(** [fmt.Sprintf], the text of a foreign error, the note for a panicking
    [Format] method, [reflect.TypeOf(err).String()], and the [Format]
    method that [fmt] calls back. *)
Variable Sprintf : string -> list value -> fmtCall.
Variable SprintError : heap -> addr -> string.
Variable FormatPanic : rune -> string.
Variable TypeOfString : heap -> addr -> string.
Variable CallersFrames : uintptr -> Frame.
Variable FormatMethod : addr -> rune -> bool -> outcome string.

(** The entry of the ["wrap"] array for one link. *)
Definition wrapDocument (format : JSONFormat) (link : WrapLink)
  : outcome document :=
  message ← runFmt FormatPanic FormatMethod (Sprintf (Msg link) (MsgArgs link));
  let wrapMap : gmap string document := {["msg" := DString message]} in
  let wrapMap :=
    if negb ((size (Fields link) =? 0)%nat)
    then <["fields" := DFields (Fields link)]> wrapMap
    else wrapMap in
  let wrapMap :=
    if WithTrace (JSONOptions format)
    then <["src" := DString (LocationFormatFunc (JSONOptions format)
                                                (CallerLocation link))]> wrapMap
    else wrapMap in
  Ok (DObject wrapMap).

Fixpoint toCustomJSON (h : heap) (hierarchy : UnpackHierarchy)
    (format : JSONFormat) {struct hierarchy} : outcome document :=
  match hierarchy with
  | mkUnpackHierarchy ext locs links subs =>
    let root : gmap string document := ∅ in
    let root :=
      if WithTrace (JSONOptions format) && negb ((length locs =? 0)%nat)
      then <["stack" :=
               DStrings (LocationFormatFunc (JSONOptions format) <$> locs)]> root
      else root in
    root ←
      (if negb ((length links =? 0)%nat)
       then
         wrapArr ← mapM (wrapDocument format) links;
         Ok (<["wrap" := DArray wrapArr]> root)
       else Ok root);
    root ←
      match ext with
      | Some a =>
        text ← Sprint FormatPanic SprintError FormatMethod h a;
        let root := <["external" := DString text]> root in
        Ok (if WithTrace (JSONOptions format)
            then <["type" := DString (TypeOfString h a)]> root
            else root)
      | None => Ok root
      end;
    root ←
      (if negb ((length subs =? 0)%nat)
       then
         subArr ←
           mapM (fun subHierarchy => toCustomJSON h subHierarchy format) subs;
         Ok (<["join" := DArray subArr]> root)
       else Ok root);
    Ok (DObject root)
  end.

Definition ToCustomJSON (fuel : nat) (h : heap) (err : error)
    (format : JSONFormat) : outcome document :=
  frames ← unpack CallersFrames fuel h err 0;
  toCustomJSON h frames format.

Definition ToJSON (fuel : nat) (h : heap) (err : error) (withTrace : bool)
  : outcome document :=
  ToCustomJSON fuel h err
    (NewDefaultJSONFormat (mkFormatOptions DefaultLocationFormatFunc withTrace)).

End DocumentRenderer.

(** * Vocabulary of the properties *)

(** ** Stores built by the construction surface *)

Definition isForeign (o : object) : Prop :=
  match o with
  | foreignError _ _ => True
  | _ => False
  end.

(** The object at [b] is a root or a join that owns a non-empty capture. *)
Definition anchorAt (h : heap) (b : addr) : Prop :=
  exists cs, (0 < length cs)%nat /\
    ((exists info e, h !! b = Some (rootError cs info e))
     \/ (exists es, h !! b = Some (joinError cs es))).

(** One call of the construction surface, from store [h] to store [h'],
    returning [e].  The remaining public constructors ([New], [Errorf],
    [Errors], [ErrorDepth], [ErrorDepthf], [Wrap], [Wrapf], [Wraps],
    [WrapDepthf], [Join]) are instances of these four. *)
Inductive constructs : heap -> error -> heap -> Prop :=
| constructs_ErrorDepths h stack skip fs m args :
    constructs h (ErrorDepths h stack skip fs m args).1
                 (ErrorDepths h stack skip fs m args).2
| constructs_WrapDepth fuel h stack skip err e h' :
    WrapDepth fuel h stack skip err = Ok (e, h') ->
    constructs h e h'
| constructs_WrapDepths fuel h stack skip err fs m args e h' :
    WrapDepths fuel h stack skip err fs m args = Ok (e, h') ->
    constructs h e h'
| constructs_JoinDepth h stack skip errs :
    constructs h (JoinDepth h stack skip errs).1
                 (JoinDepth h stack skip errs).2.

(** The full capture taken on the way from [h] to [h'], if any, is
    non-empty: the skip depth left at least one frame of the stack.  A call
    that takes a full capture allocates the root or join that owns it. *)
Definition capturesNonEmpty (h h' : heap) : Prop :=
  forall o cs, h' = h ++ [o] -> Callers o = Some cs -> cs ≠ [].

(** Stores reachable from a store of foreign errors by constructor calls
    whose captures are non-empty. *)
Inductive built : heap -> Prop :=
| built_foreign h : Forall isForeign h -> built h
| built_step h e h' :
    built h -> constructs h e h' -> capturesNonEmpty h h' -> built h'.

(** Every object of the package in the store has an anchor. *)
Definition anchored (h : heap) : Prop :=
  forall a o, h !! a = Some o ->
    isForeign o \/ exists fuel b, Cause fuel h (Some a) = Ok (Some b).

(** [h'] keeps every object of [h], up to the causes of joins. *)
Definition extends (h h' : heap) : Prop :=
  forall a o, h !! a = Some o ->
    h' !! a = Some o
    \/ exists cs es es', o = joinError cs es /\ h' !! a = Some (joinError cs es').

(** ** Chains of wraps *)

(** [wrapChain h e infos r]: following [e] leads through wraps carrying the
    annotations [infos], outermost first, to the object at address [r]. *)
Inductive wrapChain (h : heap)
  : error -> list AdditionalInformation -> addr -> Prop :=
| wrapChain_root r : wrapChain h (Some r) [] r
| wrapChain_wrap a info e infos r :
    h !! a = Some (wrapError (Some info) e) ->
    wrapChain h e infos r ->
    wrapChain h (Some a) (info :: infos) r.

(** The cause of the root is nil or an error from outside the package with
    no anchor behind it. *)
Definition externalCause (h : heap) (c : error) : Prop :=
  match c with
  | None => True
  | Some f =>
    (exists text next, h !! f = Some (foreignError text next))
    /\ exists fuel, Cause fuel h c = Ok None
  end.

(** [nested pcs boundaries]: the positions [pcs] are met, in order, along
    [boundaries]; several positions may be met at one boundary. *)
Inductive nested : list uintptr -> list uintptr -> Prop :=
| nested_done boundaries : nested [] boundaries
| nested_here pc pcs boundaries :
    nested pcs (pc :: boundaries) -> nested (pc :: pcs) (pc :: boundaries)
| nested_skip pcs b boundaries :
    nested pcs boundaries -> nested pcs (b :: boundaries).

(** [cursorAt h cursor rem]: the annotation cursor [cursor] will deliver
    the annotations [rem], in order, and then become nil. *)
Inductive cursorAt (h : heap) : error -> list AdditionalInformation -> Prop :=
| cursorAt_end : cursorAt h None []
| cursorAt_step a info next rem :
    cursorInformation h a = Ok info ->
    (forall fuel, nextStackFrameError (S (S fuel)) h (Some a) = Ok next) ->
    cursorAt h next rem ->
    cursorAt h (Some a) (info :: rem).

(** The annotations that give rise to a link. *)
Definition linked (infos : list AdditionalInformation)
  : list AdditionalInformation :=
  filter (fun info => annotated info = true) infos.

Section ReconstructionVocabulary.

Variable CallersFrames : uintptr -> Frame.

(** The frame walk without annotation cursor: the locations of the
    capture from index [n - 1] down to 0, deduplicated. *)
Fixpoint captureWalk (callers : list uintptr) (n : nat)
    (hierarchy : UnpackHierarchy) : UnpackHierarchy :=
  match n with
  | O => hierarchy
  | S callerIndex =>
    match callers !! callerIndex with
    | Some pc =>
      captureWalk callers callerIndex
        (addCallerLocation hierarchy (getLocation CallersFrames pc))
    | None => hierarchy
    end
  end.

(** The link of an annotation. *)
Definition linkOf (info : AdditionalInformation) : WrapLink :=
  mkWrapLink (msg info) (msgArgs info) (fields info)
             (getLocation CallersFrames (caller info)).

(** What the splice loop does with one annotation. *)
Definition emit (hierarchy : UnpackHierarchy) (info : AdditionalInformation)
  : UnpackHierarchy :=
  addCallerLocation
    (if annotated info then appendLink hierarchy (linkOf info) else hierarchy)
    (getLocation CallersFrames (caller info)).

(** The splice loop on the list of annotations the cursor delivers. *)
Fixpoint spliceAt (above : uintptr) (hierarchy : UnpackHierarchy)
    (rem : list AdditionalInformation)
  : UnpackHierarchy * list AdditionalInformation :=
  match rem with
  | [] => (hierarchy, [])
  | info :: rem' =>
    if above =? callerCaller info
    then spliceAt above (emit hierarchy info) rem'
    else (hierarchy, rem)
  end.

(** The frame walk on the list of annotations the cursor delivers. *)
Fixpoint walk (callers : list uintptr) (n : nat)
    (hierarchy : UnpackHierarchy) (rem : list AdditionalInformation)
  : UnpackHierarchy * list AdditionalInformation :=
  match n with
  | O => (hierarchy, rem)
  | S callerIndex =>
    let spliced :=
      if bool_decide (callerIndex = (length callers - 1)%nat)
      then (hierarchy, rem)
      else match callers !! (callerIndex + 1)%nat with
           | Some above => spliceAt above hierarchy rem
           | None => (hierarchy, rem)
           end in
    match callers !! callerIndex with
    | Some pc =>
      walk callers callerIndex
        (addCallerLocation spliced.1 (getLocation CallersFrames pc)) spliced.2
    | None => spliced
    end
  end.

(** [hierarchy'] is [hierarchy] with locations added and with the links of
    [consumed] appended. *)
Definition grows (hierarchy hierarchy' : UnpackHierarchy)
    (consumed : list AdditionalInformation) : Prop :=
  ErrExternal hierarchy' = ErrExternal hierarchy
  /\ Links hierarchy' = Links hierarchy ++ (linkOf <$> linked consumed)
  /\ SubHierarchies hierarchy' = SubHierarchies hierarchy.

End ReconstructionVocabulary.

(** ** Text without locations *)

(** Concatenation of a list of strings. *)
Definition concatStrings (l : list string) : string :=
  foldr String.append "" l.

Section RenderingVocabulary.

Variable Sprintf : string -> list value -> fmtCall.
Variable SprintFields : gmap string value -> fmtCall.
Variable SprintError : heap -> addr -> string.
Variable FormatPanic : rune -> string.
Variable FormatMethod : addr -> rune -> bool -> outcome string.

(** The text of one link: its interpolated message and, when it has
    fields, their dump, followed by the separator. *)
Definition linkText (sep : string) (link : WrapLink) : outcome string :=
  message ← runFmt FormatPanic FormatMethod (Sprintf (Msg link) (MsgArgs link));
  dump ←
    (if (size (Fields link) =? 0)%nat then Ok ""
     else runFmt FormatPanic FormatMethod (SprintFields (Fields link)));
  Ok (message +:+ dump +:+ sep).

(** The text of the rendering without trace, as the specification words
    it: the text of every link; then the text of the external error, if
    any, followed by the separator; then the same for every sub-hierarchy.
    No location takes part in it. *)
Fixpoint plainText (h : heap) (sep : string) (hierarchy : UnpackHierarchy)
  : outcome string :=
  match hierarchy with
  | mkUnpackHierarchy ext _ links subs =>
    texts ← mapM (linkText sep) links;
    external ←
      match ext with
      | Some a =>
        text ← Sprint FormatPanic SprintError FormatMethod h a;
        Ok (text +:+ sep)
      | None => Ok ""
      end;
    below ← mapM (plainText h sep) subs;
    Ok (concatStrings texts +:+ external +:+ concatStrings below)
  end.

(** The format [ToString(err, false)] renders with. *)
Definition plainFormat (locationFormatFunc : Location -> string) : StringFormat :=
  NewDefaultStringFormat SprintFields
    (mkFormatOptions locationFormatFunc false).

End RenderingVocabulary.

(** The link with its location removed. *)
Definition eraseLink (l : WrapLink) : WrapLink :=
  mkWrapLink (Msg l) (MsgArgs l) (Fields l) (mkLocation "" 0 "").

(** A hierarchy with every location removed. *)
Fixpoint eraseLocations (hierarchy : UnpackHierarchy) : UnpackHierarchy :=
  match hierarchy with
  | mkUnpackHierarchy ext _ links subs =>
    mkUnpackHierarchy ext [] (eraseLink <$> links) (map eraseLocations subs)
  end.

(** Two hierarchies that differ in locations only. *)
Definition sameText (x y : UnpackHierarchy) : Prop :=
  eraseLocations x = eraseLocations y.

(** Two outcomes of the same kind, with related results. *)
Definition agree {A : Type} (R : A -> A -> Prop) (o1 o2 : outcome A) : Prop :=
  match o1, o2 with
  | Ok a, Ok b => R a b
  | Panic, Panic => True
  | Timeout, Timeout => True
  | _, _ => False
  end.

(** Two states of the frame walk that differ in locations only. *)
Definition sameWalk (x y : UnpackHierarchy * error) : Prop :=
  sameText x.1 y.1 /\ x.2 = y.2.

(** ** Well-formed stores *)

(** A nil error, or a pointer into the store. *)
Definition validError (h : heap) (e : error) : Prop :=
  match e with
  | None => True
  | Some a => (a < length h)%nat
  end.

(** The errors an object points to. *)
Definition pointers (o : object) : list error :=
  match o with
  | rootError _ _ e => [e]
  | wrapError _ e => [e]
  | joinError _ es => es
  | foreignError _ NoUnwrap => []
  | foreignError _ (UnwrapOne e) => [e]
  | foreignError _ (UnwrapMany es) => es
  end.

(** No object of the store holds a dangling pointer. *)
Definition closed (h : heap) : Prop :=
  forall a o, h !! a = Some o -> Forall (validError h) (pointers o).

(** [e] is nil or points below address [a]. *)
Definition below (a : addr) (e : error) : Prop :=
  match e with
  | None => True
  | Some b => (b < a)%nat
  end.

(** Every object points to older objects only: the store has no cycle. *)
Definition ordered (h : heap) : Prop :=
  forall a o, h !! a = Some o -> Forall (below a) (pointers o).

(** No capture of the store has exactly one entry. *)
Definition noSingleEntryCapture (h : heap) : Prop :=
  forall a o cs, h !! a = Some o -> Callers o = Some cs -> length cs ≠ 1%nat.

(** 0 for nil, the address plus one otherwise. *)
Definition rank (e : error) : nat :=
  match e with
  | None => 0
  | Some a => S a
  end.

(** A cursor of the frame walk: nil, or an error of the store whose
    annotation is not nil. *)
Definition goodCursor (h : heap) (cursor : error) : Prop :=
  match cursor with
  | None => True
  | Some a => exists info, cursorInformation h a = Ok info
  end.

(** [e] is what [Unwrap()] of the object at [x] returns, or one of the
    errors its [Unwrap() []error] returns. *)
Definition directCause (h : heap) (x : addr) (e : error) : Prop :=
  exists o, h !! x = Some o
    /\ (Unwrap o = Some e \/ exists es, UnwrapAll o = Some es /\ e ∈ es).

(** ** Shape of hierarchies *)

(** No node has exactly one sub-hierarchy, and a node with sub-hierarchies
    has no external error. *)
#[warnings="-register-all"] Inductive collapsed : UnpackHierarchy -> Prop :=
| collapsed_node ext locs links subs :
    length subs ≠ 1%nat ->
    (subs ≠ [] -> ext = None) ->
    Forall collapsed subs ->
    collapsed (mkUnpackHierarchy ext locs links subs).

(** No two neighbours of the list are equal. *)
Definition noRepeat (l : list Location) : Prop :=
  forall i x y, l !! i = Some x -> l !! S i = Some y -> x ≠ y.

(** ** Strings *)

(** [s] contains the character ["/"]. *)
Fixpoint hasSlash (s : string) : bool :=
  match s with
  | EmptyString => false
  | String c s' => Ascii.eqb c "/"%char || hasSlash s'
  end.

(** ** Shape of documents *)

(** An object whose ["join"] entry, if any, is an array of at least two
    objects of the same shape, and excludes the entries ["external"] and
    ["type"]. *)
#[warnings="-register-all"] Inductive joinShaped : document -> Prop :=
| joinShaped_object (m : gmap string document) :
    (forall d, m !! "join" = Some d ->
       exists l, d = DArray l
         /\ (2 <= length l)%nat
         /\ Forall joinShaped l
         /\ m !! "external" = None
         /\ m !! "type" = None) ->
    joinShaped (DObject m).

(** ** Links and their locations *)



(** [Q] holds of every link of the hierarchy. *)
#[warnings="-register-all"] Inductive allLinks (Q : WrapLink -> Prop)
  : UnpackHierarchy -> Prop :=
| allLinks_node ext locs links subs :
    Forall Q links ->
    Forall (allLinks Q) subs ->
    allLinks Q (mkUnpackHierarchy ext locs links subs).

(** ** Calls back into the package *)

(** A call of a [Format] method that asks for no trace: [printError] sets
    [withTrace] for the verb ['v'] with the [+] flag only. *)
Definition plainCall (call : addr * rune * bool) : Prop :=
  (call.1.2 =? 118) && call.2 = false.

Section CallVocabulary.

Variable Sprintf : string -> list value -> fmtCall.
Variable SprintFields : gmap string value -> fmtCall.

(** Printing the message and the fields asks for no trace. *)
Definition plainPrint (m : string) (args : list value)
    (fs : gmap string value) : Prop :=
  Forall plainCall (formats (Sprintf m args))
  /\ Forall plainCall (formats (SprintFields fs)).

Definition plainLink (link : WrapLink) : Prop :=
  plainPrint (Msg link) (MsgArgs link) (Fields link).

(** No annotation of the store has an error of the package printed with
    its trace, as the verb [%+v] in a message does to an argument. *)
Definition plainStore (h : heap) : Prop :=
  forall a info, cursorInformation h a = Ok info ->
    plainPrint (msg info) (msgArgs info) (fields info).

End CallVocabulary.

(** An error from outside the package, or nil. *)
Definition foreignOrNil (h : heap) (e : error) : Prop :=
  match e with
  | None => True
  | Some a => exists text next, h !! a = Some (foreignError text next)
  end.

(** * Example programs *)

(** A symbol table: every program counter resolves to a function of
    package [main] in [main.go], at the line of its value. *)
Definition exampleFrames (pc : uintptr) : Frame :=
  mkFrame "example.com/app/main.run" "main.go" pc.

(** Formatting primitives on the inputs the examples use.  [fmt.Sprintf]:
    the template ["%+v"] with one error of the package as its argument
    calls the error's [Format] method with the verb ['v'] and the [+] flag
    and returns what it wrote; a template without verb, with no argument,
    is returned as it is.  [fmt.Sprint] on a map of plain values: the keys
    and values between brackets. *)
Definition exampleSprintf (template : string) (args : list value) : fmtCall :=
  match args with
  | [ErrorValue a] =>
    if decide (template = "%+v")
    then mkFmtCall [(a, 118, true)] concatStrings
    else mkFmtCall [] (fun _ => template)
  | _ => mkFmtCall [] (fun _ => template)
  end.

Definition exampleSprintValue (v : value) : string :=
  match v with
  | Plain text => text
  | ErrorValue _ => ""
  end.

Definition exampleSprintFields (fs : gmap string value) : fmtCall :=
  mkFmtCall []
    (fun _ =>
       "map["
       +:+ concatStrings
             ((fun kv => kv.1 +:+ ":" +:+ exampleSprintValue kv.2)
                <$> map_to_list fs)
       +:+ "]").

(** [fmt]'s note for a [Format] method that panicked, up to the text of
    the panic. *)
Definition exampleFormatPanic (verb : rune) : string := "%!v(PANIC=Format method)".

Definition exampleSprintError (h : heap) (a : addr) : string :=
  match h !! a with
  | Some (foreignError text _) => text
  | _ => ""
  end.

(** The stack seen by [runtime.Callers] when a public constructor of the
    first layer ([New], [Wrapf], [Join], [ErrorDepth] ...) is called from
    the function at the head of [pcs], itself called from the next one, and
    so on: the four innermost frames belong to the runtime and to the
    package. *)
Definition stackAt (pcs : list uintptr) : list uintptr := [1; 2; 3; 4] ++ pcs.

(** A store holding one error from outside the package. *)
Definition foreignHeap : heap := [foreignError "unexpected EOF" NoUnwrap].

(** Three foreign errors. *)
Definition threeForeign : heap :=
  [foreignError "a" NoUnwrap; foreignError "b" NoUnwrap; foreignError "c" NoUnwrap].

(** A root captured at [100; 200; 300], as [New] builds it. *)
Definition rootHeap : heap := (New [] (stackAt [100; 200; 300]) "root fail").2.

(** The root of [rootHeap] wrapped once, by [Wrapf] called at 200. *)
Definition wrappedRoot : outcome (error * heap) :=
  Wrapf 1 rootHeap (stackAt [200; 300]) (Some 0%nat) "mid" [].

(** The root that [ErrorDepth(1, "boom")] builds when called from the entry
    function of a goroutine: after the skipped frames only the goroutine's
    exit frame (600) is left in the capture. *)
Definition oneEntryRoot : error * heap :=
  ErrorDepth [] (stackAt [500; 600]) 1 "boom".

(** The root that [ErrorDepth(2, "boom")] builds when only two frames lie
    above the call: the skip depth exhausts the stack and the capture is
    empty. *)
Definition emptyCaptureRoot : error * heap :=
  ErrorDepth [] (stackAt [500; 600]) 2 "boom".

(** Two foreign errors merged by [Join] at 500, and a third foreign error. *)
Definition joinHeap : heap :=
  (Join [foreignError "a" NoUnwrap; foreignError "b" NoUnwrap]
        (stackAt [500; 600]) [Some 0%nat; Some 1%nat]).2
  ++ [foreignError "c" NoUnwrap].

(** [Join(j, j)] on the join of [joinHeap] appends [j] to its own causes. *)
Definition selfJoinHeap : heap :=
  (Join joinHeap (stackAt [510; 600]) [Some 2%nat; Some 2%nat]).2.

(** A root created at 100 (called from 200, called from 300, called from
    400), wrapped with a message and a field by the caller at 201 and then
    with a message by the caller's caller at 301. *)
Definition chainHeap : heap :=
  [rootError [100; 200; 300; 400]
     (Some (mkAdditionalInformation 100 200 ∅ "root fail" [])) None;
   wrapError (Some (mkAdditionalInformation 201 300 {["k" := Plain "v"]} "mid" []))
     (Some 0%nat);
   wrapError (Some (mkAdditionalInformation 301 400 ∅ "top" [])) (Some 1%nat)].

(** A root created at 100 during start-up and kept as a sentinel, wrapped
    later with a message by a function at 800 called from 900. *)
Definition sentinelHeap : heap :=
  [rootError [100; 200; 300]
     (Some (mkAdditionalInformation 100 200 ∅ "root fail" [])) None;
   wrapError (Some (mkAdditionalInformation 800 900 ∅ "top" [])) (Some 0%nat)].


(** The one-entry root of [oneEntryRoot] and two foreign errors, merged by
    [Join] called at 500 from 600. *)
Definition oneEntryJoin : error * heap :=
  Join (oneEntryRoot.2 ++ [foreignError "b" NoUnwrap; foreignError "c" NoUnwrap])
       (stackAt [500; 600]) [Some 0%nat; Some 1%nat; Some 2%nat].

(** * Properties *)

(** ** Fuel: more fuel never changes a result *)

Lemma refines_refl {A : Type} (o : outcome A) : refines o o.
Proof. by right. Qed.

Lemma refines_bind {A B : Type} (m m' : outcome A) (f f' : A -> outcome B) :
  refines m m' ->
  (forall x, refines (f x) (f' x)) ->
  refines (m ≫= f) (m' ≫= f').
Proof.
  intros [-> | ->] Hf; [by left |].
  destruct m' as [x | |]; simpl; [apply Hf | by right | by left].
Qed.

Lemma refines_Ok {A : Type} (o1 o2 : outcome A) (x : A) :
  refines o1 o2 -> o1 = Ok x -> o2 = Ok x.
Proof. intros [-> | ->]; [discriminate | done]. Qed.

Lemma refines_Panic {A : Type} (o1 o2 : outcome A) :
  refines o1 o2 -> o1 = Panic -> o2 = Panic.
Proof. intros [-> | ->]; [discriminate | done]. Qed.

Lemma refines_mapM {A B : Type} (f f' : A -> outcome B) (l : list A) :
  (forall x, refines (f x) (f' x)) -> refines (mapM f l) (mapM f' l).
Proof.
  intros Hf. induction l as [| x l IH]; simpl; [apply refines_refl |].
  apply refines_bind; [apply Hf |]. intros y.
  apply refines_bind; [apply IH |]. intros ys. apply refines_refl.
Qed.

Lemma nextStackFrameError_S fuel h err :
  refines (nextStackFrameError fuel h err) (nextStackFrameError (S fuel) h err).
Proof.
  revert err. induction fuel as [| fuel IH]; intros [a |]; try (by right); try (by left).
  change (refines
    (o ← deref h a;
     match Unwrap o with
     | None => Ok None
     | Some None => Ok None
     | Some (Some b) =>
       o' ← deref h b;
       match GetAdditionalInformation o' with
       | None => Ok None
       | Some (Some _) => Ok (Some b)
       | Some None => nextStackFrameError fuel h (Some b)
       end
     end)
    (o ← deref h a;
     match Unwrap o with
     | None => Ok None
     | Some None => Ok None
     | Some (Some b) =>
       o' ← deref h b;
       match GetAdditionalInformation o' with
       | None => Ok None
       | Some (Some _) => Ok (Some b)
       | Some None => nextStackFrameError (S fuel) h (Some b)
       end
     end)).
  apply refines_bind; [apply refines_refl |]. intros o.
  destruct (Unwrap o) as [[b |] |]; try apply refines_refl.
  apply refines_bind; [apply refines_refl |]. intros o'.
  destruct (GetAdditionalInformation o') as [[i |] |]; try apply refines_refl.
  apply IH.
Qed.

Lemma Cause_S fuel h err :
  refines (Cause fuel h err) (Cause (S fuel) h err).
Proof.
  revert err. induction fuel as [| fuel IH]; intros [a |]; try (by right); try (by left).
  change (refines
    (o ← deref h a;
     if match Callers o with
        | Some cs => bool_decide (0 < length cs)%nat
        | None => false
        end
     then Ok (Some a)
     else match Unwrap o with
          | None => Ok None
          | Some e => Cause fuel h e
          end)
    (o ← deref h a;
     if match Callers o with
        | Some cs => bool_decide (0 < length cs)%nat
        | None => false
        end
     then Ok (Some a)
     else match Unwrap o with
          | None => Ok None
          | Some e => Cause (S fuel) h e
          end)).
  apply refines_bind; [apply refines_refl |]. intros o.
  destruct (match Callers o with Some cs => _ | None => _ end);
    [apply refines_refl |].
  destruct (Unwrap o) as [e |]; [apply IH | apply refines_refl].
Qed.

Lemma refines_trans {A : Type} (o1 o2 o3 : outcome A) :
  refines o1 o2 -> refines o2 o3 -> refines o1 o3.
Proof. intros [-> | ->]; [by left | done]. Qed.

Lemma refines_le {A : Type} (f : nat -> outcome A) :
  (forall n, refines (f n) (f (S n))) ->
  forall n m, (n <= m)%nat -> refines (f n) (f m).
Proof.
  intros Hf n m Hle. induction Hle as [| m Hle IH]; [apply refines_refl |].
  eapply refines_trans; [apply IH | apply Hf].
Qed.

Lemma Cause_mono fuel fuel' h err r :
  (fuel <= fuel')%nat -> Cause fuel h err = Ok r -> Cause fuel' h err = Ok r.
Proof.
  intros Hle. apply refines_Ok.
  apply (refines_le (fun n => Cause n h err)); [intros n; apply Cause_S | done].
Qed.

Lemma nextStackFrameError_mono fuel fuel' h err r :
  (fuel <= fuel')%nat ->
  nextStackFrameError fuel h err = Ok r -> nextStackFrameError fuel' h err = Ok r.
Proof.
  intros Hle. apply refines_Ok.
  apply (refines_le (fun n => nextStackFrameError n h err));
    [intros n; apply nextStackFrameError_S | done].
Qed.

(** ** Unfolding lemmas *)

Lemma Cause_anchor fuel h a o cs :
  h !! a = Some o -> Callers o = Some cs -> (0 < length cs)%nat ->
  Cause (S fuel) h (Some a) = Ok (Some a).
Proof.
  intros Hlookup HCallers Hlen. cbn [Cause]. unfold deref. rewrite Hlookup.
  cbn [mbind outcome_bind]. rewrite HCallers. by rewrite bool_decide_eq_true_2.
Qed.

Lemma Cause_wrapError fuel h a info e :
  h !! a = Some (wrapError info e) ->
  Cause (S fuel) h (Some a) = Cause fuel h e.
Proof.
  intros Hlookup. cbn [Cause]. unfold deref. by rewrite Hlookup.
Qed.

Lemma Cause_foreignError fuel h a text next :
  h !! a = Some (foreignError text next) ->
  Cause (S fuel) h (Some a)
  = match next with UnwrapOne e => Cause fuel h e | _ => Ok None end.
Proof.
  intros Hlookup. cbn [Cause]. unfold deref. rewrite Hlookup.
  by destruct next.
Qed.

Lemma Cause_empty_capture fuel h a o e :
  h !! a = Some o -> Callers o = Some [] -> Unwrap o = Some e ->
  Cause (S fuel) h (Some a) = Cause fuel h e.
Proof.
  intros Hlookup HCallers HUnwrap. cbn [Cause]. unfold deref. rewrite Hlookup.
  cbn [mbind outcome_bind]. by rewrite HCallers, HUnwrap.
Qed.

Section ReconstructorFuel.

Variable CallersFrames : uintptr -> Frame.

(** One unfolding of the splice loop at a live cursor. *)
Lemma spliceLoop_unfold fuel h callers callerIndex hierarchy a :
  spliceLoop CallersFrames (S fuel) h callers callerIndex hierarchy (Some a) =
  if bool_decide (callerIndex = (length callers - 1)%nat)
  then Ok (hierarchy, Some a)
  else
    above ← index callers (callerIndex + 1);
    info ← cursorInformation h a;
    if above =? callerCaller info then
      next ← nextStackFrameError fuel h (Some a);
      spliceLoop CallersFrames fuel h callers callerIndex
        (addCallerLocation
           (if annotated info
            then appendLink hierarchy
                   (mkWrapLink (msg info) (msgArgs info) (fields info)
                               (getLocation CallersFrames (caller info)))
            else hierarchy)
           (getLocation CallersFrames (caller info)))
        next
    else Ok (hierarchy, Some a).
Proof. reflexivity. Qed.

Lemma spliceLoop_S fuel h callers callerIndex hierarchy cursor :
  refines (spliceLoop CallersFrames fuel h callers callerIndex hierarchy cursor)
          (spliceLoop CallersFrames (S fuel) h callers callerIndex hierarchy cursor).
Proof.
  revert hierarchy cursor.
  induction fuel as [| fuel IH]; intros hierarchy [a |]; try (by right).
  rewrite (spliceLoop_unfold fuel), (spliceLoop_unfold (S fuel)).
  case_bool_decide; [by right |].
  apply refines_bind; [apply refines_refl |]. intros above.
  apply refines_bind; [apply refines_refl |]. intros info.
  destruct (above =? callerCaller info); [| by right].
  apply refines_bind; [apply nextStackFrameError_S |]. intros next.
  apply IH.
Qed.

Lemma frameWalk_S fuel h callers n hierarchy cursor :
  refines (frameWalk CallersFrames fuel h callers n hierarchy cursor)
          (frameWalk CallersFrames (S fuel) h callers n hierarchy cursor).
Proof.
  revert hierarchy cursor.
  induction n as [| n IH]; intros hierarchy cursor; [by right |].
  cbn [frameWalk].
  apply refines_bind; [apply spliceLoop_S |]. intros [hierarchy' cursor'].
  apply refines_bind; [apply refines_refl |]. intros pc.
  apply IH.
Qed.

Lemma firstCursor_S fuel h err :
  refines (firstCursor fuel h err) (firstCursor (S fuel) h err).
Proof.
  destruct err as [a |]; [| by right]. unfold firstCursor.
  apply refines_bind; [apply refines_refl |]. intros o.
  destruct (GetAdditionalInformation o) as [[i |] |]; try apply refines_refl.
  apply nextStackFrameError_S.
Qed.

Lemma unpackChildren_refines recur recur' o callers :
  (forall e pc, refines (recur e pc) (recur' e pc)) ->
  refines (unpackChildren recur o callers) (unpackChildren recur' o callers).
Proof.
  intros Hrec. unfold unpackChildren.
  destruct (Unwrap o) as [e |].
  - apply refines_bind; [apply refines_refl |]. intros floor.
    apply refines_bind; [apply Hrec |]. intros sub. apply refines_refl.
  - destruct (UnwrapAll o) as [es |]; [| apply refines_refl].
    apply refines_mapM. intros e.
    apply refines_bind; [apply refines_refl |]. intros floor. apply Hrec.
Qed.

Lemma unpack_S fuel h err parentPC :
  refines (unpack CallersFrames fuel h err parentPC)
          (unpack CallersFrames (S fuel) h err parentPC).
Proof.
  revert err parentPC.
  induction fuel as [| fuel IH]; intros err parentPC; [by left |].
  cbn [unpack].
  apply refines_bind; [apply Cause_S |]. intros [a |]; [| apply refines_refl].
  apply refines_bind; [apply refines_refl |]. intros o.
  apply refines_bind; [apply refines_refl |]. intros callers.
  apply refines_bind; [apply firstCursor_S |]. intros cursor.
  apply refines_bind; [apply frameWalk_S |]. intros [hierarchy cursor'].
  apply refines_bind; [| intros subs; apply refines_refl].
  apply unpackChildren_refines. intros e pc. apply IH.
Qed.

Lemma unpack_mono fuel fuel' h err parentPC r :
  (fuel <= fuel')%nat ->
  unpack CallersFrames fuel h err parentPC = Ok r ->
  unpack CallersFrames fuel' h err parentPC = Ok r.
Proof.
  intros Hle. apply refines_Ok.
  apply (refines_le (fun n => unpack CallersFrames n h err parentPC));
    [intros n; apply unpack_S | done].
Qed.

(** [unpack] of an error for which [Cause] finds nothing. *)
Lemma unpack_no_anchor fuel h err parentPC :
  Cause fuel h err = Ok None ->
  unpack CallersFrames (S fuel) h err parentPC
  = Ok (mkUnpackHierarchy err [] [] []).
Proof. intros HCause. cbn [unpack]. by rewrite HCause. Qed.

(** [unpack] once the anchor, its object and its capture are known. *)
Lemma unpack_at_anchor fuel h err parentPC a o callers :
  Cause fuel h err = Ok (Some a) ->
  h !! a = Some o ->
  Callers o = Some callers ->
  unpack CallersFrames (S fuel) h err parentPC
  = (cursor ← firstCursor fuel h err;
     '(hierarchy, _) ←
       frameWalk CallersFrames fuel h callers
         (Z.to_nat (callerStartIndex callers parentPC + 1))
         emptyHierarchy cursor;
     subs ← unpackChildren (unpack CallersFrames fuel h) o callers;
     Ok (flatten (withSubHierarchies hierarchy subs))).
Proof.
  intros HCause Hlookup HCallers. cbn [unpack]. rewrite HCause.
  cbn [mbind outcome_bind]. unfold deref. rewrite Hlookup.
  cbn [mbind outcome_bind]. rewrite HCallers. reflexivity.
Qed.

End ReconstructorFuel.

(** ** Reconstruction of an error without anchor *)

(** C8.  When [Cause] finds no anchor for the input error, [unpack] returns
    a leaf: [ErrExternal] is the input error itself, and [CallerLocations],
    [Links] and [SubHierarchies] are empty, whatever the floor. *)
Theorem unpack_without_anchor_is_leaf CallersFrames fuel h err parentPC :
  Cause fuel h err = Ok None ->
  unpack CallersFrames (S fuel) h err parentPC
  = Ok (mkUnpackHierarchy err [] [] []).
Proof. apply unpack_no_anchor. Qed.

Lemma unpack_without_anchor_is_leaf_witness :
  Cause 1 foreignHeap (Some 0%nat) = Ok None /\
  unpack exampleFrames 2 foreignHeap (Some 0%nat) 0
  = Ok (mkUnpackHierarchy (Some 0%nat) [] [] []).
Proof.
  split; [reflexivity |].
  apply (unpack_without_anchor_is_leaf exampleFrames 1 foreignHeap (Some 0%nat) 0).
  reflexivity.
Defined.

(** ** A floor that the capture does not contain *)

Lemma floorScan_absent callers parentPC n :
  parentPC ∉ callers -> floorScan callers parentPC n = -1.
Proof.
  intros Hnotin. induction n as [| k IH]; [done |].
  cbn [floorScan]. destruct (callers !! k) as [pc |] eqn:Hk; [| done].
  destruct (Z.eqb_spec pc parentPC) as [-> | _]; [| done].
  exfalso. apply Hnotin. by eapply list_elem_of_lookup_2.
Qed.

Lemma floorScan_upper callers parentPC n :
  -1 <= floorScan callers parentPC n < Z.of_nat n.
Proof.
  induction n as [| k IH]; [cbn; lia |].
  cbn [floorScan]. destruct (callers !! k) as [pc |]; [| lia].
  destruct (pc =? parentPC); lia.
Qed.

(** C10.  With a non-zero floor that occurs nowhere in the anchor's
    capture, the start index of the frame walk is -1, the walk emits
    nothing (no location, no link, the cursor untouched), and the result of
    [unpack] is made of the reconstructed causes alone. *)
Theorem unpack_floor_absent_drops_capture
    CallersFrames fuel h err parentPC a o callers :
  Cause fuel h err = Ok (Some a) ->
  h !! a = Some o ->
  Callers o = Some callers ->
  parentPC ≠ 0 ->
  parentPC ∉ callers ->
  callerStartIndex callers parentPC = -1
  /\ (forall cursor,
        frameWalk CallersFrames fuel h callers
          (Z.to_nat (callerStartIndex callers parentPC + 1)) emptyHierarchy cursor
        = Ok (emptyHierarchy, cursor))
  /\ unpack CallersFrames (S fuel) h err parentPC
     = (_ ← firstCursor fuel h err;
        subs ← unpackChildren (unpack CallersFrames fuel h) o callers;
        Ok (flatten (withSubHierarchies emptyHierarchy subs))).
Proof.
  intros HCause Hlookup HCallers Hnonzero Hnotin.
  assert (Hstart : callerStartIndex callers parentPC = -1).
  { unfold callerStartIndex.
    destruct (Z.eqb_spec parentPC 0) as [? | _]; [done |].
    by apply floorScan_absent. }
  split; [done |]. rewrite Hstart. split; [done |].
  rewrite (unpack_at_anchor _ _ _ _ _ _ _ _ HCause Hlookup HCallers), Hstart.
  by destruct (firstCursor fuel h err).
Qed.

Lemma unpack_floor_absent_drops_capture_witness :
  callerStartIndex [100; 200; 300] 999 = -1
  /\ unpack exampleFrames 2 rootHeap (Some 0%nat) 999
     = Ok (mkUnpackHierarchy None [] [] []).
Proof.
  destruct (unpack_floor_absent_drops_capture exampleFrames 1 rootHeap
              (Some 0%nat) 999 0%nat
              (rootError [100; 200; 300]
                 (Some (mkAdditionalInformation 100 200 ∅ "root fail" []))
                 None)
              [100; 200; 300])
    as (Hstart & _ & Hunpack).
  - reflexivity.
  - reflexivity.
  - reflexivity.
  - lia.
  - intros Hin. repeat (apply elem_of_cons in Hin as [Hin | Hin]; [lia |]).
    by apply elem_of_nil in Hin.
  - split; [exact Hstart |]. rewrite Hunpack. reflexivity.
Defined.

(** ** A capture of a single entry *)

(** C1.  [Unpack] does not return on the root above: its capture holds one
    entry, [Cause] accepts it as anchor, and reading the floor [callers[1]]
    for the recursion is out of range. *)
Theorem Unpack_one_entry_capture_panics CallersFrames fuel :
  oneEntryRoot = (Some 0%nat,
                  [rootError [600]
                     (Some (mkAdditionalInformation 600 0 ∅ "boom" [])) None])
  /\ Unpack CallersFrames (S (S fuel)) oneEntryRoot.2 oneEntryRoot.1 = Panic.
Proof. split; reflexivity. Qed.

(** The same holds for every store: an anchor with a one-entry capture and a
    single cause makes [unpack] panic, whatever the cause. *)
Lemma unpack_one_entry_root_panics CallersFrames fuel h a pc info e parentPC :
  h !! a = Some (rootError [pc] info e) ->
  unpack CallersFrames (S (S fuel)) h (Some a) parentPC = Timeout
  \/ unpack CallersFrames (S (S fuel)) h (Some a) parentPC = Panic.
Proof.
  intros Hlookup.
  rewrite (unpack_at_anchor _ _ _ _ _ a (rootError [pc] info e) [pc]);
    [| by eapply Cause_anchor; [done | done | cbn; lia] | done | done].
  destruct (firstCursor (S fuel) h (Some a)) as [cursor | |];
    [| by right | by left].
  cbn [mbind outcome_bind].
  destruct (frameWalk _ _ _ _ _ _ _) as [[hierarchy cursor'] | |];
    [by right | by right | by left].
Qed.

(** ** Wrapping a nil cause *)

(** C2 (amended).  Wrapping a nil cause does not fail: [Cause] of nil is
    nil, so [WrapDepths] and [WrapDepth] take the no-anchor branch and
    return a freshly allocated root with a new full capture and no wrapped
    cause; [WrapDepths] gives it the annotation built from the capture. *)
Theorem wrap_nil_cause_builds_root fuel h stack skip fs m args :
  WrapDepths fuel h stack skip None fs m args
  = Ok (Some (length h),
        h ++ [rootError (NewCallers stack (skip + 3))
                (Some (annotate (NewAdditionalInformationFromCallers
                                   (NewCallers stack (skip + 3))) fs m args))
                None])
  /\ WrapDepth fuel h stack skip None
     = Ok (Some (length h),
           h ++ [rootError (NewCallers stack (skip + 3)) None None]).
Proof. split; by destruct fuel. Qed.

(** C2 as stated fails: [Wrapf(nil, "ctx")] called at 500 returns a
    non-nil error, a root wrapping nothing, and signals no failure. *)
Lemma Wrapf_nil_cause_returns_error :
  Wrapf 0 [] (stackAt [500; 600]) None "ctx" []
  = Ok (Some 0%nat,
        [rootError [500; 600]
           (Some (mkAdditionalInformation 500 600 ∅ "ctx" [])) None])
  /\ Wrapf 0 [] (stackAt [500; 600]) None "ctx" [] ≠ Panic.
Proof. split; [reflexivity | discriminate]. Qed.

(** ** Merging *)

Lemma live_app (l1 l2 : list error) : live (l1 ++ l2) = live l1 ++ live l2.
Proof. unfold live. apply filter_app. Qed.

Lemma live_cons_Some a (l : list error) : live (Some a :: l) = Some a :: live l.
Proof. unfold live. by rewrite filter_cons_True. Qed.

Lemma live_cons_None (l : list error) : live (None :: l) = live l.
Proof. unfold live. rewrite filter_cons_False; [done | by intros []]. Qed.

Lemma JoinDepth_many h stack skip errs :
  (2 <= length (live errs))%nat ->
  JoinDepth h stack skip errs
  = match asJoin h (errs !! 0%nat) with
    | Some (a, cs, es) =>
      (Some a, <[a := joinError cs (es ++ live (drop 1 errs))]> h)
    | None => alloc h (joinError (NewCallers stack (skip + 3)) (live errs))
    end.
Proof.
  intros Hn. unfold JoinDepth.
  destruct (length (live errs)) as [| [| n]]; [lia | lia | done].
Qed.

(** C3 (amended).  With at least two live arguments, what decides is the
    first argument [errs[0]], not the first live one.  When [errs[0]] points
    to a join, the live errors among the remaining arguments are appended to
    its cause sequence in place: the same address is returned, its capture
    is kept and no other object changes.  In every other case a fresh join
    is allocated with a new capture and the live errors in argument order.
    Hence merging [e3] into the merge of [e1] and [e2] builds the very
    object that merging [e1], [e2], [e3] at once builds. *)
Theorem JoinDepth_appends_to_first_argument h stack skip errs :
  (2 <= length (live errs))%nat ->
  (forall a cs es,
      errs !! 0%nat = Some (Some a) ->
      h !! a = Some (joinError cs es) ->
      let h' := (JoinDepth h stack skip errs).2 in
      (JoinDepth h stack skip errs).1 = Some a
      /\ h' !! a = Some (joinError cs (es ++ live (drop 1 errs)))
      /\ length h' = length h
      /\ forall b, b ≠ a -> h' !! b = h !! b)
  /\ (asJoin h (errs !! 0%nat) = None ->
      JoinDepth h stack skip errs
      = (Some (length h),
         h ++ [joinError (NewCallers stack (skip + 3)) (live errs)]))
  /\ (forall a1 a2 a3 stack' skip',
      errs = [Some a1; Some a2; Some a3] ->
      asJoin h (Some (Some a1)) = None ->
      let merged := JoinDepth h stack skip [Some a1; Some a2] in
      JoinDepth merged.2 stack' skip' [merged.1; Some a3]
      = JoinDepth h stack skip errs).
Proof.
  intros Hn. split; [| split].
  - intros a cs es H0 Hlookup. rewrite (JoinDepth_many _ _ _ _ Hn).
    unfold asJoin. rewrite H0, Hlookup. cbn [fst snd].
    assert (a < length h)%nat by (by eapply lookup_lt_Some).
    split; [done |]. split; [by apply list_lookup_insert_eq |].
    split; [apply length_insert |].
    intros b Hb. by apply list_lookup_insert_ne.
  - intros Hnone. by rewrite (JoinDepth_many _ _ _ _ Hn), Hnone.
  - intros a1 a2 a3 stack' skip' -> Hnone.
    rewrite (JoinDepth_many h stack skip [Some a1; Some a2])
      by (rewrite !live_cons_Some; cbn; lia).
    rewrite (JoinDepth_many h stack skip [Some a1; Some a2; Some a3])
      by (rewrite !live_cons_Some; cbn; lia).
    cbn [lookup list_lookup]. rewrite Hnone. cbn [alloc fst snd].
    rewrite JoinDepth_many by (rewrite !live_cons_Some; cbn; lia).
    cbn [asJoin lookup list_lookup].
    rewrite lookup_app_r by lia. rewrite Nat.sub_diag. cbn [lookup list_lookup].
    rewrite insert_app_r_alt by lia. rewrite Nat.sub_diag.
    cbn [drop]. rewrite !live_cons_Some. reflexivity.
Qed.

Lemma JoinDepth_appends_to_first_argument_witness :
  (Join joinHeap (stackAt [510; 600]) [Some 2%nat; None; Some 3%nat]).1
  = Some 2%nat
  /\ (Join joinHeap (stackAt [510; 600]) [Some 2%nat; None; Some 3%nat]).2
       !! 2%nat
     = Some (joinError [500; 600] [Some 0%nat; Some 1%nat; Some 3%nat]).
Proof.
  destruct (JoinDepth_appends_to_first_argument joinHeap (stackAt [510; 600]) 1
              [Some 2%nat; None; Some 3%nat]) as (Hplace & _ & _).
  - vm_compute. lia.
  - destruct (Hplace 2%nat [500; 600] [Some 0%nat; Some 1%nat]) as (H1 & H2 & _).
    + reflexivity.
    + reflexivity.
    + split; [exact H1 | exact H2].
Defined.

(** C3 as stated fails: in [Join(nil, j, c)] the first live argument [j]
    (address 2) is a join and two arguments are live, yet the call does not
    append to [j]: it returns a fresh join (address 4) and leaves [j] with
    its two causes. *)
Lemma Join_first_live_join_not_reused :
  Join joinHeap (stackAt [510; 600]) [None; Some 2%nat; Some 3%nat]
  = (Some 4%nat,
     joinHeap ++ [joinError [510; 600] [Some 2%nat; Some 3%nat]])
  /\ (Join joinHeap (stackAt [510; 600]) [None; Some 2%nat; Some 3%nat]).2
       !! 2%nat
     = Some (joinError [500; 600] [Some 0%nat; Some 1%nat]).
Proof. split; reflexivity. Qed.

(** C4 (amended).  Merging no live error returns nil and leaves the store
    unchanged.  Merging exactly one live error always allocates a root with a
    new full capture, no annotation, and that error as cause.  This is what
    [WrapDepth] returns for an error that has no anchor; for an error that
    has one, [WrapDepth] allocates a wrap with a delta annotation instead. *)
Theorem JoinDepth_degenerate h stack skip errs :
  (live errs = [] -> JoinDepth h stack skip errs = (None, h))
  /\ (forall e,
        live errs = [e] ->
        JoinDepth h stack skip errs
        = (Some (length h),
           h ++ [rootError (NewCallers stack (skip + 3)) None e])
        /\ (forall fuel,
              Cause fuel h e = Ok None ->
              WrapDepth fuel h stack skip e
              = Ok (JoinDepth h stack skip errs))
        /\ (forall fuel a,
              Cause fuel h e = Ok (Some a) ->
              WrapDepth fuel h stack skip e
              = Ok (Some (length h),
                    h ++ [wrapError
                            (Some (NewAdditionalInformation stack (skip + 3)))
                            e]))).
Proof.
  split.
  - intros Hlive. unfold JoinDepth. by rewrite Hlive.
  - intros e Hlive.
    assert (HJoin : JoinDepth h stack skip errs
                    = (Some (length h),
                       h ++ [rootError (NewCallers stack (skip + 3)) None e])).
    { unfold JoinDepth. by rewrite Hlive. }
    split; [done |]. split.
    + intros fuel HCause. unfold WrapDepth. by rewrite HCause, HJoin.
    + intros fuel a HCause. unfold WrapDepth. by rewrite HCause.
Qed.

Lemma JoinDepth_degenerate_witness :
  Join foreignHeap (stackAt [500; 600]) [None; None] = (None, foreignHeap)
  /\ Join foreignHeap (stackAt [500; 600]) [None; Some 0%nat; None]
     = (Some 1%nat, foreignHeap ++ [rootError [500; 600] None (Some 0%nat)])
  /\ Wrap 1 foreignHeap (stackAt [500; 600]) (Some 0%nat)
     = Ok (Join foreignHeap (stackAt [500; 600]) [None; Some 0%nat; None])
  /\ Wrap 1 rootHeap (stackAt [500; 600]) (Some 0%nat)
     = Ok (Some 1%nat,
           rootHeap ++ [wrapError
                          (Some (mkAdditionalInformation 500 600 ∅ "" []))
                          (Some 0%nat)]).
Proof.
  destruct (JoinDepth_degenerate foreignHeap (stackAt [500; 600]) 1 [None; None])
    as [Hzero _].
  destruct (JoinDepth_degenerate foreignHeap (stackAt [500; 600]) 1
              [None; Some 0%nat; None]) as [_ Hone].
  destruct (Hone (Some 0%nat) eq_refl) as (Hroot & Huplift & _).
  destruct (JoinDepth_degenerate rootHeap (stackAt [500; 600]) 1 [Some 0%nat])
    as [_ Hone'].
  destruct (Hone' (Some 0%nat) eq_refl) as (_ & _ & Hwrap).
  split; [exact (Hzero eq_refl) |].
  split; [exact Hroot |].
  split; [exact (Huplift 1%nat eq_refl) |].
  exact (Hwrap 1%nat 0%nat eq_refl).
Defined.

(** C4 as stated fails: for an error that already has an anchor, merging it
    alone and wrapping it alone differ.  [Join(nil, r, nil)] allocates a
    root, which is its own anchor; [Wrap(r)] allocates a wrap, whose anchor
    is still [r]. *)
Lemma Join_single_differs_from_Wrap :
  Join rootHeap (stackAt [500; 600]) [None; Some 0%nat; None]
  = (Some 1%nat, rootHeap ++ [rootError [500; 600] None (Some 0%nat)])
  /\ Wrap 1 rootHeap (stackAt [500; 600]) (Some 0%nat)
     = Ok (Some 1%nat,
           rootHeap ++ [wrapError
                          (Some (mkAdditionalInformation 500 600 ∅ "" []))
                          (Some 0%nat)])
  /\ Cause 2 (rootHeap ++ [rootError [500; 600] None (Some 0%nat)]) (Some 1%nat)
     = Ok (Some 1%nat)
  /\ Cause 2 (rootHeap ++ [wrapError
                             (Some (mkAdditionalInformation 500 600 ∅ "" []))
                             (Some 0%nat)]) (Some 1%nat)
     = Ok (Some 0%nat)
  /\ Wrap 1 rootHeap (stackAt [500; 600]) (Some 0%nat)
     ≠ Ok (Join rootHeap (stackAt [500; 600]) [None; Some 0%nat; None]).
Proof. repeat split; try reflexivity. discriminate. Qed.

(** ** Anchor existence for constructed errors *)

Lemma extends_alloc h o : extends h (h ++ [o]).
Proof. intros a o' Hlookup. left. by apply lookup_app_l_Some. Qed.

Lemma extends_join_insert h a cs es es' :
  h !! a = Some (joinError cs es) ->
  extends h (<[a := joinError cs es']> h).
Proof.
  intros Hlookup b o Hb. destruct (decide (b = a)) as [-> | Hne].
  - right. exists cs, es, es'. split; [congruence |].
    apply list_lookup_insert_eq. by eapply lookup_lt_Some.
  - left. by rewrite list_lookup_insert_ne.
Qed.

Lemma Cause_extends h h' fuel e r :
  extends h h' -> Cause fuel h e = Ok r -> Cause fuel h' e = Ok r.
Proof.
  intros Hext. revert e. induction fuel as [| fuel IH]; intros [a |];
    try done.
  cbn [Cause]. unfold deref.
  destruct (h !! a) as [o |] eqn:Hlookup; [| done].
  destruct (Hext a o Hlookup) as [-> | (cs & es & es' & -> & ->)].
  - cbn [mbind outcome_bind].
    destruct (match Callers o with Some cs => _ | None => _ end); [done |].
    destruct (Unwrap o) as [e |]; [apply IH | done].
  - done.
Qed.

Lemma Cause_Some_anchorAt fuel h e b :
  Cause fuel h e = Ok (Some b) -> anchorAt h b.
Proof.
  revert e. induction fuel as [| fuel IH]; intros [a |]; try done.
  cbn [Cause]. unfold deref.
  destruct (h !! a) as [o |] eqn:Hlookup; [| done].
  cbn [mbind outcome_bind].
  destruct o as [cs info e | info e | cs es | text next]; cbn [Callers Unwrap].
  - case_bool_decide.
    + intros [= <-]. exists cs. split; [done |]. left. eauto.
    + apply IH.
  - apply IH.
  - case_bool_decide; [| done].
    intros [= <-]. exists cs. split; [done |]. right. eauto.
  - destruct next; try done. apply IH.
Qed.

Lemma lookup_alloc (h : heap) o a o' :
  (h ++ [o]) !! a = Some o' ->
  h !! a = Some o' \/ (a = length h /\ o' = o).
Proof.
  intros Hlookup. apply lookup_app_Some in Hlookup as [? | [Hle Hlookup]];
    [by left | right].
  apply list_lookup_singleton_Some in Hlookup as [? ?].
  split; [lia | done].
Qed.

Lemma anchored_extends h h' a o :
  anchored h -> extends h h' -> h !! a = Some o ->
  forall o', h' !! a = Some o' ->
    isForeign o' \/ exists fuel b, Cause fuel h' (Some a) = Ok (Some b).
Proof.
  intros Hanch Hext Hlookup o' Hlookup'.
  destruct (Hanch a o Hlookup) as [Hforeign | (fuel & b & HCause)].
  - left. destruct (Hext a o Hlookup) as [Heq | (cs & es & es' & -> & _)];
      [| done].
    congruence.
  - right. exists fuel, b. by eapply Cause_extends.
Qed.

Lemma anchored_alloc h o :
  anchored h ->
  (exists fuel b, Cause fuel (h ++ [o]) (Some (length h)) = Ok (Some b)) ->
  anchored (h ++ [o]).
Proof.
  intros Hanch Hnew a o' Hlookup.
  destruct (lookup_alloc _ _ _ _ Hlookup) as [Hold | [-> ->]].
  - by eapply anchored_extends; [| apply extends_alloc | |].
  - by right.
Qed.

Lemma Cause_alloc_capture fuel h o cs :
  Callers o = Some cs -> cs ≠ [] ->
  Cause (S fuel) (h ++ [o]) (Some (length h)) = Ok (Some (length h)).
Proof.
  intros HCallers Hcs. eapply Cause_anchor; [| done |].
  - rewrite lookup_app_r by lia. by rewrite Nat.sub_diag.
  - destruct cs; [done | cbn; lia].
Qed.

Lemma Cause_alloc_wrapError fuel h info e b :
  Cause fuel h e = Ok (Some b) ->
  Cause (S fuel) (h ++ [wrapError info e]) (Some (length h)) = Ok (Some b).
Proof.
  intros HCause. rewrite (Cause_wrapError _ _ _ info e).
  - eapply Cause_extends; [apply extends_alloc | done].
  - rewrite lookup_app_r by lia. by rewrite Nat.sub_diag.
Qed.

(** A constructor call returns nil or the address of an object that has an
    anchor, and keeps the store anchored. *)
(** The four shapes of a merge. *)
Lemma JoinDepth_cases h stack skip errs :
  JoinDepth h stack skip errs = (None, h)
  \/ (exists e,
        JoinDepth h stack skip errs
        = alloc h (rootError (NewCallers stack (skip + 3)) None e))
  \/ (exists a cs es es',
        h !! a = Some (joinError cs es)
        /\ JoinDepth h stack skip errs
           = (Some a, <[a := joinError cs es']> h))
  \/ JoinDepth h stack skip errs
     = alloc h (joinError (NewCallers stack (skip + 3)) (live errs)).
Proof.
  assert (Hrest :
    let r := match asJoin h (errs !! 0%nat) with
             | Some (a, cs, es) =>
               (Some a, <[a := joinError cs (es ++ live (drop 1 errs))]> h)
             | None =>
               alloc h (joinError (NewCallers stack (skip + 3)) (live errs))
             end in
    (exists a cs es es',
        h !! a = Some (joinError cs es)
        /\ r = (Some a, <[a := joinError cs es']> h))
    \/ r = alloc h (joinError (NewCallers stack (skip + 3)) (live errs))).
  { destruct (asJoin h (errs !! 0%nat)) as [[[a cs] es] |] eqn:HasJoin;
      cbn zeta; [left | by right].
    unfold asJoin in HasJoin.
    destruct (errs !! 0%nat) as [[a' |] |]; try done.
    destruct (h !! a') as [o |] eqn:Hlookup; try done.
    destruct o; try done. injection HasJoin as -> -> ->.
    by exists a, cs, es, (es ++ live (drop 1 errs)). }
  unfold JoinDepth.
  destruct (length (live errs) =? 0)%nat; [by left |].
  destruct (length (live errs) =? 1)%nat; [| right; right; exact Hrest].
  destruct (head (live errs)) as [e |]; [| right; right; exact Hrest].
  right. left. by exists e.
Qed.

(** After the allocation of an object that has an anchor, the store is
    anchored and the new address has an anchor. *)
Lemma alloc_anchored h o :
  anchored h ->
  (exists fuel b, Cause fuel (h ++ [o]) (Some (length h)) = Ok (Some b)) ->
  anchored (alloc h o).2
  /\ forall a, (alloc h o).1 = Some a ->
       exists fuel b, Cause fuel (alloc h o).2 (Some a) = Ok (Some b).
Proof.
  intros Hanch Hnew. cbn [alloc fst snd].
  split; [by apply anchored_alloc |]. by intros a [= <-].
Qed.

Lemma alloc_capture_anchored h o cs :
  anchored h -> Callers o = Some cs -> capturesNonEmpty h (h ++ [o]) ->
  anchored (alloc h o).2
  /\ forall a, (alloc h o).1 = Some a ->
       exists fuel b, Cause fuel (alloc h o).2 (Some a) = Ok (Some b).
Proof.
  intros Hanch HCallers Hcap. apply alloc_anchored; [done |].
  exists 1%nat, (length h). eapply Cause_alloc_capture; [done |].
  by eapply Hcap.
Qed.

(** A constructor call returns nil or the address of an object that has an
    anchor, and keeps the store anchored. *)
Lemma constructs_anchored h e h' :
  anchored h -> constructs h e h' -> capturesNonEmpty h h' ->
  anchored h'
  /\ forall a, e = Some a -> exists fuel b, Cause fuel h' (Some a) = Ok (Some b).
Proof.
  intros Hanch Hstep.
  destruct Hstep as [h stack skip fs m args
                    | fuel h stack skip err e h' HWrap
                    | fuel h stack skip err fs m args e h' HWrap
                    | h stack skip errs].
  - intros Hcap. by eapply alloc_capture_anchored.
  - unfold WrapDepth in HWrap.
    destruct (Cause fuel h err) as [[b |] | |] eqn:HCause; try done;
      cbn in HWrap; injection HWrap as <- <-; intros Hcap.
    + apply (alloc_anchored h (wrapError _ err)); [done |].
      exists (S fuel), b. by apply Cause_alloc_wrapError.
    + by eapply (alloc_capture_anchored h (rootError _ None err)).
  - unfold WrapDepths in HWrap.
    destruct (Cause fuel h err) as [[b |] | |] eqn:HCause; try done;
      cbn in HWrap; injection HWrap as <- <-; intros Hcap.
    + apply (alloc_anchored h (wrapError _ err)); [done |].
      exists (S fuel), b. by apply Cause_alloc_wrapError.
    + by eapply (alloc_capture_anchored h (rootError _ _ err)).
  - destruct (JoinDepth_cases h stack skip errs)
      as [-> | [[e ->] | [(a & cs & es & es' & Hlookup & ->) | ->]]];
      intros Hcap.
    + by split.
    + by eapply alloc_capture_anchored.
    + pose proof (extends_join_insert h a cs es es' Hlookup) as Hext.
      cbn [fst snd]. split.
      * intros b o' Hb.
        destruct (h !! b) as [o |] eqn:Hold.
        -- by eapply anchored_extends.
        -- apply lookup_lt_Some in Hb. rewrite length_insert in Hb.
           apply lookup_ge_None in Hold. lia.
      * intros ? [= <-].
        destruct (Hanch a _ Hlookup) as [[] | (fuel & b & HCause)].
        exists fuel, b. by eapply Cause_extends.
    + by eapply alloc_capture_anchored.
Qed.

Lemma built_anchored h : built h -> anchored h.
Proof.
  induction 1 as [h Hforeign | h e h' _ IH Hstep Hcap].
  - intros a o Hlookup. left.
    by eapply (proj1 (Forall_lookup isForeign h)).
  - by eapply constructs_anchored.
Qed.

(** C5 (amended).  In a store built from foreign errors by calls of the
    construction surface alone, every non-nil error returned by one more
    such call has an anchor, provided the full captures taken by all these
    calls are non-empty: with enough fuel [Cause] returns an address that
    holds a root or a join owning a non-empty capture. *)
Theorem constructed_error_has_anchor h e h' a :
  built h ->
  constructs h e h' ->
  capturesNonEmpty h h' ->
  e = Some a ->
  exists fuel b,
    (forall fuel', (fuel <= fuel')%nat -> Cause fuel' h' (Some a) = Ok (Some b))
    /\ anchorAt h' b.
Proof.
  intros Hbuilt Hstep Hcap ->.
  destruct (constructs_anchored h (Some a) h' (built_anchored h Hbuilt) Hstep
              Hcap) as [_ Hret].
  destruct (Hret a eq_refl) as (fuel & b & HCause).
  exists fuel, b. split.
  - intros fuel' Hle. by eapply Cause_mono.
  - by eapply Cause_Some_anchorAt.
Qed.

Lemma constructed_error_has_anchor_witness :
  wrappedRoot
  = Ok (Some 1%nat,
        rootHeap ++ [wrapError (Some (mkAdditionalInformation 200 300 ∅ "mid" []))
                               (Some 0%nat)])
  /\ exists fuel b,
       (forall fuel', (fuel <= fuel')%nat ->
          Cause fuel'
            (rootHeap ++ [wrapError
                            (Some (mkAdditionalInformation 200 300 ∅ "mid" []))
                            (Some 0%nat)])
            (Some 1%nat) = Ok (Some b))
       /\ anchorAt
            (rootHeap ++ [wrapError
                            (Some (mkAdditionalInformation 200 300 ∅ "mid" []))
                            (Some 0%nat)]) b.
Proof.
  split; [reflexivity |].
  apply (constructed_error_has_anchor rootHeap (Some 1%nat) _ 1%nat).
  - apply (built_step [] (Some 0%nat)); [apply built_foreign, Forall_nil_2 | |].
    + apply (constructs_ErrorDepths [] (stackAt [100; 200; 300]) 1 ∅
               "root fail" []).
    + intros o cs [= <-] [= <-]. discriminate.
  - apply (constructs_WrapDepths 1 rootHeap (stackAt [200; 300]) 1 (Some 0%nat)
             ∅ "mid" []).
    reflexivity.
  - intros o cs Heq. apply app_inv_head in Heq. injection Heq as <-.
    discriminate.
  - reflexivity.
Defined.

(** C5 as stated fails for the depth variants: the error above is non-nil
    and returned by a call of the construction surface in the empty store,
    and [Cause] returns nil for it; no amount of fuel makes it return an
    anchor. *)
Lemma ErrorDepth_beyond_stack_has_no_anchor :
  emptyCaptureRoot
  = (Some 0%nat,
     [rootError [] (Some (mkAdditionalInformation 0 0 ∅ "boom" [])) None])
  /\ built []
  /\ constructs [] emptyCaptureRoot.1 emptyCaptureRoot.2
  /\ Cause 2 emptyCaptureRoot.2 emptyCaptureRoot.1 = Ok None
  /\ forall fuel b, Cause fuel emptyCaptureRoot.2 emptyCaptureRoot.1 ≠ Ok (Some b).
Proof.
  split; [reflexivity |].
  split; [apply built_foreign, Forall_nil_2 |].
  split; [apply (constructs_ErrorDepths [] (stackAt [500; 600]) 3 ∅ "boom" []) |].
  split; [reflexivity |].
  intros [| [| fuel]] b; discriminate.
Qed.

(** ** Reconstruction of a merge *)

Section JoinBranching.

Variable CallersFrames : uintptr -> Frame.

#[local] Abbreviation captureWalk := (captureWalk CallersFrames).

Lemma addCallerLocation_fields o l :
  ErrExternal (addCallerLocation o l) = ErrExternal o
  /\ Links (addCallerLocation o l) = Links o
  /\ SubHierarchies (addCallerLocation o l) = SubHierarchies o.
Proof.
  unfold addCallerLocation.
  destruct (last (CallerLocations o)) as [l' |]; [| done].
  by destruct (decide (l' = l)).
Qed.

Lemma captureWalk_fields callers n hierarchy :
  ErrExternal (captureWalk callers n hierarchy) = ErrExternal hierarchy
  /\ Links (captureWalk callers n hierarchy) = Links hierarchy
  /\ SubHierarchies (captureWalk callers n hierarchy)
     = SubHierarchies hierarchy.
Proof.
  revert hierarchy. induction n as [| n IH]; intros hierarchy; [done |].
  cbn [captureWalk]. destruct (callers !! n) as [pc |]; [| done].
  destruct (IH (addCallerLocation hierarchy (getLocation CallersFrames pc)))
    as (-> & -> & ->).
  apply addCallerLocation_fields.
Qed.

Lemma frameWalk_no_cursor fuel h callers n hierarchy :
  (n <= length callers)%nat ->
  frameWalk CallersFrames fuel h callers n hierarchy None
  = Ok (captureWalk callers n hierarchy, None).
Proof.
  revert hierarchy. induction n as [| n IH]; intros hierarchy Hn; [done |].
  cbn [frameWalk captureWalk].
  assert (spliceLoop CallersFrames fuel h callers n hierarchy None
          = Ok (hierarchy, None)) as -> by (by destruct fuel).
  cbn [mbind outcome_bind]. unfold index.
  destruct (lookup_lt_is_Some_2 callers n) as [pc Hpc]; [lia |].
  rewrite Hpc. cbn [mbind outcome_bind]. apply IH. lia.
Qed.

(** X20.  Merging three live errors, the first of which is not a join,
    allocates a join; when its capture has a second entry [floor],
    [Unpack] of the merge reconstructs the three errors in argument order,
    each with that floor, and returns one node whose [SubHierarchies] are
    exactly the three results (no link, no external error, and the
    locations of the join's capture).  It fails exactly as the first
    failing child does. *)
Theorem Unpack_Join_three_branches fuel h stack skip a1 a2 a3 floor :
  asJoin h (Some (Some a1)) = None ->
  NewCallers stack (skip + 3) !! 1%nat = Some floor ->
  let merged := JoinDepth h stack skip [Some a1; Some a2; Some a3] in
  merged = (Some (length h),
            h ++ [joinError (NewCallers stack (skip + 3)) [Some a1; Some a2; Some a3]])
  /\ Unpack CallersFrames (S fuel) merged.2 merged.1
     = (c1 ← unpack CallersFrames fuel merged.2 (Some a1) floor;
        c2 ← unpack CallersFrames fuel merged.2 (Some a2) floor;
        c3 ← unpack CallersFrames fuel merged.2 (Some a3) floor;
        Ok (mkUnpackHierarchy None
              (CallerLocations
                 (captureWalk (NewCallers stack (skip + 3))
                    (length (NewCallers stack (skip + 3))) emptyHierarchy))
              [] [c1; c2; c3])).
Proof.
  intros Hnojoin Hfloor merged.
  assert (Hmerged : merged
            = (Some (length h),
               h ++ [joinError (NewCallers stack (skip + 3))
                       [Some a1; Some a2; Some a3]])).
  { unfold merged.
    rewrite JoinDepth_many by (rewrite !live_cons_Some; cbn; lia).
    cbn [lookup list_lookup]. rewrite Hnojoin.
    by rewrite !live_cons_Some. }
  rewrite Hmerged. cbn [fst snd]. split; [done |].
  set (callers := NewCallers stack (skip + 3)) in *.
  set (h' := h ++ [joinError callers [Some a1; Some a2; Some a3]]) in *.
  assert (Hlookup : h' !! length h
                    = Some (joinError callers [Some a1; Some a2; Some a3])).
  { unfold h'. rewrite lookup_app_r by lia. by rewrite Nat.sub_diag. }
  assert (Hlen : (2 <= length callers)%nat).
  { apply lookup_lt_Some in Hfloor. lia. }
  destruct fuel as [| fuel]; [done |].
  unfold Unpack.
  rewrite (unpack_at_anchor _ _ _ _ _ (length h)
             (joinError callers [Some a1; Some a2; Some a3]) callers);
    [| by eapply Cause_anchor; [done | done | lia] | done | done].
  unfold firstCursor, deref. rewrite Hlookup. cbn [mbind outcome_bind
    GetAdditionalInformation].
  unfold callerStartIndex. cbn [Z.eqb].
  replace (Z.to_nat (Z.of_nat (length callers) - 1 + 1)) with (length callers)
    by lia.
  rewrite frameWalk_no_cursor by done. cbn [mbind outcome_bind].
  unfold unpackChildren. cbn [Unwrap UnwrapAll mapM].
  unfold index. rewrite Hfloor. cbn [mbind outcome_bind].
  destruct (unpack CallersFrames (S fuel) h' (Some a1) floor) as [c1 | |];
    cbn [mbind outcome_bind]; [| done | done].
  destruct (unpack CallersFrames (S fuel) h' (Some a2) floor) as [c2 | |];
    cbn [mbind outcome_bind]; [| done | done].
  destruct (unpack CallersFrames (S fuel) h' (Some a3) floor) as [c3 | |];
    cbn [mbind outcome_bind mret outcome_ret]; [| done | done].
  destruct (captureWalk_fields callers (length callers) emptyHierarchy)
    as (Hext & Hlinks & Hsubs).
  unfold flatten, withSubHierarchies. cbn [SubHierarchies].
  rewrite Hsubs, Hext, Hlinks. reflexivity.
Qed.

End JoinBranching.

Lemma Unpack_Join_three_branches_witness :
  Unpack exampleFrames 3
    (Join threeForeign (stackAt [500; 600; 700])
          [Some 0%nat; Some 1%nat; Some 2%nat]).2
    (Join threeForeign (stackAt [500; 600; 700])
          [Some 0%nat; Some 1%nat; Some 2%nat]).1
  = Ok (mkUnpackHierarchy None
          [mkLocation "main.go" 700 "main.run";
           mkLocation "main.go" 600 "main.run";
           mkLocation "main.go" 500 "main.run"]
          []
          [mkUnpackHierarchy (Some 0%nat) [] [] [];
           mkUnpackHierarchy (Some 1%nat) [] [] [];
           mkUnpackHierarchy (Some 2%nat) [] [] []]).
Proof.
  destruct (Unpack_Join_three_branches exampleFrames 2 threeForeign
              (stackAt [500; 600; 700]) 1 0%nat 1%nat 2%nat 600)
    as [_ HUnpack].
  - reflexivity.
  - reflexivity.
  - etransitivity; [exact HUnpack | reflexivity].
Defined.

(** C7.  [Unpack] does not return one node with three sub-hierarchies on
    the merge of the one-entry root with two foreign errors: the join is
    reconstructed, its first cause is unpacked with the join's second
    capture entry as floor, and there reading [callers[1]] of the root's
    one-entry capture is out of range, as in C1. *)
Theorem Unpack_Join_one_entry_child_panics CallersFrames fuel :
  oneEntryJoin
  = (Some 3%nat,
     [rootError [600] (Some (mkAdditionalInformation 600 0 ∅ "boom" [])) None;
      foreignError "b" NoUnwrap;
      foreignError "c" NoUnwrap;
      joinError [500; 600] [Some 0%nat; Some 1%nat; Some 2%nat]])
  /\ Unpack CallersFrames (S (S (S fuel))) oneEntryJoin.2 oneEntryJoin.1
     = Panic.
Proof. split; reflexivity. Qed.

(** ** Reconstruction of a chain of wraps over one root *)

Lemma nested_tail pc pcs boundaries :
  nested (pc :: pcs) boundaries -> nested pcs boundaries.
Proof.
  intros Hn. remember (pc :: pcs) as l eqn:Hl.
  induction Hn as [| pc' pcs' bs Hn IH | pcs' b bs Hn IH]; [done | |].
  - injection Hl as -> ->. exact Hn.
  - apply nested_skip. by apply IH.
Qed.

Lemma nested_nil_inv pcs : nested pcs [] -> pcs = [].
Proof. by inversion 1. Qed.

Section WrapChain.

Variable CallersFrames : uintptr -> Frame.

#[local] Abbreviation emit := (emit CallersFrames).
#[local] Abbreviation spliceAt := (spliceAt CallersFrames).
#[local] Abbreviation walk := (walk CallersFrames).

Lemma spliceAt_length above hierarchy rem :
  (length (spliceAt above hierarchy rem).2 <= length rem)%nat.
Proof.
  revert hierarchy. induction rem as [| info rem IH]; intros hierarchy;
    [done |].
  cbn [spliceAt]. destruct (above =? callerCaller info); [| done].
  specialize (IH (emit hierarchy info)). cbn [length]. lia.
Qed.

(** The splice loop follows [spliceAt]. *)
Lemma spliceLoop_cursorAt h callers callerIndex above cursor rem :
  cursorAt h cursor rem ->
  callerIndex ≠ (length callers - 1)%nat ->
  callers !! (callerIndex + 1)%nat = Some above ->
  forall hierarchy fuel,
    (length rem + 2 <= fuel)%nat ->
    exists cursor',
      spliceLoop CallersFrames fuel h callers callerIndex hierarchy cursor
      = Ok ((spliceAt above hierarchy rem).1, cursor')
      /\ cursorAt h cursor' (spliceAt above hierarchy rem).2.
Proof.
  intros Hcursor Hindex Habove.
  induction Hcursor as [| a info next rem Hinfo Hnext Hcursor IH];
    intros hierarchy fuel Hfuel.
  - exists None. split; [by destruct fuel | constructor].
  - cbn [length] in Hfuel.
    destruct fuel as [| [| [| fuel]]]; try lia.
    rewrite spliceLoop_unfold, bool_decide_eq_false_2 by done.
    unfold index. rewrite Habove. cbn [mbind outcome_bind].
    rewrite Hinfo. cbn [mbind outcome_bind spliceAt].
    destruct (above =? callerCaller info).
    + rewrite Hnext. cbn [mbind outcome_bind].
      apply IH. lia.
    + exists (Some a). split; [done |]. by econstructor.
Qed.

(** The frame walk follows [walk]. *)
Lemma frameWalk_cursorAt h callers n :
  (n <= length callers)%nat ->
  forall cursor rem hierarchy fuel,
    cursorAt h cursor rem ->
    (length rem + 2 <= fuel)%nat ->
    exists cursor',
      frameWalk CallersFrames fuel h callers n hierarchy cursor
      = Ok ((walk callers n hierarchy rem).1, cursor')
      /\ cursorAt h cursor' (walk callers n hierarchy rem).2.
Proof.
  induction n as [| n IH]; intros Hn cursor rem hierarchy fuel Hcursor Hfuel.
  - by exists cursor.
  - cbn [frameWalk walk].
    destruct (lookup_lt_is_Some_2 callers n) as [pc Hpc]; [lia |].
    rewrite Hpc.
    assert (Hsplice : exists cursor' spliced,
      spliceLoop CallersFrames fuel h callers n hierarchy cursor
      = Ok (spliced.1, cursor')
      /\ cursorAt h cursor' spliced.2
      /\ (length spliced.2 <= length rem)%nat
      /\ spliced
         = (if bool_decide (n = (length callers - 1)%nat)
            then (hierarchy, rem)
            else match callers !! (n + 1)%nat with
                 | Some above => spliceAt above hierarchy rem
                 | None => (hierarchy, rem)
                 end)).
    { case_bool_decide as Hlast.
      - exists cursor, (hierarchy, rem). split; [| by split].
        destruct cursor as [a |]; [| by destruct fuel].
        destruct fuel as [| fuel]; [lia |].
        by rewrite spliceLoop_unfold, bool_decide_eq_true_2.
      - destruct (lookup_lt_is_Some_2 callers (n + 1)) as [above Habove];
          [lia |].
        rewrite Habove.
        destruct (spliceLoop_cursorAt h callers n above cursor rem Hcursor
                    Hlast Habove hierarchy fuel Hfuel)
          as (cursor' & Hloop & Hcursor').
        exists cursor', (spliceAt above hierarchy rem).
        split; [done |]. split; [done |].
        split; [apply spliceAt_length | done]. }
    destruct Hsplice as (cursor' & spliced & -> & Hcursor' & Hlen & <-).
    cbn [mbind outcome_bind]. unfold index. rewrite Hpc.
    cbn [mbind outcome_bind].
    apply IH; [lia | done | lia].
Qed.

End WrapChain.

Section WrapChainLinks.

Variable CallersFrames : uintptr -> Frame.

#[local] Abbreviation linkOf := (linkOf CallersFrames).
#[local] Abbreviation emit := (emit CallersFrames).
#[local] Abbreviation spliceAt := (spliceAt CallersFrames).
#[local] Abbreviation walk := (walk CallersFrames).
#[local] Abbreviation grows := (grows CallersFrames).

Lemma grows_refl hierarchy : grows hierarchy hierarchy [].
Proof. repeat split. cbn. by rewrite app_nil_r. Qed.

Lemma grows_trans h1 h2 h3 c1 c2 :
  grows h1 h2 c1 -> grows h2 h3 c2 -> grows h1 h3 (c1 ++ c2).
Proof.
  intros (Hext1 & Hlinks1 & Hsubs1) (Hext2 & Hlinks2 & Hsubs2).
  repeat split; [congruence | | congruence].
  rewrite Hlinks2, Hlinks1. unfold linked.
  by rewrite filter_app, fmap_app, app_assoc.
Qed.

Lemma grows_addCallerLocation hierarchy l :
  grows hierarchy (addCallerLocation hierarchy l) [].
Proof.
  destruct (addCallerLocation_fields hierarchy l) as (Hext & Hlinks & Hsubs).
  repeat split; [done | | done]. cbn. by rewrite app_nil_r.
Qed.

Lemma grows_emit hierarchy info : grows hierarchy (emit hierarchy info) [info].
Proof.
  unfold emit.
  destruct (addCallerLocation_fields
              (if annotated info then appendLink hierarchy (linkOf info)
               else hierarchy)
              (getLocation CallersFrames (caller info)))
    as (Hext & Hlinks & Hsubs).
  unfold grows, linked. rewrite Hext, Hlinks, Hsubs.
  destruct (annotated info) eqn:Hannotated.
  - rewrite filter_cons_True by done. by rewrite filter_nil.
  - rewrite filter_cons_False by congruence. rewrite filter_nil. cbn.
    by rewrite app_nil_r.
Qed.

Lemma spliceAt_grows above hierarchy rem :
  exists consumed,
    rem = consumed ++ (spliceAt above hierarchy rem).2
    /\ grows hierarchy (spliceAt above hierarchy rem).1 consumed.
Proof.
  revert hierarchy. induction rem as [| info rem IH]; intros hierarchy.
  - exists []. split; [done | apply grows_refl].
  - cbn [spliceAt]. destruct (above =? callerCaller info).
    + destruct (IH (emit hierarchy info)) as (consumed & Hrem & Hgrows).
      exists (info :: consumed). split; [cbn; congruence |].
      apply (grows_trans hierarchy (emit hierarchy info) _ [info] consumed);
        [apply grows_emit | done].
    + exists []. split; [done | apply grows_refl].
Qed.

Lemma walk_grows callers n hierarchy rem :
  exists consumed,
    rem = consumed ++ (walk callers n hierarchy rem).2
    /\ grows hierarchy (walk callers n hierarchy rem).1 consumed.
Proof.
  revert hierarchy rem. induction n as [| n IH]; intros hierarchy rem.
  - exists []. split; [done | apply grows_refl].
  - cbn [walk].
    set (spliced := if bool_decide (n = (length callers - 1)%nat)
                    then (hierarchy, rem)
                    else match callers !! (n + 1)%nat with
                         | Some above => spliceAt above hierarchy rem
                         | None => (hierarchy, rem)
                         end).
    assert (Hspliced : exists consumed,
               rem = consumed ++ spliced.2
               /\ grows hierarchy spliced.1 consumed).
    { unfold spliced. case_bool_decide.
      - exists []. split; [done | apply grows_refl].
      - destruct (callers !! (n + 1)%nat) as [above |].
        + apply spliceAt_grows.
        + exists []. split; [done | apply grows_refl]. }
    destruct Hspliced as (consumed1 & Hrem1 & Hgrows1).
    destruct (callers !! n) as [pc |]; [| by exists consumed1].
    destruct (IH (addCallerLocation spliced.1 (getLocation CallersFrames pc))
                 spliced.2) as (consumed2 & Hrem2 & Hgrows2).
    exists (consumed1 ++ consumed2). split.
    + rewrite <- app_assoc, <- Hrem2. exact Hrem1.
    + apply (grows_trans _ spliced.1); [done |].
      replace consumed2 with ([] ++ consumed2) by done.
      apply (grows_trans _ (addCallerLocation spliced.1
                              (getLocation CallersFrames pc)));
        [apply grows_addCallerLocation | done].
Qed.

(** Meeting a boundary consumes every annotation nested at it. *)
Lemma spliceAt_nested above boundaries hierarchy rem :
  nested (callerCaller <$> rem) (above :: boundaries) ->
  nested (callerCaller <$> (spliceAt above hierarchy rem).2) boundaries.
Proof.
  revert hierarchy. induction rem as [| info rem IH]; intros hierarchy Hn.
  - constructor.
  - cbn [spliceAt]. destruct (Z.eqb_spec above (callerCaller info)) as [Heq | Hne].
    + apply IH. rewrite fmap_cons in Hn.
      inversion Hn as [| pc pcs bs Hhere | pcs b bs Hskip]; subst.
      * exact Hhere.
      * apply nested_skip. by eapply nested_tail.
    + rewrite fmap_cons in Hn.
      inversion Hn as [| pc pcs bs Hhere | pcs b bs Hskip]; subst; [done |].
      cbn [snd]. by rewrite fmap_cons.
Qed.

Lemma walk_nested callers n hierarchy rem :
  (n < length callers)%nat ->
  nested (callerCaller <$> rem) (rev (take n (drop 1 callers))) ->
  (walk callers n hierarchy rem).2 = [].
Proof.
  revert hierarchy rem. induction n as [| n IH]; intros hierarchy rem Hn Hnested.
  - cbn in Hnested. apply nested_nil_inv in Hnested.
    by apply fmap_nil_inv in Hnested.
  - cbn [walk]. rewrite bool_decide_eq_false_2 by lia.
    destruct (lookup_lt_is_Some_2 callers (n + 1)) as [above Habove]; [lia |].
    destruct (lookup_lt_is_Some_2 callers n) as [pc Hpc]; [lia |].
    rewrite Habove, Hpc. apply IH; [lia |].
    apply (spliceAt_nested above).
    assert (Hdrop : drop 1 callers !! n = Some above).
    { rewrite lookup_drop. by rewrite Nat.add_comm. }
    by rewrite (take_S_r _ _ _ Hdrop), rev_app_distr in Hnested.
Qed.

(** The whole frame walk of a capture delivers every nested annotation. *)
Lemma walk_all_nested callers hierarchy rem :
  (2 <= length callers)%nat ->
  nested (callerCaller <$> rem) (rev (drop 1 callers)) ->
  (walk callers (length callers) hierarchy rem).2 = []
  /\ grows hierarchy (walk callers (length callers) hierarchy rem).1 rem.
Proof.
  intros Hlen Hnested.
  assert (Hrem : (walk callers (length callers) hierarchy rem).2 = []).
  { destruct (length callers) as [| n] eqn:Hn; [lia |].
    cbn [walk]. rewrite bool_decide_eq_true_2 by lia. cbn [fst snd].
    destruct (lookup_lt_is_Some_2 callers n) as [pc Hpc]; [lia |].
    rewrite Hpc. apply walk_nested; [lia |].
    rewrite take_ge; [done |]. rewrite length_drop. lia. }
  split; [done |].
  destruct (walk_grows callers (length callers) hierarchy rem)
    as (consumed & Hsplit & Hgrows).
  rewrite Hrem, app_nil_r in Hsplit. by subst consumed.
Qed.

End WrapChainLinks.

Lemma nested_last pcs boundaries pc :
  nested pcs boundaries -> last boundaries = Some pc ->
  nested (pcs ++ [pc]) boundaries.
Proof.
  intros Hn. induction Hn as [bs | pc' pcs bs Hn IH | pcs b bs Hn IH];
    intros Hlast.
  - induction bs as [| b bs IH]; [done |].
    destruct bs as [| b' bs].
    + injection Hlast as ->. apply nested_here, nested_done.
    + apply nested_skip, IH. exact Hlast.
  - cbn. apply nested_here. by apply IH.
  - destruct bs as [| b' bs].
    + apply nested_nil_inv in Hn as ->. injection Hlast as ->.
      apply nested_here, nested_done.
    + apply nested_skip, IH. exact Hlast.
Qed.

Lemma last_rev {A : Type} (l : list A) : last (rev l) = head l.
Proof. destruct l as [| x l]; [done |]. cbn [rev]. apply last_snoc. Qed.

Lemma nextStackFrameError_firstCursor fuel h a o e :
  h !! a = Some o -> Unwrap o = Some e ->
  nextStackFrameError (S fuel) h (Some a) = firstCursor fuel h e.
Proof.
  intros Hlookup HUnwrap. cbn [nextStackFrameError]. unfold deref.
  rewrite Hlookup. cbn [mbind outcome_bind]. rewrite HUnwrap.
  destruct e as [b |]; [| done]. unfold firstCursor, deref.
  destruct (h !! b) as [o' |]; [| done]. cbn [mbind outcome_bind].
  by destruct (GetAdditionalInformation o') as [[info |] |].
Qed.

Lemma firstCursor_externalCause fuel h c :
  externalCause h c -> firstCursor fuel h c = Ok None.
Proof.
  destruct c as [f |]; [| done]. intros [(text & next & Hlookup) _].
  unfold firstCursor, deref. by rewrite Hlookup.
Qed.

Lemma wrapChain_alloc h o e infos r :
  wrapChain h e infos r -> wrapChain (h ++ [o]) e infos r.
Proof.
  induction 1 as [r | a info e infos r Hlookup _ IH]; [constructor |].
  econstructor; [| exact IH]. by apply lookup_app_l_Some.
Qed.

(** A wrap call over an anchored chain extends the chain by its own
    annotation. *)
Lemma WrapDepths_wrapChain fuel h stack skip e fs m args e' h' infos r b :
  wrapChain h e infos r ->
  Cause fuel h e = Ok (Some b) ->
  WrapDepths fuel h stack skip e fs m args = Ok (e', h') ->
  wrapChain h' e'
    (annotate (NewAdditionalInformation stack (skip + 3)) fs m args :: infos) r.
Proof.
  intros Hchain HCause HWrap. unfold WrapDepths in HWrap.
  rewrite HCause in HWrap. cbn in HWrap. injection HWrap as <- <-.
  econstructor; [| by apply wrapChain_alloc].
  rewrite lookup_app_r by lia. by rewrite Nat.sub_diag.
Qed.

Lemma wrapChain_Cause h e infos r o cs :
  wrapChain h e infos r ->
  h !! r = Some o -> Callers o = Some cs -> (0 < length cs)%nat ->
  forall fuel, (length infos < fuel)%nat -> Cause fuel h e = Ok (Some r).
Proof.
  intros Hchain Hlookup HCallers Hlen.
  induction Hchain as [r | a info e infos r Ha _ IH]; intros fuel Hfuel.
  - destruct fuel as [| fuel]; [lia |]. by eapply Cause_anchor.
  - destruct fuel as [| fuel]; [cbn in Hfuel; lia |].
    rewrite (Cause_wrapError _ _ _ _ _ Ha). apply IH; [done |].
    cbn in Hfuel. lia.
Qed.

Lemma wrapChain_cursor h e infos r cs info0 c :
  wrapChain h e infos r ->
  h !! r = Some (rootError cs info0 c) ->
  externalCause h c ->
  exists cursor,
    (forall fuel, firstCursor (S fuel) h e = Ok cursor)
    /\ cursorAt h cursor (infos ++ option_list info0).
Proof.
  intros Hchain Hroot Hext.
  induction Hchain as [r | a info e infos r Ha _ IH].
  - assert (Hnext : forall fuel,
               nextStackFrameError (S fuel) h (Some r) = Ok None).
    { intros fuel.
      rewrite (nextStackFrameError_firstCursor _ _ _ _ c Hroot) by done.
      by apply firstCursor_externalCause. }
    destruct info0 as [info |]; cbn [app option_list].
    + exists (Some r). split.
      * intros fuel. unfold firstCursor, deref. by rewrite Hroot.
      * econstructor; [| intros fuel; apply Hnext | constructor].
        unfold cursorInformation, deref. by rewrite Hroot.
    + exists None. split; [| constructor].
      intros fuel. unfold firstCursor, deref. rewrite Hroot.
      apply Hnext.
  - destruct (IH Hroot) as (cursor & Hfirst & Hcursor).
    exists (Some a). split.
    + intros fuel. unfold firstCursor, deref. by rewrite Ha.
    + cbn [app]. econstructor; [| | exact Hcursor].
      * unfold cursorInformation, deref. by rewrite Ha.
      * intros fuel.
        rewrite (nextStackFrameError_firstCursor _ _ _ _ e Ha) by done.
        apply Hfirst.
Qed.

(** C6 (amended).  A chain of wraps with annotations [infos], outermost
    first, over a root whose capture [cs] has at least two entries and whose
    own cause is nil or foreign without anchor, unpacks (with enough fuel)
    to a single flat node: no [SubHierarchies], the root's cause as
    [ErrExternal], and as [Links] the links of a leading part [consumed] of
    the annotations (the wraps' and then the root's own), in outer-to-inner
    order, keeping those that carry a message, arguments or fields.  When
    the wraps' [callerCaller] positions are nested in [cs] beyond its first
    entry, walking from the deepest frame inward, and the root's annotation
    comes from its capture, every annotation is consumed: all links
    appear. *)
Theorem Unpack_wrap_chain_flat CallersFrames h e infos r cs info0 c :
  wrapChain h e infos r ->
  h !! r = Some (rootError cs info0 c) ->
  (2 <= length cs)%nat ->
  externalCause h c ->
  exists fuel locs consumed rest,
    infos ++ option_list info0 = consumed ++ rest
    /\ (nested (callerCaller <$> infos) (rev (drop 1 cs)) ->
        (forall info, info0 = Some info -> cs !! 1%nat = Some (callerCaller info)) ->
        rest = [])
    /\ forall fuel', (fuel <= fuel')%nat ->
         Unpack CallersFrames fuel' h e
         = Ok (mkUnpackHierarchy c locs
                 (linkOf CallersFrames <$> linked consumed) []).
Proof.
  intros Hchain Hroot Hlen Hext.
  set (annots := infos ++ option_list info0).
  set (W := walk CallersFrames cs (length cs) emptyHierarchy annots).
  destruct (walk_grows CallersFrames cs (length cs) emptyHierarchy annots)
    as (consumed & Hsplit & (HWext & HWlinks & HWsubs)).
  fold W in Hsplit, HWext, HWlinks, HWsubs.
  assert (HfuelC : exists fuelC, forall fuel,
             (fuelC <= fuel)%nat -> Cause fuel h c = Ok None).
  { destruct c as [f |]; [| by exists 0%nat; intros [| fuel]].
    destruct Hext as [_ [fuelC HCause]]. exists fuelC.
    intros fuel Hle. by eapply Cause_mono. }
  destruct HfuelC as [fuelC HfuelC].
  exists (length infos + length annots + fuelC + 4)%nat, (CallerLocations W.1),
         consumed, W.2.
  split; [done |]. split.
  - intros Hnested Hinfo0. apply walk_all_nested; [done |].
    unfold annots. rewrite fmap_app.
    destruct info0 as [info |]; cbn [option_list fmap list_fmap];
      [| by rewrite app_nil_r].
    apply nested_last; [done |].
    rewrite last_rev, head_lookup, lookup_drop.
    by apply Hinfo0.
  - intros fuel' Hfuel'.
    destruct fuel' as [| [| fuel]]; [lia | lia |].
    destruct (wrapChain_cursor h e infos r cs info0 c Hchain Hroot Hext)
      as (cursor & Hfirst & Hcursor).
    destruct (frameWalk_cursorAt CallersFrames h cs (length cs) (le_n _)
                cursor annots emptyHierarchy (S fuel) Hcursor)
      as (cursor' & Hwalk & _); [lia |].
    destruct (lookup_lt_is_Some_2 cs 1) as [floor Hfloor]; [lia |].
    unfold Unpack.
    rewrite (unpack_at_anchor _ _ _ _ _ r (rootError cs info0 c) cs);
      [| eapply wrapChain_Cause; [done | done | done | lia | lia]
       | done | done].
    rewrite Hfirst. cbn [mbind outcome_bind].
    unfold callerStartIndex. cbn [Z.eqb].
    replace (Z.to_nat (Z.of_nat (length cs) - 1 + 1)) with (length cs) by lia.
    rewrite Hwalk. cbn [mbind outcome_bind].
    unfold unpackChildren. cbn [Unwrap]. unfold index. rewrite Hfloor.
    cbn [mbind outcome_bind].
    rewrite unpack_no_anchor by (apply HfuelC; lia).
    cbn [mbind outcome_bind].
    unfold flatten, withSubHierarchies. cbn [SubHierarchies].
    fold W. rewrite HWsubs. cbn [app emptyHierarchy SubHierarchies
      ErrExternal CallerLocations Links].
    rewrite HWlinks. cbn [emptyHierarchy Links app].
    by rewrite !app_nil_r.
Qed.

(** [chainHeap] is what the constructors build. *)
Example chainHeap_constructed :
  (let r := New [] (stackAt [100; 200; 300; 400]) "root fail" in
   '(w1, h1) ← Wraps 1 r.2 (stackAt [201; 300; 400]) r.1 {["k" := Plain "v"]} "mid" [];
   Wrapf 2 h1 (stackAt [301; 400]) w1 "top" [])
  = Ok (Some 2%nat, chainHeap).
Proof. reflexivity. Qed.

Lemma Unpack_wrap_chain_flat_witness :
  exists fuel locs,
    forall fuel', (fuel <= fuel')%nat ->
      Unpack exampleFrames fuel' chainHeap (Some 2%nat)
      = Ok (mkUnpackHierarchy None locs
              [mkWrapLink "top" [] ∅ (mkLocation "main.go" 301 "main.run");
               mkWrapLink "mid" [] {["k" := Plain "v"]}
                          (mkLocation "main.go" 201 "main.run");
               mkWrapLink "root fail" [] ∅
                          (mkLocation "main.go" 100 "main.run")]
              []).
Proof.
  destruct (Unpack_wrap_chain_flat exampleFrames chainHeap (Some 2%nat)
              [mkAdditionalInformation 301 400 ∅ "top" [];
               mkAdditionalInformation 201 300 {["k" := Plain "v"]} "mid" []]
              0%nat [100; 200; 300; 400]
              (Some (mkAdditionalInformation 100 200 ∅ "root fail" [])) None)
    as (fuel & locs & consumed & rest & Hsplit & Hall & HUnpack).
  - eapply wrapChain_wrap; [reflexivity |].
    eapply wrapChain_wrap; [reflexivity |].
    apply wrapChain_root.
  - reflexivity.
  - cbn. lia.
  - exact I.
  - exists fuel, locs. intros fuel' Hfuel'.
    rewrite (HUnpack fuel' Hfuel').
    assert (Hrest : rest = []).
    { apply Hall.
      - apply nested_here, nested_skip, nested_here, nested_done.
      - intros info [= <-]. reflexivity. }
    rewrite Hrest, app_nil_r in Hsplit. rewrite <- Hsplit. reflexivity.
Defined.

(** C6 as stated fails: the chain above is one wrap call over a single
    root, the wrap carries a message, and the reconstructed hierarchy has no
    link at all.  The wrap's [callerCaller] (900) is not in the root's
    capture, so the cursor never advances: neither the wrap's link nor the
    root's own is emitted. *)
Lemma Unpack_wrap_outside_capture_drops_links :
  (let r := New [] (stackAt [100; 200; 300]) "root fail" in
   Wrapf 1 r.2 (stackAt [800; 900]) r.1 "top" [])
  = Ok (Some 1%nat, sentinelHeap)
  /\ Unpack exampleFrames 3 sentinelHeap (Some 1%nat)
     = Ok (mkUnpackHierarchy None
             [mkLocation "main.go" 300 "main.run";
              mkLocation "main.go" 200 "main.run";
              mkLocation "main.go" 100 "main.run"]
             [] []).
Proof. split; reflexivity. Qed.

(** ** Rendering without trace *)

Lemma append_nil_r (s : string) : s +:+ "" = s.
Proof.
  induction s as [| c s IH]; [done |].
  change (String c (s +:+ "") = String c s). by f_equal.
Qed.

Lemma append_assoc (s1 s2 s3 : string) : (s1 +:+ s2) +:+ s3 = s1 +:+ s2 +:+ s3.
Proof.
  induction s1 as [| c s1 IH]; [done |].
  change (String c ((s1 +:+ s2) +:+ s3) = String c (s1 +:+ s2 +:+ s3)).
  by f_equal.
Qed.

Lemma Repeat_empty n : Repeat "" n = "".
Proof. by induction n. Qed.

(** Induction on hierarchies, with the property available for every
    sub-hierarchy. *)
Lemma UnpackHierarchy_nested_ind (P : UnpackHierarchy -> Prop) :
  (forall ext locs links subs,
      Forall P subs -> P (mkUnpackHierarchy ext locs links subs)) ->
  forall hierarchy, P hierarchy.
Proof.
  intros Hstep. fix IH 1. intros [ext locs links subs]. apply Hstep.
  induction subs as [| sub subs IHsubs]; constructor; [apply IH | exact IHsubs].
Qed.

Lemma mapM_fmap {A B C : Type} (f : B -> outcome C) (g : A -> B) l :
  mapM f (g <$> l) = mapM (fun x => f (g x)) l.
Proof.
  induction l as [| x l IH]; [done |].
  rewrite fmap_cons. cbn [mapM]. by rewrite IH.
Qed.

Lemma mapM_ext_Forall {A B : Type} (f g : A -> outcome B) l :
  Forall (fun x => f x = g x) l -> mapM f l = mapM g l.
Proof.
  induction 1 as [| x l Hx _ IH]; [done |]. cbn [mapM]. by rewrite Hx, IH.
Qed.

Section PlainText.

Variable Sprintf : string -> list value -> fmtCall.
Variable SprintFields : gmap string value -> fmtCall.
Variable SprintError : heap -> addr -> string.
Variable FormatPanic : rune -> string.
Variable FormatMethod : addr -> rune -> bool -> outcome string.

#[local] Abbreviation linkText :=
  (linkText Sprintf SprintFields FormatPanic FormatMethod).
#[local] Abbreviation plainText :=
  (plainText Sprintf SprintFields SprintError FormatPanic FormatMethod).
#[local] Abbreviation plainFormat := (plainFormat SprintFields).

Lemma linkLoop_plain locationFormatFunc level locs links :
  forall str stackIndex,
    linkLoop Sprintf FormatPanic FormatMethod (plainFormat locationFormatFunc)
             level locs links str stackIndex
    = (texts ← mapM (linkText ": ") links;
       Ok (str +:+ concatStrings texts, stackIndex)).
Proof.
  induction links as [| link links IH]; intros str stackIndex.
  - cbn. by rewrite append_nil_r.
  - cbn [linkLoop plainFormat NewDefaultStringFormat WithTrace Options
         mbind outcome_bind PreStackSep ErrorSep FieldFormatFunc mapM].
    unfold DefaultFieldFormat.
    assert (Hlink : linkText ": " link
      = (message ←
           runFmt FormatPanic FormatMethod (Sprintf (Msg link) (MsgArgs link));
         dump ←
           (if (size (Fields link) =? 0)%nat then Ok ""
            else runFmt FormatPanic FormatMethod (SprintFields (Fields link)));
         Ok (message +:+ dump +:+ ": "))) by reflexivity.
    rewrite Hlink. clear Hlink.
    destruct (runFmt FormatPanic FormatMethod
                (Sprintf (Msg link) (MsgArgs link))) as [message | |];
      cbn [mbind outcome_bind]; [| done | done].
    destruct (size (Fields link) =? 0)%nat; cbn [negb mbind outcome_bind].
    + rewrite IH.
      destruct (mapM (linkText ": ") links) as [texts | |];
        cbn [mbind outcome_bind concatStrings foldr]; [| done | done].
      by rewrite !append_assoc.
    + destruct (runFmt FormatPanic FormatMethod (SprintFields (Fields link)))
        as [dump | |]; cbn [mbind outcome_bind]; [| done | done].
      rewrite IH, Repeat_empty.
      destruct (mapM (linkText ": ") links) as [texts | |];
        cbn [mbind outcome_bind concatStrings foldr]; [| done | done].
      by rewrite !append_assoc.
Qed.

Lemma toCustomString_plain h locationFormatFunc hierarchy :
  forall level,
    toCustomString Sprintf SprintError FormatPanic FormatMethod h hierarchy
      (plainFormat locationFormatFunc) level
    = plainText h ": " hierarchy.
Proof.
  induction hierarchy as [ext locs links subs IH]
    using UnpackHierarchy_nested_ind.
  intros level. cbn [toCustomString plainText].
  rewrite linkLoop_plain.
  change (WithTrace (Options (plainFormat locationFormatFunc))) with false.
  change (PreStackSep (plainFormat locationFormatFunc)) with "".
  change (ErrorSep (plainFormat locationFormatFunc)) with ": ".
  destruct (mapM (linkText ": ") links) as [texts | |];
    cbn [mbind outcome_bind]; [| done | done].
  rewrite Repeat_empty.
  match goal with
  | |- _ ≫= (fun str => ?loop subs 0%nat str) = _ =>
    assert (Hloop : forall i str,
      loop subs i str
      = mapM (plainText h ": ") subs
        ≫= (fun below => Ok (str +:+ concatStrings below)))
  end.
  { induction IH as [| sub subs Hsub _ IHsubs]; intros i str.
    - cbn. by rewrite append_nil_r.
    - cbn beta iota. cbn [mapM]. rewrite Hsub.
      destruct (plainText h ": " sub) as [s | |];
        cbn [mbind outcome_bind]; [| done | done].
      rewrite IHsubs.
      destruct (mapM (plainText h ": ") subs) as [ss | |];
        cbn [mbind outcome_bind concatStrings foldr]; [| done | done].
      by rewrite append_assoc. }
  destruct ext as [a |].
  - destruct (Sprint FormatPanic SprintError FormatMethod h a) as [text | |];
      cbn [mbind outcome_bind]; [| done | done].
    rewrite Hloop.
    destruct (mapM (plainText h ": ") subs) as [ss | |];
      cbn [mbind outcome_bind]; [| done | done].
    change ("" +:+ concatStrings texts) with (concatStrings texts).
    change ("" +:+ text +:+ ": ") with (text +:+ ": ").
    by rewrite !append_assoc.
  - cbn [mbind outcome_bind]. rewrite Hloop.
    by destruct (mapM (plainText h ": ") subs) as [ss | |].
Qed.

Lemma plainText_eraseLocations h sep hierarchy :
  plainText h sep (eraseLocations hierarchy) = plainText h sep hierarchy.
Proof.
  induction hierarchy as [ext locs links subs IH]
    using UnpackHierarchy_nested_ind.
  cbn [eraseLocations plainText].
  change (map eraseLocations subs) with (eraseLocations <$> subs).
  rewrite !mapM_fmap.
  rewrite (mapM_ext_Forall (fun x => linkText sep (eraseLink x))
             (linkText sep) links)
    by (apply Forall_forall; done).
  by rewrite (mapM_ext_Forall (fun x => plainText h sep (eraseLocations x))
                (plainText h sep) subs).
Qed.

End PlainText.

(** *** Invariants of the frame walk *)

Lemma mapM_Forall {A B : Type} (P : B -> Prop) (f : A -> outcome B) l ys :
  (forall x y, f x = Ok y -> P y) ->
  mapM f l = Ok ys -> Forall P ys.
Proof.
  intros Hf. revert ys. induction l as [| x l IH]; intros ys HmapM.
  - injection HmapM as <-. constructor.
  - cbn [mapM] in HmapM. destruct (f x) as [y | |] eqn:Hfx; try done.
    cbn [mbind outcome_bind] in HmapM.
    destruct (mapM f l) as [ys' | |]; try done.
    cbn [mbind outcome_bind] in HmapM. injection HmapM as <-.
    constructor; [by eapply Hf | by apply IH].
Qed.

Section WalkStoreInvariant.

Variable CallersFrames : uintptr -> Frame.
Variable h : heap.

(** A property of hierarchies that adding a location, and appending the
    link of an annotation of the store and then adding its location,
    keep. *)
Variable P : UnpackHierarchy -> Prop.
Hypothesis P_addCallerLocation : forall o l, P o -> P (addCallerLocation o l).
Hypothesis P_emit :
  forall o a info l,
    cursorInformation h a = Ok info ->
    P o ->
    P (addCallerLocation
         (appendLink o (mkWrapLink (msg info) (msgArgs info) (fields info) l))
         l).

Lemma spliceLoop_store_invariant fuel callers callerIndex :
  forall hierarchy cursor hierarchy' cursor',
    spliceLoop CallersFrames fuel h callers callerIndex hierarchy cursor
    = Ok (hierarchy', cursor') ->
    P hierarchy -> P hierarchy'.
Proof.
  induction fuel as [| fuel IH];
    intros hierarchy [a |] hierarchy' cursor' Hloop HP.
  - cbn [spliceLoop] in Hloop. case_bool_decide; [by injection Hloop as <- _ |].
    destruct (index callers (callerIndex + 1)) as [above | |]; try done.
    cbn [mbind outcome_bind] in Hloop.
    destruct (cursorInformation h a) as [info | |]; try done.
    cbn [mbind outcome_bind] in Hloop.
    destruct (above =? callerCaller info); [done |].
    by injection Hloop as <- _.
  - by injection Hloop as <- _.
  - rewrite spliceLoop_unfold in Hloop.
    case_bool_decide; [by injection Hloop as <- _ |].
    destruct (index callers (callerIndex + 1)) as [above | |]; try done.
    cbn [mbind outcome_bind] in Hloop.
    destruct (cursorInformation h a) as [info | |] eqn:Hinfo; try done.
    cbn [mbind outcome_bind] in Hloop.
    destruct (above =? callerCaller info); [| by injection Hloop as <- _].
    destruct (nextStackFrameError fuel h (Some a)) as [next | |]; try done.
    cbn [mbind outcome_bind] in Hloop.
    eapply IH; [exact Hloop |].
    destruct (annotated info); [| by apply P_addCallerLocation].
    by apply (P_emit hierarchy a info).
  - by injection Hloop as <- _.
Qed.

Lemma frameWalk_store_invariant fuel callers n :
  forall hierarchy cursor hierarchy' cursor',
    frameWalk CallersFrames fuel h callers n hierarchy cursor
    = Ok (hierarchy', cursor') ->
    P hierarchy -> P hierarchy'.
Proof.
  induction n as [| n IH]; intros hierarchy cursor hierarchy' cursor' Hwalk HP.
  - by injection Hwalk as <- _.
  - cbn [frameWalk] in Hwalk.
    destruct (spliceLoop CallersFrames fuel h callers n hierarchy cursor)
      as [[hierarchy1 cursor1] | |] eqn:Hloop; try done.
    cbn [mbind outcome_bind] in Hwalk.
    destruct (index callers n) as [pc | |]; try done.
    cbn [mbind outcome_bind] in Hwalk.
    eapply IH; [exact Hwalk |].
    apply P_addCallerLocation. by eapply spliceLoop_store_invariant.
Qed.

End WalkStoreInvariant.

Section WalkInvariant.

Variable CallersFrames : uintptr -> Frame.

(** A property of hierarchies that adding a location, and appending a link
    and then adding its location, keep. *)
Variable P : UnpackHierarchy -> Prop.
Hypothesis P_addCallerLocation : forall o l, P o -> P (addCallerLocation o l).
Hypothesis P_emit :
  forall o link,
    P o -> P (addCallerLocation (appendLink o link) (CallerLocation link)).

Lemma spliceLoop_invariant fuel h callers callerIndex :
  forall hierarchy cursor hierarchy' cursor',
    spliceLoop CallersFrames fuel h callers callerIndex hierarchy cursor
    = Ok (hierarchy', cursor') ->
    P hierarchy -> P hierarchy'.
Proof.
  apply spliceLoop_store_invariant; [done |].
  intros o a info l _.
  apply (P_emit o (mkWrapLink (msg info) (msgArgs info) (fields info) l)).
Qed.

Lemma frameWalk_invariant fuel h callers n :
  forall hierarchy cursor hierarchy' cursor',
    frameWalk CallersFrames fuel h callers n hierarchy cursor
    = Ok (hierarchy', cursor') ->
    P hierarchy -> P hierarchy'.
Proof.
  apply frameWalk_store_invariant; [done |].
  intros o a info l _.
  apply (P_emit o (mkWrapLink (msg info) (msgArgs info) (fields info) l)).
Qed.

End WalkInvariant.

(** Every link of a reconstructed hierarchy carries the message, arguments
    and fields of an annotation of the store. *)
Lemma unpack_allLinks CallersFrames h (Q : WrapLink -> Prop) :
  (forall a info l,
     cursorInformation h a = Ok info ->
     Q (mkWrapLink (msg info) (msgArgs info) (fields info) l)) ->
  forall fuel err parentPC hierarchy,
    unpack CallersFrames fuel h err parentPC = Ok hierarchy ->
    allLinks Q hierarchy.
Proof.
  intros HQ.
  induction fuel as [| fuel IH]; intros err parentPC hierarchy Hunpack;
    [done |].
  cbn [unpack] in Hunpack.
  destruct (Cause fuel h err) as [[a |] | |]; try done;
    cbn [mbind outcome_bind] in Hunpack.
  2:{ injection Hunpack as <-. constructor; constructor. }
  destruct (deref h a) as [o | |]; try done.
  cbn [mbind outcome_bind] in Hunpack.
  destruct (Callers o) as [callers |]; try done.
  cbn [mbind outcome_bind] in Hunpack.
  destruct (firstCursor fuel h err) as [cursor | |]; try done.
  cbn [mbind outcome_bind] in Hunpack.
  destruct (frameWalk _ _ _ _ _ _ _) as [[hierarchy0 cursor'] | |] eqn:Hwalk;
    try done.
  cbn [mbind outcome_bind] in Hunpack.
  destruct (unpackChildren _ _ _) as [subs | |] eqn:Hchildren; try done.
  cbn [mbind outcome_bind] in Hunpack. injection Hunpack as <-.
  assert (Hkept : Forall Q (Links hierarchy0)
                  /\ SubHierarchies hierarchy0 = []).
  { eapply (frameWalk_store_invariant CallersFrames h
              (fun o => Forall Q (Links o) /\ SubHierarchies o = []));
      [| | exact Hwalk | split; [constructor | done]].
    - intros x l [Hlinks Hsubs].
      by destruct (addCallerLocation_fields x l) as (_ & -> & ->).
    - intros x b info l Hinfo [Hlinks Hsubs].
      destruct (addCallerLocation_fields
                  (appendLink x (mkWrapLink (msg info) (msgArgs info)
                                            (fields info) l)) l)
        as (_ & -> & ->).
      split; [| done]. cbn [appendLink Links]. apply Forall_app. split; [done |].
      constructor; [by eapply HQ | constructor]. }
  destruct Hkept as [Hlinks Hnone].
  assert (Hsubs : Forall (allLinks Q) subs).
  { unfold unpackChildren in Hchildren.
    destruct (Unwrap o) as [e |].
    - destruct (index callers 1) as [floor | |]; try done.
      cbn [mbind outcome_bind] in Hchildren.
      destruct (unpack CallersFrames fuel h e floor) as [sub | |] eqn:Hsub;
        try done.
      cbn [mbind outcome_bind] in Hchildren. injection Hchildren as <-.
      constructor; [by eapply IH | constructor].
    - destruct (UnwrapAll o) as [es |];
        [| injection Hchildren as <-; constructor].
      eapply mapM_Forall; [| exact Hchildren].
      intros e sub Hsub. cbn beta in Hsub.
      destruct (index callers 1) as [floor | |]; try done.
      cbn [mbind outcome_bind] in Hsub. by eapply IH. }
  destruct hierarchy0 as [ext0 locs0 links0 subs0].
  cbn [Links SubHierarchies] in Hlinks, Hnone. subst subs0.
  unfold flatten, withSubHierarchies. cbn [SubHierarchies app].
  destruct subs as [| sub [| sub2 subs]].
  - by constructor.
  - apply Forall_inv in Hsubs.
    destruct Hsubs as [ext' locs' links' subs' Hlinks' Hsubs'].
    cbn. constructor; [by apply Forall_app | done].
  - by constructor.
Qed.

(** *** The reconstruction up to locations does not depend on the symbol table *)

Lemma agree_bind {A B : Type} (R : A -> A -> Prop) (Q : B -> B -> Prop)
    (m1 m2 : outcome A) (f g : A -> outcome B) :
  agree R m1 m2 ->
  (forall a b, R a b -> agree Q (f a) (g b)) ->
  agree Q (m1 ≫= f) (m2 ≫= g).
Proof. destruct m1, m2; cbn; try done. intros HR Hfg. by apply Hfg. Qed.

Lemma agree_eq_refl {A : Type} (m : outcome A) : agree eq m m.
Proof. by destruct m. Qed.

Lemma agree_mapM {A B : Type} (Q : B -> B -> Prop) (f g : A -> outcome B) l :
  (forall x, agree Q (f x) (g x)) ->
  agree (Forall2 Q) (mapM f l) (mapM g l).
Proof.
  intros Hfg. induction l as [| x l IH]; cbn [mapM]; [constructor |].
  eapply agree_bind; [apply Hfg |]. intros y1 y2 Hy.
  eapply agree_bind; [apply IH |]. intros ys1 ys2 Hys. by constructor.
Qed.

Lemma eraseLocations_addCallerLocation o l :
  eraseLocations (addCallerLocation o l) = eraseLocations o.
Proof.
  destruct o as [ext locs links subs]. unfold addCallerLocation.
  cbn [CallerLocations]. destruct (last locs) as [l' |]; [| done].
  by destruct (decide (l' = l)).
Qed.

Lemma eraseLocations_appendLink o l :
  eraseLocations (appendLink o l) = appendLink (eraseLocations o) (eraseLink l).
Proof.
  destruct o as [ext locs links subs]. unfold appendLink. cbn.
  by rewrite fmap_app.
Qed.

Lemma eraseLocations_withSubHierarchies o subs :
  eraseLocations (withSubHierarchies o subs)
  = withSubHierarchies (eraseLocations o) (map eraseLocations subs).
Proof.
  destruct o as [ext locs links subs0]. unfold withSubHierarchies. cbn.
  by rewrite map_app.
Qed.

Lemma eraseLocations_flatten o :
  eraseLocations (flatten o) = flatten (eraseLocations o).
Proof.
  destruct o as [ext locs links [| [ext' locs' links' subs'] [| sub2 subs]]];
    try done.
  unfold flatten. cbn. by rewrite fmap_app.
Qed.

Lemma sameText_subs subs1 subs2 :
  Forall2 sameText subs1 subs2 ->
  map eraseLocations subs1 = map eraseLocations subs2.
Proof.
  induction 1 as [| x y xs ys Hxy _ IH]; [done |]. cbn. by rewrite Hxy, IH.
Qed.

Section SymbolTableIndependence.

Variables CallersFrames1 CallersFrames2 : uintptr -> Frame.

Lemma spliceLoop_sameText fuel h callers callerIndex cursor :
  forall hierarchy1 hierarchy2,
    sameText hierarchy1 hierarchy2 ->
    agree sameWalk
      (spliceLoop CallersFrames1 fuel h callers callerIndex hierarchy1 cursor)
      (spliceLoop CallersFrames2 fuel h callers callerIndex hierarchy2 cursor).
Proof.
  revert cursor. induction fuel as [| fuel IH];
    intros [a |] hierarchy1 hierarchy2 Hsame; try (by split).
  - cbn [spliceLoop]. case_bool_decide; [by split |].
    eapply agree_bind; [apply agree_eq_refl |]. intros above ? <-.
    eapply agree_bind; [apply agree_eq_refl |]. intros info ? <-.
    destruct (above =? callerCaller info); [done | by split].
  - rewrite !spliceLoop_unfold. case_bool_decide; [by split |].
    eapply agree_bind; [apply agree_eq_refl |]. intros above ? <-.
    eapply agree_bind; [apply agree_eq_refl |]. intros info ? <-.
    destruct (above =? callerCaller info); [| by split].
    eapply agree_bind; [apply agree_eq_refl |]. intros next ? <-.
    apply IH. unfold sameText.
    rewrite !eraseLocations_addCallerLocation.
    destruct (annotated info); [| done].
    rewrite !eraseLocations_appendLink. by rewrite Hsame.
Qed.

Lemma frameWalk_sameText fuel h callers n :
  forall hierarchy1 hierarchy2 cursor,
    sameText hierarchy1 hierarchy2 ->
    agree sameWalk
      (frameWalk CallersFrames1 fuel h callers n hierarchy1 cursor)
      (frameWalk CallersFrames2 fuel h callers n hierarchy2 cursor).
Proof.
  induction n as [| n IH]; intros hierarchy1 hierarchy2 cursor Hsame;
    [by split |].
  cbn [frameWalk].
  eapply agree_bind; [by apply spliceLoop_sameText |].
  intros [x1 c1] [x2 c2] [Hx Hc]. cbn in Hx, Hc. subst c2.
  eapply agree_bind; [apply agree_eq_refl |]. intros pc ? <-.
  apply IH. unfold sameText. by rewrite !eraseLocations_addCallerLocation.
Qed.

Lemma unpack_sameText fuel h :
  forall err parentPC,
    agree sameText (unpack CallersFrames1 fuel h err parentPC)
                   (unpack CallersFrames2 fuel h err parentPC).
Proof.
  induction fuel as [| fuel IH]; intros err parentPC; [done |].
  cbn [unpack].
  eapply agree_bind; [apply agree_eq_refl |]. intros [a |] ? <-; [| done].
  eapply agree_bind; [apply agree_eq_refl |]. intros o ? <-.
  eapply agree_bind; [apply agree_eq_refl |]. intros callers ? <-.
  eapply agree_bind; [apply agree_eq_refl |]. intros cursor ? <-.
  eapply agree_bind; [by apply frameWalk_sameText |].
  intros [x1 c1] [x2 c2] [Hx _]. cbn in Hx.
  eapply (agree_bind (Forall2 sameText)).
  - unfold unpackChildren. destruct (Unwrap o) as [e |].
    + eapply agree_bind; [apply agree_eq_refl |]. intros floor ? <-.
      eapply agree_bind; [apply IH |]. intros s1 s2 Hs.
      by repeat constructor.
    + destruct (UnwrapAll o) as [es |]; [| constructor].
      apply agree_mapM. intros e.
      eapply agree_bind; [apply agree_eq_refl |]. intros floor ? <-.
      apply IH.
  - intros subs1 subs2 Hsubs. cbn [agree]. unfold sameText.
    rewrite !eraseLocations_flatten, !eraseLocations_withSubHierarchies.
    by rewrite Hx, (sameText_subs _ _ Hsubs).
Qed.

End SymbolTableIndependence.

Section RenderingWithoutTrace.

Variable Sprintf : string -> list value -> fmtCall.
Variable SprintFields : gmap string value -> fmtCall.
Variable SprintError : heap -> addr -> string.
Variable FormatPanic : rune -> string.

#[local] Abbreviation plainText :=
  (plainText Sprintf SprintFields SprintError FormatPanic).
#[local] Abbreviation Format :=
  (Format Sprintf SprintFields SprintError FormatPanic).

(** A call of [fmt] gives the same text under two [Format] methods that
    agree on the calls it makes. *)
Lemma runFmt_ext (FormatMethod1 FormatMethod2 : addr -> rune -> bool -> outcome string) c :
  Forall (fun call : addr * rune * bool =>
            FormatMethod1 call.1.1 call.1.2 call.2
            = FormatMethod2 call.1.1 call.1.2 call.2) (formats c) ->
  runFmt FormatPanic FormatMethod1 c = runFmt FormatPanic FormatMethod2 c.
Proof.
  intros Hcalls. unfold runFmt.
  rewrite (mapM_ext_Forall _
             (fun call : addr * rune * bool =>
                recovered FormatPanic call.1.2
                  (FormatMethod2 call.1.1 call.1.2 call.2))); [done |].
  eapply Forall_impl; [exact Hcalls |]. by intros call ->.
Qed.

Section TwoMethods.

Variables FormatMethod1 FormatMethod2 : addr -> rune -> bool -> outcome string.
Hypothesis plain_agree :
  forall a verb plus,
    plainCall (a, verb, plus) ->
    FormatMethod1 a verb plus = FormatMethod2 a verb plus.

Lemma runFmt_plain c :
  Forall plainCall (formats c) ->
  runFmt FormatPanic FormatMethod1 c = runFmt FormatPanic FormatMethod2 c.
Proof.
  intros Hplain. apply runFmt_ext.
  eapply Forall_impl; [exact Hplain |].
  intros [[a verb] plus] Hcall. by apply plain_agree.
Qed.

Lemma Sprint_plain h a :
  Sprint FormatPanic SprintError FormatMethod1 h a
  = Sprint FormatPanic SprintError FormatMethod2 h a.
Proof. unfold Sprint. by rewrite (plain_agree a 118 false). Qed.

Lemma linkText_plain sep link :
  plainLink Sprintf SprintFields link ->
  linkText Sprintf SprintFields FormatPanic FormatMethod1 sep link
  = linkText Sprintf SprintFields FormatPanic FormatMethod2 sep link.
Proof.
  intros [Hmessage Hfields]. unfold linkText.
  by rewrite (runFmt_plain _ Hmessage), (runFmt_plain _ Hfields).
Qed.

Lemma plainText_plain h sep hierarchy :
  allLinks (plainLink Sprintf SprintFields) hierarchy ->
  plainText FormatMethod1 h sep hierarchy
  = plainText FormatMethod2 h sep hierarchy.
Proof.
  induction hierarchy as [ext locs links subs IH]
    using UnpackHierarchy_nested_ind.
  intros Hall. inversion Hall as [? ? ? ? Hlinks Hsubs]; subst.
  cbn [plainText].
  rewrite (mapM_ext_Forall
             (linkText Sprintf SprintFields FormatPanic FormatMethod1 sep)
             (linkText Sprintf SprintFields FormatPanic FormatMethod2 sep)).
  2:{ eapply Forall_impl; [exact Hlinks |]. intros link.
      apply linkText_plain. }
  destruct (mapM _ links) as [texts | |]; cbn [mbind outcome_bind];
    [| done | done].
  assert (Hext :
    match ext with
    | Some a =>
      Sprint FormatPanic SprintError FormatMethod1 h a
      ≫= (fun text => Ok (text +:+ sep))
    | None => Ok ""
    end
    = match ext with
      | Some a =>
        Sprint FormatPanic SprintError FormatMethod2 h a
        ≫= (fun text => Ok (text +:+ sep))
      | None => Ok ""
      end).
  { destruct ext as [a |]; [| done]. by rewrite Sprint_plain. }
  rewrite Hext. clear Hext.
  destruct (match ext with Some a => _ | None => _ end) as [e | |];
    cbn [mbind outcome_bind]; [| done | done].
  rewrite (mapM_ext_Forall (plainText FormatMethod1 h sep)
             (plainText FormatMethod2 h sep) subs); [done |].
  clear Hall. induction IH as [| sub subs Hsub _ IHsubs]; [constructor |].
  apply Forall_cons in Hsubs as [Hsub' Hsubs'].
  constructor; [by apply Hsub | by apply IHsubs].
Qed.

End TwoMethods.

Lemma ToCustomString_plain CallersFrames FormatMethod fuel h err
    locationFormatFunc :
  ToCustomString Sprintf SprintError FormatPanic CallersFrames FormatMethod
    fuel h err (plainFormat SprintFields locationFormatFunc)
  = (hierarchy ← Unpack CallersFrames fuel h err;
     plainText FormatMethod h ": " hierarchy).
Proof.
  unfold ToCustomString, Unpack.
  destruct (unpack CallersFrames fuel h err 0) as [hierarchy | |];
    [| done | done].
  cbn [mbind outcome_bind]. apply toCustomString_plain.
Qed.

Lemma plainStore_allLinks CallersFrames h fuel err parentPC hierarchy :
  plainStore Sprintf SprintFields h ->
  unpack CallersFrames fuel h err parentPC = Ok hierarchy ->
  allLinks (plainLink Sprintf SprintFields) hierarchy.
Proof.
  intros Hstore. apply unpack_allLinks.
  intros a info l Hinfo. by apply (Hstore a info).
Qed.

(** Without trace, the text does not depend on the symbol table when the
    [Format] methods called back agree on every call that asks for no
    trace. *)
Lemma plainText_independent CallersFrames1 CallersFrames2
    FormatMethod1 FormatMethod2 fuel h err :
  plainStore Sprintf SprintFields h ->
  (forall a verb plus,
     plainCall (a, verb, plus) ->
     FormatMethod1 a verb plus = FormatMethod2 a verb plus) ->
  (hierarchy ← Unpack CallersFrames1 fuel h err;
   plainText FormatMethod1 h ": " hierarchy)
  = (hierarchy ← Unpack CallersFrames2 fuel h err;
     plainText FormatMethod2 h ": " hierarchy).
Proof.
  intros Hstore Hagree. unfold Unpack.
  pose proof (unpack_sameText CallersFrames1 CallersFrames2 fuel h err 0)
    as Hsame.
  destruct (unpack CallersFrames1 fuel h err 0) as [x | |] eqn:Hx,
           (unpack CallersFrames2 fuel h err 0) as [y | |] eqn:Hy;
    cbn in Hsame; try done.
  cbn [mbind outcome_bind].
  rewrite <- (plainText_eraseLocations _ _ _ _ _ h ": " x), Hsame.
  rewrite plainText_eraseLocations.
  apply plainText_plain; [done |]. by eapply plainStore_allLinks.
Qed.

Lemma Format_plain CallersFrames1 CallersFrames2 h :
  plainStore Sprintf SprintFields h ->
  forall fuel a verb plus,
    plainCall (a, verb, plus) ->
    Format CallersFrames1 fuel h a verb plus
    = Format CallersFrames2 fuel h a verb plus.
Proof.
  intros Hstore. induction fuel as [| fuel IH]; intros a verb plus Hcall;
    [done |].
  cbn [Format]. unfold printError.
  unfold plainCall in Hcall. cbn [fst snd] in Hcall. rewrite Hcall.
  unfold ToString.
  change (NewDefaultStringFormat SprintFields
            (mkFormatOptions DefaultLocationFormatFunc false))
    with (plainFormat SprintFields DefaultLocationFormatFunc).
  rewrite !ToCustomString_plain. by apply plainText_independent.
Qed.


End RenderingWithoutTrace.

Lemma chainHeap_plainStore : plainStore exampleSprintf exampleSprintFields chainHeap.
Proof.
  intros [| [| [| a]]] info Hinfo; vm_compute in Hinfo; simplify_eq;
    split; constructor.
Qed.


(** The rendering of [chainHeap] without trace: the three links, outermost
    first, each followed by the separator; the field dump follows its
    message directly. *)
Example ToString_chain_without_trace :
  ToString exampleSprintf exampleSprintFields exampleSprintError
           exampleFormatPanic exampleFrames
           (Format exampleSprintf exampleSprintFields exampleSprintError
              exampleFormatPanic exampleFrames 2 chainHeap)
           5 chainHeap (Some 2%nat) false
  = Ok "top: midmap[k:v]: root fail: ".
Proof. reflexivity. Qed.


(** On the root with an empty capture, which has no anchor, the rendering
    never returns: the leaf's external error is the root itself, [fmt]
    prints it through its [Format] method, and that renders it again. *)
Lemma Cause_anchorless_root fuel :
  Cause (S fuel) emptyCaptureRoot.2 (Some 0%nat) = Ok None.
Proof.
  rewrite (Cause_empty_capture fuel _ 0%nat
             (rootError [] (Some (mkAdditionalInformation 0 0 ∅ "boom" []))
                None) None) by reflexivity.
  by destruct fuel.
Qed.

Lemma Format_anchorless_root_diverges
    Sprintf SprintFields SprintError FormatPanic CallersFrames fuel verb plus :
  Format Sprintf SprintFields SprintError FormatPanic CallersFrames fuel
    emptyCaptureRoot.2 0%nat verb plus = Timeout.
Proof.
  revert verb plus. induction fuel as [| fuel IH]; intros verb plus; [done |].
  cbn [Format]. unfold printError, ToString, ToCustomString.
  destruct fuel as [| [| fuel]]; [done | done |].
  rewrite (unpack_no_anchor _ _ _ (Some 0%nat))
    by apply Cause_anchorless_root.
  cbn [mbind outcome_bind toCustomString linkLoop].
  assert (HSprint :
    Sprint FormatPanic SprintError
      (Format Sprintf SprintFields SprintError FormatPanic CallersFrames
         (S (S fuel)) emptyCaptureRoot.2) emptyCaptureRoot.2 0%nat
    = Timeout).
  { unfold Sprint.
    change (deref emptyCaptureRoot.2 0%nat)
      with (Ok (rootError []
                  (Some (mkAdditionalInformation 0 0 ∅ "boom" [])) None)).
    cbn [mbind outcome_bind implementsFormatter]. by rewrite IH. }
  by rewrite HSprint.
Qed.

Lemma ToString_anchorless_root_diverges
    Sprintf SprintFields SprintError FormatPanic CallersFrames
    callbacks fuel withTrace :
  ToString Sprintf SprintFields SprintError FormatPanic CallersFrames
    (Format Sprintf SprintFields SprintError FormatPanic CallersFrames
       callbacks emptyCaptureRoot.2)
    fuel emptyCaptureRoot.2 emptyCaptureRoot.1 withTrace
  = Timeout.
Proof.
  pose proof (Format_anchorless_root_diverges Sprintf SprintFields
                SprintError FormatPanic CallersFrames (S fuel) 118 withTrace)
    as Hdiverges.
  destruct fuel as [| [| fuel]]; [done | done |].
  unfold ToString, ToCustomString.
  rewrite (unpack_no_anchor _ _ _ (Some 0%nat))
    by apply Cause_anchorless_root.
  cbn [mbind outcome_bind toCustomString linkLoop].
  unfold Sprint.
  change (deref emptyCaptureRoot.2 0%nat)
    with (Ok (rootError []
                (Some (mkAdditionalInformation 0 0 ∅ "boom" [])) None)).
  cbn [mbind outcome_bind implementsFormatter].
  by rewrite Format_anchorless_root_diverges.
Qed.

(** ** A join merged into itself *)

Example selfJoinHeap_cyclic :
  selfJoinHeap !! 2%nat
  = Some (joinError [500; 600] [Some 0%nat; Some 1%nat; Some 2%nat]).
Proof. reflexivity. Qed.

(** [unpack] never returns on that join: whatever the fuel, the recursion
    into its third cause is still running. *)
Lemma unpack_self_join_diverges CallersFrames fuel parentPC :
  unpack CallersFrames fuel selfJoinHeap (Some 2%nat) parentPC = Timeout.
Proof.
  revert parentPC. induction fuel as [| fuel IH]; intros parentPC; [done |].
  destruct fuel as [| fuel]; [done |].
  rewrite (unpack_at_anchor _ _ _ _ _ 2%nat
             (joinError [500; 600] [Some 0%nat; Some 1%nat; Some 2%nat])
             [500; 600]); [| done | done | done].
  unfold firstCursor, deref.
  rewrite selfJoinHeap_cyclic. cbn [mbind outcome_bind GetAdditionalInformation].
  rewrite frameWalk_no_cursor.
  2:{ unfold callerStartIndex. destruct (parentPC =? 0).
      - cbn. lia.
      - pose proof (floorScan_upper [500; 600] parentPC 2) as Hup.
        cbn [length] in *. lia. }
  cbn [mbind outcome_bind]. unfold unpackChildren.
  cbn [Unwrap UnwrapAll mapM index lookup list_lookup mbind outcome_bind].
  destruct fuel as [| fuel]; [done |].
  rewrite (unpack_no_anchor _ _ _ (Some 0%nat)) by done.
  cbn [mbind outcome_bind].
  rewrite (unpack_no_anchor _ _ _ (Some 1%nat)) by done.
  cbn [mbind outcome_bind].
  by rewrite IH.
Qed.

(** * Further properties of the package *)

(** ** Anchors *)

(** A constructor call keeps every object of the store, up to the causes
    of joins. *)
Lemma constructs_extends h e h' : constructs h e h' -> extends h h'.
Proof.
  intros [h0 stack skip fs m args
         | fuel h0 stack skip err e0 h0' HWrap
         | fuel h0 stack skip err fs m args e0 h0' HWrap
         | h0 stack skip errs].
  - apply extends_alloc.
  - unfold WrapDepth in HWrap.
    destruct (Cause fuel h0 err) as [[b |] | |]; try done;
      cbn in HWrap; injection HWrap as <- <-; apply extends_alloc.
  - unfold WrapDepths in HWrap.
    destruct (Cause fuel h0 err) as [[b |] | |]; try done;
      cbn in HWrap; injection HWrap as <- <-; apply extends_alloc.
  - destruct (JoinDepth_cases h0 stack skip errs)
      as [-> | [[e0 ->] | [(a & cs & es & es' & Hlookup & ->) | ->]]].
    + by left.
    + apply extends_alloc.
    + by eapply extends_join_insert.
    + apply extends_alloc.
Qed.

(** X3.  No call of the construction surface changes the anchor of an
    error that exists already: what [Cause] returned for it before the call,
    it returns after the call, also when the call appended to a join in
    place. *)
Theorem Cause_stable_under_construction h e h' fuel x r :
  constructs h e h' ->
  Cause fuel h x = Ok r ->
  Cause fuel h' x = Ok r.
Proof.
  intros Hstep. apply Cause_extends. by eapply constructs_extends.
Qed.

Lemma Cause_stable_under_construction_witness :
  Cause 1 rootHeap (Some 0%nat) = Ok (Some 0%nat)
  /\ Cause 1 (rootHeap ++ [wrapError
                             (Some (mkAdditionalInformation 200 300 ∅ "mid" []))
                             (Some 0%nat)]) (Some 0%nat)
     = Ok (Some 0%nat).
Proof.
  split; [reflexivity |].
  apply (Cause_stable_under_construction rootHeap (Some 1%nat) _ 1
           (Some 0%nat) (Some 0%nat)).
  - apply (constructs_WrapDepths 1 rootHeap (stackAt [200; 300]) 1 (Some 0%nat)
             ∅ "mid" []).
    reflexivity.
  - reflexivity.
Defined.

(** X4.  [Cause] is idempotent: the error it returns is its own anchor. *)
Theorem Cause_idempotent fuel h e r :
  Cause fuel h e = Ok r ->
  forall fuel', (1 <= fuel')%nat -> Cause fuel' h r = Ok r.
Proof.
  intros HCause fuel' Hfuel'. destruct r as [b |]; [| by destruct fuel'].
  destruct (Cause_Some_anchorAt _ _ _ _ HCause)
    as (cs & Hlen & [(info & c & Hlookup) | (es & Hlookup)]);
    (destruct fuel' as [| fuel']; [lia |]);
    by eapply Cause_anchor.
Qed.

Lemma Cause_idempotent_witness :
  Cause 2 chainHeap (Some 1%nat) = Ok (Some 0%nat)
  /\ Cause 1 chainHeap (Some 0%nat) = Ok (Some 0%nat).
Proof.
  split; [reflexivity |].
  apply (Cause_idempotent 2 chainHeap (Some 1%nat) (Some 0%nat));
    [reflexivity | lia].
Defined.

(** X5.  A wrap never takes the place of the anchor below it: when the
    wrapped error has an anchor, the error [WrapDepths] or [WrapDepth]
    returns has that same anchor; when it has none and the capture taken is
    non-empty, the returned error is its own anchor. *)
Theorem Wrap_anchor fuel h stack skip err fs m args :
  (forall b e' h',
      Cause fuel h err = Ok (Some b) ->
      (WrapDepths fuel h stack skip err fs m args = Ok (e', h')
       \/ WrapDepth fuel h stack skip err = Ok (e', h')) ->
      Cause (S fuel) h' e' = Ok (Some b))
  /\ (forall e' h',
        Cause fuel h err = Ok None ->
        NewCallers stack (skip + 3) ≠ [] ->
        (WrapDepths fuel h stack skip err fs m args = Ok (e', h')
         \/ WrapDepth fuel h stack skip err = Ok (e', h')) ->
        e' ≠ None /\ Cause (S fuel) h' e' = Ok e').
Proof.
  split.
  - intros b e' h' HCause [HWrap | HWrap];
      [unfold WrapDepths in HWrap | unfold WrapDepth in HWrap];
      rewrite HCause in HWrap; cbn in HWrap; injection HWrap as <- <-;
      by apply Cause_alloc_wrapError.
  - intros e' h' HCause Hcap [HWrap | HWrap];
      [unfold WrapDepths in HWrap | unfold WrapDepth in HWrap];
      rewrite HCause in HWrap; cbn in HWrap; injection HWrap as <- <-;
      (split; [done |]); by eapply Cause_alloc_capture.
Qed.

Lemma Wrap_anchor_witness :
  Cause 2 (rootHeap ++ [wrapError
                          (Some (mkAdditionalInformation 200 300 ∅ "mid" []))
                          (Some 0%nat)]) (Some 1%nat)
  = Ok (Some 0%nat)
  /\ Cause 2 (foreignHeap ++ [rootError [500; 600] None (Some 0%nat)])
           (Some 1%nat)
     = Ok (Some 1%nat).
Proof.
  destruct (Wrap_anchor 1 rootHeap (stackAt [200; 300]) 1 (Some 0%nat) ∅ "mid" [])
    as [Hanchored _].
  destruct (Wrap_anchor 1 foreignHeap (stackAt [500; 600]) 1 (Some 0%nat) ∅ "" [])
    as [_ Hfresh].
  split.
  - apply (Hanchored 0%nat (Some 1%nat)); [reflexivity |]. left. reflexivity.
  - apply (Hfresh (Some 1%nat)); [reflexivity | discriminate |].
    right. reflexivity.
Defined.

(** ** Merging *)

Lemma live_idempotent (l : list error) : live (live l) = live l.
Proof.
  induction l as [| [a |] l IH]; [done | |].
  - by rewrite !live_cons_Some, IH.
  - by rewrite live_cons_None.
Qed.

Lemma lookup_alloc_new (h : heap) o : (h ++ [o]) !! length h = Some o.
Proof. rewrite lookup_app_r by lia. by rewrite Nat.sub_diag. Qed.

(** X6.  A merge loses no live error: every non-nil argument of
    [JoinDepth] is the returned error itself (the join that was appended
    to) or one of the errors the returned error unwraps to. *)
Theorem JoinDepth_keeps_live_errors h stack skip errs e :
  e ∈ live errs ->
  (JoinDepth h stack skip errs).1 = e
  \/ exists x, (JoinDepth h stack skip errs).1 = Some x
       /\ directCause (JoinDepth h stack skip errs).2 x e.
Proof.
  intros Hin.
  destruct (live errs) as [| e1 [| e2 l]] eqn:Hlive.
  - by apply elem_of_nil in Hin.
  - apply list_elem_of_singleton in Hin as ->.
    unfold JoinDepth. rewrite Hlive. cbn [length Nat.eqb head alloc fst snd].
    right. exists (length h). split; [done |].
    eexists. split; [apply lookup_alloc_new |]. by left.
  - rewrite JoinDepth_many by (rewrite Hlive; cbn; lia).
    destruct (asJoin h (errs !! 0%nat)) as [[[a cs] es] |] eqn:HasJoin.
    + unfold asJoin in HasJoin.
      destruct errs as [| [a' |] rest]; try done. cbn [lookup list_lookup] in HasJoin.
      destruct (h !! a') as [o |] eqn:Hlookup; try done.
      destruct o; try done. injection HasJoin as -> -> ->.
      cbn [fst snd drop]. rewrite live_cons_Some in Hlive. rewrite <- Hlive in Hin.
      apply elem_of_cons in Hin as [-> | Hin]; [by left | right].
      exists a. split; [done |]. eexists. split.
      * apply list_lookup_insert_eq. by eapply lookup_lt_Some.
      * right. eexists. split; [done |]. apply elem_of_app. by right.
    + cbn [alloc fst snd]. right. exists (length h). split; [done |].
      eexists. split; [apply lookup_alloc_new |].
      right. eexists. split; [done |]. by rewrite Hlive.
Qed.

Lemma JoinDepth_keeps_live_errors_witness :
  (Join joinHeap (stackAt [510; 600]) [Some 2%nat; None; Some 3%nat]).1
  = Some 3%nat
  \/ exists x,
       (Join joinHeap (stackAt [510; 600]) [Some 2%nat; None; Some 3%nat]).1
       = Some x
       /\ directCause
            (Join joinHeap (stackAt [510; 600]) [Some 2%nat; None; Some 3%nat]).2
            x (Some 3%nat).
Proof.
  apply (JoinDepth_keeps_live_errors joinHeap (stackAt [510; 600]) 1
           [Some 2%nat; None; Some 3%nat] (Some 3%nat)).
  rewrite live_cons_Some, live_cons_None, live_cons_Some.
  apply elem_of_cons. right. apply elem_of_cons. by left.
Defined.

(** X7.  A merge returns nil exactly when every argument is nil; it then
    leaves the store untouched. *)
Theorem JoinDepth_nil_iff h stack skip errs :
  ((JoinDepth h stack skip errs).1 = None <-> live errs = [])
  /\ ((JoinDepth h stack skip errs).1 = None ->
      (JoinDepth h stack skip errs).2 = h).
Proof.
  assert (Hiff : (JoinDepth h stack skip errs).1 = None <-> live errs = []).
  { split.
    - destruct (JoinDepth_cases h stack skip errs)
        as [Hnil | [[e Hroot] | [(a & cs & es & es' & _ & Hplace) | Hfresh]]].
      + intros _. unfold JoinDepth in Hnil.
        destruct (live errs) as [| e1 [| e2 l]] eqn:Hlive; [done | |].
        * cbn [length Nat.eqb head] in Hnil. discriminate.
        * cbn [length Nat.eqb] in Hnil.
          by destruct (asJoin h (errs !! 0%nat)) as [[[a cs] es] |].
      + by rewrite Hroot.
      + by rewrite Hplace.
      + by rewrite Hfresh.
    - intros Hlive. unfold JoinDepth. by rewrite Hlive. }
  split; [exact Hiff |].
  intros Hnil. apply Hiff in Hnil. unfold JoinDepth. by rewrite Hnil.
Qed.

(** X8.  Nil arguments after the first one are ignored: dropping them
    changes neither the returned error nor the store. *)
Theorem JoinDepth_ignores_later_nils h stack skip e0 rest :
  JoinDepth h stack skip (e0 :: rest) = JoinDepth h stack skip (e0 :: live rest).
Proof.
  assert (Hlive : live (e0 :: live rest) = live (e0 :: rest)).
  { destruct e0 as [a |].
    - by rewrite !live_cons_Some, live_idempotent.
    - by rewrite !live_cons_None, live_idempotent. }
  unfold JoinDepth. rewrite Hlive. cbn [lookup list_lookup].
  change (drop 1 (e0 :: live rest)) with (live rest).
  change (drop 1 (e0 :: rest)) with rest.
  by rewrite live_idempotent.
Qed.

(** ** Shape of the reconstructed hierarchy *)

Lemma collapsed_flatten hierarchy subs :
  ErrExternal hierarchy = None ->
  SubHierarchies hierarchy = [] ->
  Forall collapsed subs ->
  collapsed (flatten (withSubHierarchies hierarchy subs)).
Proof.
  destruct hierarchy as [ext locs links subs0]. cbn. intros -> -> Hsubs.
  unfold flatten, withSubHierarchies. cbn [SubHierarchies app].
  destruct subs as [| sub [| sub2 subs]].
  - by constructor.
  - apply Forall_inv in Hsubs.
    destruct Hsubs as [ext' locs' links' subs' Hlen Hext Hsubs'].
    cbn. by constructor.
  - constructor; [cbn; lia | done | done].
Qed.

Lemma unpack_flattened CallersFrames fuel h err parentPC hierarchy :
  unpack CallersFrames fuel h err parentPC = Ok hierarchy ->
  collapsed hierarchy.
Proof.
  revert err parentPC hierarchy.
  induction fuel as [| fuel IH]; intros err parentPC hierarchy Hunpack;
    [done |].
  cbn [unpack] in Hunpack.
  destruct (Cause fuel h err) as [[a |] | |]; try done;
    cbn [mbind outcome_bind] in Hunpack.
  2:{ injection Hunpack as <-. by constructor. }
  destruct (deref h a) as [o | |]; try done.
  cbn [mbind outcome_bind] in Hunpack.
  destruct (Callers o) as [callers |]; try done.
  cbn [mbind outcome_bind] in Hunpack.
  destruct (firstCursor fuel h err) as [cursor | |]; try done.
  cbn [mbind outcome_bind] in Hunpack.
  destruct (frameWalk _ _ _ _ _ _ _) as [[hierarchy0 cursor'] | |] eqn:Hwalk;
    try done.
  cbn [mbind outcome_bind] in Hunpack.
  destruct (unpackChildren _ _ _) as [subs | |] eqn:Hchildren; try done.
  cbn [mbind outcome_bind] in Hunpack. injection Hunpack as <-.
  assert (Hkept : ErrExternal hierarchy0 = None
                  /\ SubHierarchies hierarchy0 = []).
  { eapply (frameWalk_invariant CallersFrames
              (fun o => ErrExternal o = None /\ SubHierarchies o = []));
      [| | exact Hwalk | done].
    - intros x l [Hext Hsubs].
      destruct (addCallerLocation_fields x l) as (-> & _ & ->). done.
    - intros x l [Hext Hsubs].
      destruct (addCallerLocation_fields (appendLink x l) (CallerLocation l))
        as (-> & _ & ->). done. }
  destruct Hkept as [Hext Hsubs].
  apply collapsed_flatten; [done | done |].
  unfold unpackChildren in Hchildren.
  destruct (Unwrap o) as [e |].
  - destruct (index callers 1) as [floor | |]; try done.
    cbn [mbind outcome_bind] in Hchildren.
    destruct (unpack CallersFrames fuel h e floor) as [sub | |] eqn:Hsub;
      try done.
    cbn [mbind outcome_bind] in Hchildren. injection Hchildren as <-.
    constructor; [by eapply IH | constructor].
  - destruct (UnwrapAll o) as [es |]; [| injection Hchildren as <-; constructor].
    eapply mapM_Forall; [| exact Hchildren].
    intros e sub Hsub. cbn beta in Hsub.
    destruct (index callers 1) as [floor | |]; try done.
    cbn [mbind outcome_bind] in Hsub. by eapply IH.
Qed.

(** X9.  Whatever [unpack] returns is collapsed: no node of the hierarchy
    has exactly one sub-hierarchy (a single cause is always flattened into
    its parent), and a node that has sub-hierarchies has no external
    error. *)
Theorem unpack_collapsed CallersFrames fuel h err parentPC hierarchy :
  unpack CallersFrames fuel h err parentPC = Ok hierarchy ->
  collapsed hierarchy.
Proof. apply unpack_flattened. Qed.

Lemma unpack_collapsed_witness :
  collapsed
    (mkUnpackHierarchy None
       [mkLocation "main.go" 300 "main.run";
        mkLocation "main.go" 200 "main.run";
        mkLocation "main.go" 100 "main.run"]
       [] []).
Proof.
  apply (unpack_collapsed exampleFrames 3 sentinelHeap (Some 1%nat) 0).
  reflexivity.
Defined.

(** ** Deduplication of locations *)

Lemma noRepeat_addCallerLocation o l :
  noRepeat (CallerLocations o) -> noRepeat (CallerLocations (addCallerLocation o l)).
Proof.
  intros Hno. unfold addCallerLocation.
  assert (Hsnoc : last (CallerLocations o) ≠ Some l ->
                  noRepeat (CallerLocations o ++ [l])).
  { intros Hlast i x y Hx Hy.
    apply lookup_app_Some in Hy as [Hy | [Hge Hy]].
    - rewrite lookup_app_l in Hx by (apply lookup_lt_Some in Hy; lia).
      by eapply Hno.
    - apply list_lookup_singleton_Some in Hy as [Hi <-].
      rewrite lookup_app_l in Hx by lia.
      intros ->. apply Hlast. rewrite last_lookup, <- Hx. f_equal. lia. }
  destruct (last (CallerLocations o)) as [l' |] eqn:Hlast.
  - destruct (decide (l' = l)) as [-> | Hne]; [done |].
    cbn [CallerLocations]. apply Hsnoc. congruence.
  - cbn [CallerLocations]. by apply Hsnoc.
Qed.

(** X10.  Within one frame walk no location is listed twice in a row:
    when the locations already listed have no two equal neighbours, neither
    have the locations after the walk, and every listing through
    [addCallerLocation] keeps it so. *)
Theorem frameWalk_noRepeat
    CallersFrames fuel h callers n hierarchy cursor hierarchy' cursor' :
  frameWalk CallersFrames fuel h callers n hierarchy cursor
  = Ok (hierarchy', cursor') ->
  noRepeat (CallerLocations hierarchy) ->
  noRepeat (CallerLocations hierarchy').
Proof.
  apply (frameWalk_invariant CallersFrames
           (fun o => noRepeat (CallerLocations o))).
  - intros o l. apply noRepeat_addCallerLocation.
  - intros o l Hno. apply noRepeat_addCallerLocation. by destruct o.
Qed.

Lemma frameWalk_noRepeat_witness :
  noRepeat [mkLocation "main.go" 200 "main.run";
            mkLocation "main.go" 100 "main.run"].
Proof.
  apply (frameWalk_noRepeat exampleFrames 0 [] [100; 100; 200; 200] 4
           emptyHierarchy None
           (mkUnpackHierarchy None
              [mkLocation "main.go" 200 "main.run";
               mkLocation "main.go" 100 "main.run"] [] [])
           None).
  - reflexivity.
  - intros i x y Hx. by destruct i.
Defined.

(** ** When the reconstruction panics, and when it returns *)

Lemma bind_not_Panic {A B : Type} (m : outcome A) (f : A -> outcome B) :
  m ≠ Panic -> (forall x, m = Ok x -> f x ≠ Panic) -> m ≫= f ≠ Panic.
Proof. destruct m as [x | |]; cbn; [intros _ Hf; by apply Hf | done | done]. Qed.

Lemma bind_not_Timeout {A B : Type} (m : outcome A) (f : A -> outcome B) :
  m ≠ Timeout -> (forall x, m = Ok x -> f x ≠ Timeout) -> m ≫= f ≠ Timeout.
Proof. destruct m as [x | |]; cbn; [intros _ Hf; by apply Hf | done | done]. Qed.

Lemma mapM_not_Panic {A B : Type} (f : A -> outcome B) l :
  Forall (fun x => f x ≠ Panic) l -> mapM f l ≠ Panic.
Proof.
  induction 1 as [| x l Hx _ IH]; [done |]. cbn [mapM].
  apply bind_not_Panic; [done |]. intros y _.
  apply bind_not_Panic; [done |]. done.
Qed.

Lemma mapM_not_Timeout {A B : Type} (f : A -> outcome B) l :
  Forall (fun x => f x ≠ Timeout) l -> mapM f l ≠ Timeout.
Proof.
  induction 1 as [| x l Hx _ IH]; [done |]. cbn [mapM].
  apply bind_not_Timeout; [done |]. intros y _.
  apply bind_not_Timeout; [done |]. done.
Qed.

Lemma Unwrap_pointers o e : Unwrap o = Some e -> e ∈ pointers o.
Proof.
  destruct o as [cs info c | info c | cs es | text [| c | es]]; cbn;
    try done; intros [= <-]; apply list_elem_of_singleton; done.
Qed.

Lemma UnwrapAll_pointers o es : UnwrapAll o = Some es -> es = pointers o.
Proof.
  destruct o as [cs info c | info c | cs es' | text [| c | es']]; cbn;
    try done; by intros [= <-].
Qed.

Lemma closed_pointer h a o e :
  closed h -> h !! a = Some o -> e ∈ pointers o -> validError h e.
Proof.
  intros Hclosed Hlookup Hin.
  by eapply (proj1 (Forall_forall _ _) (Hclosed a o Hlookup)).
Qed.

Lemma ordered_pointer h a o e :
  ordered h -> h !! a = Some o -> e ∈ pointers o -> below a e.
Proof.
  intros Hordered Hlookup Hin.
  by eapply (proj1 (Forall_forall _ _) (Hordered a o Hlookup)).
Qed.

Lemma ordered_closed h : ordered h -> closed h.
Proof.
  intros Hordered a o Hlookup. eapply Forall_impl; [by apply Hordered |].
  intros [b |] Hb; [| done]. cbn in *. apply lookup_lt_Some in Hlookup. lia.
Qed.

Lemma validError_lookup h a :
  validError h (Some a) -> exists o, h !! a = Some o.
Proof. intros Ha. by apply lookup_lt_is_Some_2. Qed.

Lemma goodCursor_valid h cursor : goodCursor h cursor -> validError h cursor.
Proof.
  destruct cursor as [a |]; [| done]. intros [info Hinfo].
  unfold cursorInformation, deref in Hinfo.
  destruct (h !! a) as [o |] eqn:Hlookup; [| done].
  by eapply lookup_lt_Some.
Qed.

Section Safety.

Variable CallersFrames : uintptr -> Frame.
Variable h : heap.
Hypothesis h_closed : closed h.

Lemma Cause_closed fuel :
  forall e, validError h e ->
    Cause fuel h e ≠ Panic
    /\ forall r, Cause fuel h e = Ok r -> validError h r.
Proof.
  induction fuel as [| fuel IH]; intros [a |] Ha; try (split; [done |]);
    try (by intros r [= <-]); try done.
  destruct (validError_lookup _ _ Ha) as [o Hlookup].
  cbn [Cause]. unfold deref. rewrite Hlookup. cbn [mbind outcome_bind].
  destruct (match Callers o with Some cs => _ | None => _ end).
  - split; [done |]. by intros r [= <-].
  - destruct (Unwrap o) as [e |] eqn:HUnwrap.
    + apply IH. eapply closed_pointer; [done | done |]. by apply Unwrap_pointers.
    + split; [done |]. by intros r [= <-].
Qed.

Lemma nextStackFrameError_closed fuel :
  forall e, validError h e ->
    nextStackFrameError fuel h e ≠ Panic
    /\ forall c, nextStackFrameError fuel h e = Ok c -> goodCursor h c.
Proof.
  induction fuel as [| fuel IH]; intros [a |] Ha; try (split; [done |]);
    try (by intros r [= <-]); try done.
  destruct (validError_lookup _ _ Ha) as [o Hlookup].
  cbn [nextStackFrameError]. unfold deref. rewrite Hlookup.
  cbn [mbind outcome_bind].
  destruct (Unwrap o) as [[b |] |] eqn:HUnwrap;
    try (split; [done |]; by intros r [= <-]).
  assert (Hb : validError h (Some b)).
  { eapply closed_pointer; [done | done |]. by apply Unwrap_pointers. }
  destruct (validError_lookup _ _ Hb) as [o' Hlookup'].
  rewrite Hlookup'. cbn [mbind outcome_bind].
  destruct (GetAdditionalInformation o') as [[info |] |] eqn:Hinfo.
  - split; [done |]. intros c [= <-]. exists info.
    unfold cursorInformation, deref. rewrite Hlookup'. cbn [mbind outcome_bind].
    by rewrite Hinfo.
  - by apply IH.
  - split; [done |]. by intros r [= <-].
Qed.

Lemma firstCursor_closed fuel e :
  validError h e ->
  firstCursor fuel h e ≠ Panic
  /\ forall c, firstCursor fuel h e = Ok c -> goodCursor h c.
Proof.
  destruct e as [a |]; intros Ha; [| split; [done |]; by intros r [= <-]].
  destruct (validError_lookup _ _ Ha) as [o Hlookup].
  unfold firstCursor, deref. rewrite Hlookup. cbn [mbind outcome_bind].
  destruct (GetAdditionalInformation o) as [[info |] |] eqn:Hinfo.
  - split; [done |]. intros c [= <-]. exists info.
    unfold cursorInformation, deref. rewrite Hlookup. cbn [mbind outcome_bind].
    by rewrite Hinfo.
  - by apply nextStackFrameError_closed.
  - split; [done |]. by intros r [= <-].
Qed.

Lemma spliceLoop_closed fuel callers callerIndex :
  (callerIndex < length callers)%nat ->
  forall hierarchy cursor, goodCursor h cursor ->
    spliceLoop CallersFrames fuel h callers callerIndex hierarchy cursor ≠ Panic
    /\ forall hierarchy' cursor',
         spliceLoop CallersFrames fuel h callers callerIndex hierarchy cursor
         = Ok (hierarchy', cursor') ->
         goodCursor h cursor'.
Proof.
  intros Hindex.
  induction fuel as [| fuel IH]; intros hierarchy [a |] Hcursor;
    try (split; [done |]; by intros ? ? [= _ <-]).
  - cbn [spliceLoop]. case_bool_decide as Hlast;
      [split; [done |]; by intros ? ? [= _ <-] |].
    destruct (lookup_lt_is_Some_2 callers (callerIndex + 1)) as [above Habove];
      [lia |].
    destruct Hcursor as [info Hinfo].
    unfold index. rewrite Habove. cbn [mbind outcome_bind].
    rewrite Hinfo. cbn [mbind outcome_bind].
    destruct (above =? callerCaller info); [done |].
    split; [done |]. intros ? ? [= _ <-]. by exists info.
  - rewrite spliceLoop_unfold. case_bool_decide as Hlast;
      [split; [done |]; by intros ? ? [= _ <-] |].
    destruct (lookup_lt_is_Some_2 callers (callerIndex + 1)) as [above Habove];
      [lia |].
    pose proof (goodCursor_valid _ _ Hcursor) as Hvalid.
    destruct Hcursor as [info Hinfo].
    unfold index. rewrite Habove. cbn [mbind outcome_bind].
    rewrite Hinfo. cbn [mbind outcome_bind].
    destruct (above =? callerCaller info).
    + destruct (nextStackFrameError_closed fuel (Some a) Hvalid)
        as [Hnext Hgood].
      destruct (nextStackFrameError fuel h (Some a)) as [next | |]; try done.
      cbn [mbind outcome_bind]. apply IH. by apply Hgood.
    + split; [done |]. intros ? ? [= _ <-]. by exists info.
Qed.

Lemma frameWalk_closed fuel callers n :
  (n <= length callers)%nat ->
  forall hierarchy cursor, goodCursor h cursor ->
    frameWalk CallersFrames fuel h callers n hierarchy cursor ≠ Panic.
Proof.
  induction n as [| n IH]; intros Hn hierarchy cursor Hcursor; [done |].
  cbn [frameWalk].
  destruct (spliceLoop_closed fuel callers n ltac:(lia) hierarchy cursor Hcursor)
    as [Hloop Hgood].
  destruct (spliceLoop _ _ _ _ _ _ _) as [[hierarchy1 cursor1] | |]; try done.
  cbn [mbind outcome_bind].
  destruct (lookup_lt_is_Some_2 callers n) as [pc Hpc]; [lia |].
  unfold index. rewrite Hpc. cbn [mbind outcome_bind].
  apply IH; [lia |]. by eapply Hgood.
Qed.

Lemma callerStartIndex_bound callers parentPC :
  (Z.to_nat (callerStartIndex callers parentPC + 1) <= length callers)%nat.
Proof.
  unfold callerStartIndex. destruct (parentPC =? 0); [lia |].
  pose proof (floorScan_upper callers parentPC (length callers)). lia.
Qed.

Hypothesis h_captures : noSingleEntryCapture h.

Lemma unpack_closed fuel :
  forall e parentPC, validError h e ->
    unpack CallersFrames fuel h e parentPC ≠ Panic.
Proof.
  induction fuel as [| fuel IH]; intros e parentPC He; [done |].
  cbn [unpack].
  destruct (Cause_closed fuel e He) as [HCause Hvalid].
  destruct (Cause fuel h e) as [[a |] | |] eqn:HCauseEq; try done.
  cbn [mbind outcome_bind].
  destruct (validError_lookup _ _ (Hvalid _ eq_refl)) as [o Hlookup].
  destruct (Cause_Some_anchorAt _ _ _ _ HCauseEq)
    as (cs & Hlen & Hshape).
  assert (HCallers : Callers o = Some cs).
  { destruct Hshape as [(info & c & Hroot) | (es & Hjoin)];
      rewrite Hlookup in *; by simplify_eq. }
  assert (Hlen2 : (2 <= length cs)%nat).
  { pose proof (h_captures a o cs Hlookup HCallers). lia. }
  unfold deref. rewrite Hlookup. cbn [mbind outcome_bind].
  rewrite HCallers. cbn [mbind outcome_bind].
  destruct (firstCursor_closed fuel e He) as [Hfirst Hgood].
  apply bind_not_Panic; [done |]. intros cursor Hcursor.
  apply bind_not_Panic.
  { apply frameWalk_closed; [apply callerStartIndex_bound | by apply Hgood]. }
  intros [hierarchy cursor'] _.
  apply bind_not_Panic; [| done].
  destruct (lookup_lt_is_Some_2 cs 1) as [floor Hfloor]; [lia |].
  unfold unpackChildren, index. rewrite Hfloor.
  destruct (Unwrap o) as [c |] eqn:HUnwrap.
  - cbn [mbind outcome_bind]. apply bind_not_Panic; [| done].
    apply IH. eapply closed_pointer; [done | done |]. by apply Unwrap_pointers.
  - destruct (UnwrapAll o) as [es |] eqn:HUnwrapAll; [| done].
    apply mapM_not_Panic. apply Forall_forall. intros c Hc.
    cbn [mbind outcome_bind]. apply IH.
    eapply closed_pointer; [done | done |].
    by rewrite <- (UnwrapAll_pointers _ _ HUnwrapAll).
Qed.

End Safety.

(** X11.  The one-entry capture is the only way to make the reconstruction
    panic: in a store without dangling pointer in which no capture has
    exactly one entry, [unpack] never panics, on any error of the store,
    with any floor. *)
Theorem unpack_never_panics CallersFrames h e parentPC fuel :
  closed h ->
  noSingleEntryCapture h ->
  validError h e ->
  unpack CallersFrames fuel h e parentPC ≠ Panic.
Proof. intros Hclosed Hcaptures He. by apply unpack_closed. Qed.

Lemma chainHeap_ordered : ordered chainHeap.
Proof.
  intros [| [| [| a]]] o Hlookup; cbn in Hlookup; simplify_eq; cbn [pointers];
    repeat constructor; cbn; lia.
Qed.

Lemma chainHeap_captures : noSingleEntryCapture chainHeap.
Proof.
  intros [| [| [| a]]] o cs Hlookup HCallers; cbn in Hlookup; simplify_eq;
    cbn in HCallers; simplify_eq; cbn; lia.
Qed.

Lemma unpack_never_panics_witness :
  unpack exampleFrames 1 chainHeap (Some 2%nat) 0 ≠ Panic
  /\ unpack exampleFrames 9 chainHeap (Some 2%nat) 0 ≠ Panic.
Proof.
  split; apply unpack_never_panics;
    first [ apply ordered_closed, chainHeap_ordered
          | apply chainHeap_captures
          | cbn; lia ].
Defined.

Section Termination.

Variable CallersFrames : uintptr -> Frame.
Variable h : heap.
Hypothesis h_ordered : ordered h.

Lemma Cause_ordered fuel :
  forall e, (rank e <= fuel)%nat ->
    Cause fuel h e ≠ Timeout
    /\ forall r, Cause fuel h e = Ok r -> (rank r <= rank e)%nat.
Proof.
  induction fuel as [| fuel IH]; intros [a |] Ha; cbn [rank] in Ha;
    try lia; try (split; [done |]; by intros r [= <-]).
  cbn [Cause]. unfold deref.
  destruct (h !! a) as [o |] eqn:Hlookup; [| done].
  cbn [mbind outcome_bind].
  destruct (match Callers o with Some cs => _ | None => _ end).
  - split; [done |]. by intros r [= <-].
  - destruct (Unwrap o) as [e |] eqn:HUnwrap.
    + assert (Hbelow : below a e).
      { eapply ordered_pointer; [done | done |]. by apply Unwrap_pointers. }
      assert (Hrank : (rank e <= a)%nat) by (destruct e; cbn in *; lia).
      destruct (IH e ltac:(lia)) as [Hno Hle]. split; [done |].
      intros r Hr. specialize (Hle r Hr). cbn [rank]. lia.
    + split; [done |]. intros r [= <-]. cbn. lia.
Qed.

Lemma nextStackFrameError_ordered fuel :
  forall e, (rank e <= fuel)%nat ->
    nextStackFrameError fuel h e ≠ Timeout
    /\ forall c, nextStackFrameError fuel h e = Ok c ->
         (rank c <= pred (rank e))%nat.
Proof.
  induction fuel as [| fuel IH]; intros [a |] Ha; cbn [rank] in Ha;
    try lia; try (split; [done |]; by intros r [= <-]).
  cbn [nextStackFrameError]. unfold deref.
  destruct (h !! a) as [o |] eqn:Hlookup; [| done].
  cbn [mbind outcome_bind].
  destruct (Unwrap o) as [[b |] |] eqn:HUnwrap;
    try (split; [done |]; intros r [= <-]; cbn; lia).
  assert (Hbelow : below a (Some b)).
  { eapply ordered_pointer; [done | done |]. by apply Unwrap_pointers. }
  cbn in Hbelow.
  destruct (h !! b) as [o' |] eqn:Hlookup'; [| done].
  cbn [mbind outcome_bind].
  destruct (GetAdditionalInformation o') as [[info |] |] eqn:Hinfo.
  - split; [done |]. intros c [= <-]. cbn. lia.
  - destruct (IH (Some b) ltac:(cbn; lia)) as [Hno Hle]. split; [done |].
    intros c Hc. specialize (Hle c Hc). cbn [rank] in *. lia.
  - split; [done |]. intros r [= <-]. cbn. lia.
Qed.

Lemma firstCursor_ordered fuel e :
  (rank e <= fuel)%nat ->
  firstCursor fuel h e ≠ Timeout
  /\ forall c, firstCursor fuel h e = Ok c -> (rank c <= rank e)%nat.
Proof.
  destruct e as [a |]; intros Ha; [| split; [done |]; by intros r [= <-]].
  unfold firstCursor, deref.
  destruct (h !! a) as [o |] eqn:Hlookup; [| done].
  cbn [mbind outcome_bind].
  destruct (GetAdditionalInformation o) as [[info |] |] eqn:Hinfo.
  - split; [done |]. by intros c [= <-].
  - destruct (nextStackFrameError_ordered fuel (Some a) Ha) as [Hno Hle].
    split; [done |]. intros c Hc. specialize (Hle c Hc). lia.
  - split; [done |]. intros r [= <-]. cbn. lia.
Qed.

Lemma spliceLoop_ordered fuel callers callerIndex :
  forall hierarchy cursor, (rank cursor < fuel)%nat ->
    spliceLoop CallersFrames fuel h callers callerIndex hierarchy cursor
      ≠ Timeout
    /\ forall hierarchy' cursor',
         spliceLoop CallersFrames fuel h callers callerIndex hierarchy cursor
         = Ok (hierarchy', cursor') ->
         (rank cursor' <= rank cursor)%nat.
Proof.
  induction fuel as [| fuel IH]; intros hierarchy [a |] Hrank;
    cbn [rank] in Hrank; try lia;
    try (split; [done |]; by intros ? ? [= _ <-]).
  rewrite spliceLoop_unfold. case_bool_decide as Hlast;
    [split; [done |]; by intros ? ? [= _ <-] |].
  unfold index.
  destruct (callers !! (callerIndex + 1)%nat) as [above |]; [| done].
  cbn [mbind outcome_bind].
  destruct (cursorInformation h a) as [info | |] eqn:Hinfo; try done.
  - cbn [mbind outcome_bind].
    destruct (above =? callerCaller info).
    + destruct (nextStackFrameError_ordered fuel (Some a) ltac:(cbn; lia))
        as [Hnext Hle].
      destruct (nextStackFrameError fuel h (Some a)) as [next | |] eqn:Hnexteq;
        try done.
      cbn [mbind outcome_bind].
      specialize (Hle next eq_refl). cbn [rank pred] in Hle.
      assert (Hfuel : (rank next < fuel)%nat) by lia.
      split; [exact (proj1 (IH _ next Hfuel)) |].
      intros ? ? Hloop.
      pose proof (proj2 (IH _ next Hfuel) _ _ Hloop) as Hle'.
      cbn [rank]. lia.
    + split; [done |]. by intros ? ? [= _ <-].
  - exfalso. unfold cursorInformation, deref in Hinfo.
    destruct (h !! a) as [o |]; [| done]. cbn in Hinfo.
    by destruct (GetAdditionalInformation o) as [[? |] |].
Qed.

Lemma frameWalk_ordered fuel callers n :
  forall hierarchy cursor, (rank cursor < fuel)%nat ->
    frameWalk CallersFrames fuel h callers n hierarchy cursor ≠ Timeout.
Proof.
  induction n as [| n IH]; intros hierarchy cursor Hrank; [done |].
  cbn [frameWalk].
  destruct (spliceLoop_ordered fuel callers n hierarchy cursor Hrank)
    as [Hloop Hle].
  destruct (spliceLoop _ _ _ _ _ _ _) as [[hierarchy1 cursor1] | |]; try done.
  cbn [mbind outcome_bind]. specialize (Hle _ _ eq_refl).
  unfold index. destruct (callers !! n) as [pc |]; [| done].
  cbn [mbind outcome_bind]. apply IH. lia.
Qed.

Lemma unpack_ordered fuel :
  forall e parentPC, (rank e + 2 <= fuel)%nat ->
    unpack CallersFrames fuel h e parentPC ≠ Timeout.
Proof.
  induction fuel as [| fuel IH]; intros e parentPC He; [lia |].
  cbn [unpack].
  destruct (Cause_ordered fuel e ltac:(lia)) as [HCause Hle].
  destruct (Cause fuel h e) as [[a |] | |] eqn:HCauseEq; try done.
  cbn [mbind outcome_bind]. specialize (Hle _ eq_refl). cbn [rank] in Hle.
  unfold deref. destruct (h !! a) as [o |] eqn:Hlookup; [| done].
  cbn [mbind outcome_bind].
  destruct (Callers o) as [cs |]; [| done]. cbn [mbind outcome_bind].
  destruct (firstCursor_ordered fuel e ltac:(lia)) as [Hfirst Hle'].
  apply bind_not_Timeout; [done |]. intros cursor Hcursor.
  apply bind_not_Timeout.
  { apply frameWalk_ordered. specialize (Hle' _ Hcursor). lia. }
  intros [hierarchy cursor'] _.
  apply bind_not_Timeout; [| done].
  unfold unpackChildren, index.
  destruct (Unwrap o) as [c |] eqn:HUnwrap.
  - destruct (cs !! 1%nat) as [floor |]; [| done].
    cbn [mbind outcome_bind]. apply bind_not_Timeout; [| done].
    apply IH.
    assert (Hbelow : below a c).
    { eapply ordered_pointer; [done | done |]. by apply Unwrap_pointers. }
    destruct c; cbn in *; lia.
  - destruct (UnwrapAll o) as [es |] eqn:HUnwrapAll; [| done].
    apply mapM_not_Timeout. apply Forall_forall. intros c Hc.
    destruct (cs !! 1%nat) as [floor |]; [| done].
    cbn [mbind outcome_bind]. apply IH.
    assert (Hbelow : below a c).
    { eapply ordered_pointer; [done | done |].
      by rewrite <- (UnwrapAll_pointers _ _ HUnwrapAll). }
    destruct c; cbn in *; lia.
Qed.

End Termination.

(** X12.  On a store without cycle (every object points to older objects
    only) in which no capture has exactly one entry, [unpack] returns: there
    is one hierarchy that every run with enough fuel produces, the bound
    depending only on the position of the error in the store. *)
Theorem unpack_returns CallersFrames h e parentPC :
  ordered h ->
  noSingleEntryCapture h ->
  validError h e ->
  exists hierarchy,
    forall fuel, (rank e + 2 <= fuel)%nat ->
      unpack CallersFrames fuel h e parentPC = Ok hierarchy.
Proof.
  intros Hordered Hcaptures He.
  pose proof (unpack_ordered CallersFrames h Hordered (rank e + 2) e parentPC
                ltac:(lia)) as Hno.
  pose proof (unpack_closed CallersFrames h (ordered_closed _ Hordered)
                Hcaptures (rank e + 2) e parentPC He) as Hsafe.
  destruct (unpack CallersFrames (rank e + 2) h e parentPC)
    as [hierarchy | |] eqn:Hrun; try done.
  exists hierarchy. intros fuel Hfuel.
  eapply unpack_mono; [| done]. lia.
Qed.

Lemma unpack_returns_witness :
  exists hierarchy,
    forall fuel, (rank (Some 2%nat) + 2 <= fuel)%nat ->
      unpack exampleFrames fuel chainHeap (Some 2%nat) 0 = Ok hierarchy.
Proof.
  apply unpack_returns;
    [apply chainHeap_ordered | apply chainHeap_captures | cbn; lia].
Defined.

(** ** The constructors keep the store well formed *)

Lemma validError_alloc h o e : validError h e -> validError (h ++ [o]) e.
Proof. destruct e as [a |]; cbn; [| done]. rewrite length_app. lia. Qed.

Lemma validError_insert h a o e :
  validError h e -> validError (<[a := o]> h) e.
Proof. destruct e as [b |]; cbn; [| done]. by rewrite length_insert. Qed.

Lemma closed_alloc h o :
  closed h -> Forall (validError h) (pointers o) -> closed (h ++ [o]).
Proof.
  intros Hclosed Ho a o' Hlookup.
  apply lookup_app_Some in Hlookup as [Hold | [_ Hnew]].
  - eapply Forall_impl; [by eapply Hclosed |]. intros e. apply validError_alloc.
  - destruct (a - length h)%nat; [| done]. injection Hnew as <-.
    eapply Forall_impl; [done |]. intros e. apply validError_alloc.
Qed.

Lemma ordered_alloc h o :
  ordered h -> Forall (validError h) (pointers o) -> ordered (h ++ [o]).
Proof.
  intros Hordered Ho a o' Hlookup.
  apply lookup_app_Some in Hlookup as [Hold | [Hge Hnew]].
  - by eapply Hordered.
  - destruct (a - length h)%nat eqn:Hdiff; [| done]. injection Hnew as <-.
    eapply Forall_impl; [done |]. intros [b |]; cbn; lia.
Qed.

Lemma closed_join_insert h a cs es es' :
  closed h ->
  h !! a = Some (joinError cs es) ->
  Forall (validError h) es' ->
  closed (<[a := joinError cs (es ++ es')]> h).
Proof.
  intros Hclosed Hlookup Hes' b o Hb.
  destruct (decide (b = a)) as [-> | Hne].
  - rewrite list_lookup_insert_eq in Hb by (by eapply lookup_lt_Some).
    injection Hb as <-. cbn [pointers]. apply Forall_app. split.
    + eapply Forall_impl; [exact (Hclosed a _ Hlookup) |].
      intros e. apply validError_insert.
    + eapply Forall_impl; [done |]. intros e. apply validError_insert.
  - rewrite list_lookup_insert_ne in Hb by done.
    eapply Forall_impl; [by eapply Hclosed |]. intros e. apply validError_insert.
Qed.

Lemma Cause_Ok_valid fuel h e r : Cause fuel h e = Ok r -> validError h e.
Proof.
  destruct e as [a |]; [| done]. destruct fuel as [| fuel]; [done |].
  cbn [Cause]. unfold deref.
  destruct (h !! a) as [o |] eqn:Hlookup; [| done].
  intros _. by eapply lookup_lt_Some.
Qed.

Lemma Forall_live (P : error -> Prop) errs : Forall P errs -> Forall P (live errs).
Proof.
  induction 1 as [| [a |] l Hx _ IH]; [done | |].
  - rewrite live_cons_Some. by constructor.
  - by rewrite live_cons_None.
Qed.

Lemma asJoin_Some h x a cs es :
  asJoin h x = Some (a, cs, es) ->
  x = Some (Some a) /\ h !! a = Some (joinError cs es).
Proof.
  unfold asJoin. destruct x as [[a' |] |]; try done.
  destruct (h !! a') as [o |] eqn:Hlookup; try done.
  destruct o; try done. by intros [= -> -> ->].
Qed.

(** The four ways [JoinDepth] returns, with what decides each. *)
Lemma JoinDepth_shape h stack skip errs :
  (live errs = [] /\ JoinDepth h stack skip errs = (None, h))
  \/ (exists e, live errs = [e]
        /\ JoinDepth h stack skip errs
           = alloc h (rootError (NewCallers stack (skip + 3)) None e))
  \/ ((2 <= length (live errs))%nat
      /\ exists a cs es,
           asJoin h (errs !! 0%nat) = Some (a, cs, es)
           /\ JoinDepth h stack skip errs
              = (Some a, <[a := joinError cs (es ++ live (drop 1 errs))]> h))
  \/ ((2 <= length (live errs))%nat
      /\ asJoin h (errs !! 0%nat) = None
      /\ JoinDepth h stack skip errs
         = alloc h (joinError (NewCallers stack (skip + 3)) (live errs))).
Proof.
  destruct (live errs) as [| e [| e' l]] eqn:Hlive.
  - left. split; [done |]. unfold JoinDepth. by rewrite Hlive.
  - right. left. exists e. split; [done |]. unfold JoinDepth. by rewrite Hlive.
  - right. right.
    assert (Hn : (2 <= length (live errs))%nat) by (rewrite Hlive; cbn; lia).
    rewrite (JoinDepth_many _ _ _ _ Hn). rewrite <- Hlive.
    destruct (asJoin h (errs !! 0%nat)) as [[[a cs] es] |] eqn:HasJoin.
    + left. split; [done |]. by exists a, cs, es.
    + right. done.
Qed.

(** X13.  The constructors never create a dangling pointer: from a store
    without dangling pointer, [ErrorDepths], a returning [WrapDepth] or
    [WrapDepths], and [JoinDepth] on errors of the store each leave a store
    without dangling pointer, and return nil or an error of that store.  A
    wrap that returns was given an error of the store. *)
Theorem constructors_keep_closed h :
  closed h ->
  (forall stack skip fs m args,
     closed (ErrorDepths h stack skip fs m args).2
     /\ validError (ErrorDepths h stack skip fs m args).2
                   (ErrorDepths h stack skip fs m args).1)
  /\ (forall fuel stack skip err r,
        WrapDepth fuel h stack skip err = Ok r ->
        validError h err /\ closed r.2 /\ validError r.2 r.1)
  /\ (forall fuel stack skip err fs m args r,
        WrapDepths fuel h stack skip err fs m args = Ok r ->
        validError h err /\ closed r.2 /\ validError r.2 r.1)
  /\ (forall stack skip errs,
        Forall (validError h) errs ->
        closed (JoinDepth h stack skip errs).2
        /\ validError (JoinDepth h stack skip errs).2
                      (JoinDepth h stack skip errs).1).
Proof.
  intros Hclosed.
  assert (Halloc : forall o, Forall (validError h) (pointers o) ->
            closed (alloc h o).2 /\ validError (alloc h o).2 (alloc h o).1).
  { intros o Ho. split; [by apply closed_alloc |].
    cbn. rewrite length_app. cbn. lia. }
  split; [| split; [| split]].
  - intros stack skip fs m args. apply Halloc. by repeat constructor.
  - intros fuel stack skip err r HWrap. unfold WrapDepth in HWrap.
    destruct (Cause fuel h err) as [[b |] | |] eqn:HCause; try done;
      pose proof (Cause_Ok_valid _ _ _ _ HCause) as Herr;
      cbn in HWrap; injection HWrap as <-; (split; [done |]);
      apply Halloc; by repeat constructor.
  - intros fuel stack skip err fs m args r HWrap. unfold WrapDepths in HWrap.
    destruct (Cause fuel h err) as [[b |] | |] eqn:HCause; try done;
      pose proof (Cause_Ok_valid _ _ _ _ HCause) as Herr;
      cbn in HWrap; injection HWrap as <-; (split; [done |]);
      apply Halloc; by repeat constructor.
  - intros stack skip errs Herrs.
    pose proof (Forall_live _ _ Herrs) as Hlive.
    destruct (JoinDepth_shape h stack skip errs)
      as [[_ ->] | [(e & He & ->) | [(_ & a & cs & es & HasJoin & ->)
                                    | (_ & _ & ->)]]].
    + done.
    + apply Halloc. rewrite He in Hlive. cbn [pointers].
      by apply Forall_singleton, Forall_inv in Hlive.
    + apply asJoin_Some in HasJoin as [_ Hlookup]. cbn [fst snd]. split.
      * apply closed_join_insert; [done | done |].
        by apply Forall_live, Forall_drop.
      * cbn. rewrite length_insert. by eapply lookup_lt_Some.
    + by apply Halloc.
Qed.

(** X14.  The constructors that allocate keep the store free of cycles:
    from a store in which every object points to older objects only,
    [ErrorDepths], a returning [WrapDepth] or [WrapDepths], and [JoinDepth]
    on errors of the store leave such a store, provided [JoinDepth] does
    not append to a join given as its first argument. *)
Theorem constructors_keep_ordered h :
  ordered h ->
  (forall stack skip fs m args, ordered (ErrorDepths h stack skip fs m args).2)
  /\ (forall fuel stack skip err r,
        WrapDepth fuel h stack skip err = Ok r -> ordered r.2)
  /\ (forall fuel stack skip err fs m args r,
        WrapDepths fuel h stack skip err fs m args = Ok r -> ordered r.2)
  /\ (forall stack skip errs,
        Forall (validError h) errs ->
        asJoin h (errs !! 0%nat) = None \/ (length (live errs) <= 1)%nat ->
        ordered (JoinDepth h stack skip errs).2).
Proof.
  intros Hordered.
  split; [| split; [| split]].
  - intros stack skip fs m args. apply ordered_alloc; [done |].
    by repeat constructor.
  - intros fuel stack skip err r HWrap. unfold WrapDepth in HWrap.
    destruct (Cause fuel h err) as [[b |] | |] eqn:HCause; try done;
      pose proof (Cause_Ok_valid _ _ _ _ HCause) as Herr;
      cbn in HWrap; injection HWrap as <-;
      (apply ordered_alloc; [done |]); by repeat constructor.
  - intros fuel stack skip err fs m args r HWrap. unfold WrapDepths in HWrap.
    destruct (Cause fuel h err) as [[b |] | |] eqn:HCause; try done;
      pose proof (Cause_Ok_valid _ _ _ _ HCause) as Herr;
      cbn in HWrap; injection HWrap as <-;
      (apply ordered_alloc; [done |]); by repeat constructor.
  - intros stack skip errs Herrs Hfresh.
    pose proof (Forall_live _ _ Herrs) as Hlive.
    destruct (JoinDepth_shape h stack skip errs)
      as [[_ ->] | [(e & He & ->) | [(Hn & a & cs & es & HasJoin & ->)
                                    | (_ & _ & ->)]]].
    + done.
    + apply ordered_alloc; [done |]. rewrite He in Hlive. cbn [pointers].
      by apply Forall_singleton, Forall_inv in Hlive.
    + destruct Hfresh as [Hnone | Hle]; [congruence | lia].
    + by apply ordered_alloc.
Qed.

Lemma constructors_keep_closed_witness :
  closed (JoinDepth chainHeap (stackAt [500; 600]) 1
            [Some 2%nat; None; Some 0%nat]).2
  /\ validError
       (JoinDepth chainHeap (stackAt [500; 600]) 1
          [Some 2%nat; None; Some 0%nat]).2
       (JoinDepth chainHeap (stackAt [500; 600]) 1
          [Some 2%nat; None; Some 0%nat]).1.
Proof.
  apply (constructors_keep_closed chainHeap
           (ordered_closed _ chainHeap_ordered)).
  repeat constructor; cbn; lia.
Defined.

Lemma constructors_keep_ordered_witness :
  ordered (JoinDepth chainHeap (stackAt [500; 600]) 1
             [Some 2%nat; None; Some 0%nat]).2.
Proof.
  apply (constructors_keep_ordered chainHeap chainHeap_ordered).
  - repeat constructor; cbn; lia.
  - left. reflexivity.
Defined.

(** ** Locations *)

Lemma append_cons c (a b : string) : String c a +:+ b = String c (a +:+ b).
Proof. reflexivity. Qed.

Lemma length_append (a b : string) :
  String.length (a +:+ b) = (String.length a + String.length b)%nat.
Proof.
  induction a as [| c a IH]; [done |].
  rewrite append_cons. cbn [String.length]. by rewrite IH.
Qed.

Lemma substring_all (s : string) : String.substring 0 (String.length s) s = s.
Proof. induction s as [| c s IH]; [done |]. cbn. by rewrite IH. Qed.

Lemma substring_skip (d r : string) k n :
  String.substring (String.length d + k) n (d +:+ r) = String.substring k n r.
Proof.
  induction d as [| c d IH]; [done |].
  rewrite append_cons. cbn [String.length Nat.add String.substring]. apply IH.
Qed.

(** [LastIndexSlash] returns [found] when the string has no slash, and
    the index of its last slash otherwise. *)
Lemma LastIndexSlash_spec (s : string) :
  forall i found,
    (hasSlash s = false /\ LastIndexSlash s i found = found)
    \/ exists d rest,
         s = d +:+ String "/" rest
         /\ hasSlash rest = false
         /\ LastIndexSlash s i found = i + Z.of_nat (String.length d).
Proof.
  induction s as [| c s IH]; intros i found; [by left |].
  cbn [LastIndexSlash hasSlash].
  destruct (IH (i + 1) (if Ascii.eqb c "/" then i else found))
    as [[Hnone Hfound] | (d & rest & Hs & Hrest & Hindex)].
  - destruct (Ascii.eqb c "/") eqn:Hc.
    + right. exists EmptyString, s. apply Ascii.eqb_eq in Hc as ->.
      split; [done |]. split; [done |]. rewrite Hfound. cbn. lia.
    + left. by rewrite Hnone.
  - right. exists (String c d), rest. rewrite append_cons, <- Hs.
    split; [done |]. split; [done |]. rewrite Hindex.
    cbn [String.length]. lia.
Qed.

(** X15.  The location of a non-zero program counter carries the file and
    line of its frame, and as function name the part of the frame's function
    after its last slash: the name has no slash, and the function is the
    name itself or a prefix ending in a slash followed by the name. *)
Theorem getLocation_FuncName CallersFrames pc :
  pc ≠ 0 ->
  let location := getLocation CallersFrames pc in
  let frame := CallersFrames pc in
  Filename location = File frame
  /\ Line location = FrameLine frame
  /\ hasSlash (FuncName location) = false
  /\ (Function frame = FuncName location
      \/ exists dir,
           Function frame = (dir +:+ "/") +:+ FuncName location).
Proof.
  intros Hpc. unfold getLocation.
  destruct (pc =? 0) eqn:Hzero; [apply Z.eqb_eq in Hzero; done |].
  cbn zeta. cbn [Filename Line FuncName].
  split; [done |]. split; [done |].
  unfold sliceFrom.
  destruct (LastIndexSlash_spec (Function (CallersFrames pc)) 0 (-1))
    as [[Hnone ->] | (d & rest & Hs & Hrest & ->)].
  - change (Z.to_nat (-1 + 1)) with 0%nat. rewrite Nat.sub_0_r, substring_all.
    split; [done |]. by left.
  - rewrite Hs.
    replace (Z.to_nat (0 + Z.of_nat (String.length d) + 1))
      with (String.length d + 1)%nat by lia.
    rewrite substring_skip, length_append.
    cbn [String.length].
    replace (String.length d + S (String.length rest) - (String.length d + 1))%nat
      with (String.length rest) by lia.
    change (String.substring 1 (String.length rest) (String "/" rest))
      with (String.substring 0 (String.length rest) rest).
    rewrite substring_all. split; [done |]. right. exists d.
    by rewrite append_assoc.
Qed.

Lemma getLocation_FuncName_witness :
  FuncName (getLocation exampleFrames 100) = "main.run"
  /\ hasSlash (FuncName (getLocation exampleFrames 100)) = false.
Proof.
  split; [reflexivity |].
  destruct (getLocation_FuncName exampleFrames 100) as (_ & _ & Hslash & _);
    [lia | exact Hslash].
Defined.

(** ** The document renderer *)

Lemma bind_Ok {A B : Type} (m : outcome A) (f : A -> outcome B) y :
  m ≫= f = Ok y -> exists x, m = Ok x /\ f x = Ok y.
Proof. destruct m as [x | |]; [| done | done]. intros Hf. by exists x. Qed.

Lemma mapM_length {A B : Type} (f : A -> outcome B) l ys :
  mapM f l = Ok ys -> length ys = length l.
Proof.
  revert ys. induction l as [| x l IH]; intros ys HmapM.
  - by injection HmapM as <-.
  - cbn [mapM] in HmapM.
    apply bind_Ok in HmapM as (y & _ & HmapM).
    apply bind_Ok in HmapM as (ys' & Hys' & HmapM).
    injection HmapM as <-. cbn [length]. by rewrite (IH ys').
Qed.

Lemma mapM_Forall_elem {A B : Type} (P : B -> Prop) (f : A -> outcome B) l ys :
  Forall (fun x => forall y, f x = Ok y -> P y) l ->
  mapM f l = Ok ys -> Forall P ys.
Proof.
  intros Hf. revert ys. induction Hf as [| x l Hx _ IH]; intros ys HmapM.
  - injection HmapM as <-. constructor.
  - cbn [mapM] in HmapM.
    apply bind_Ok in HmapM as (y & Hy & HmapM).
    apply bind_Ok in HmapM as (ys' & Hys' & HmapM).
    injection HmapM as <-. constructor; [by apply Hx | by apply IH].
Qed.

Section Documents.

Variable Sprintf : string -> list value -> fmtCall.
Variable SprintFields : gmap string value -> fmtCall.
Variable SprintError : heap -> addr -> string.
Variable FormatPanic : rune -> string.

Lemma wrapDocument_erase FormatMethod format format' link :
  WithTrace (JSONOptions format) = false ->
  WithTrace (JSONOptions format') = false ->
  wrapDocument Sprintf FormatPanic FormatMethod format' (eraseLink link)
  = wrapDocument Sprintf FormatPanic FormatMethod format link.
Proof. intros Hf Hf'. unfold wrapDocument. by rewrite Hf, Hf'. Qed.

Lemma toCustomJSON_erase TypeOfString TypeOfString' FormatMethod h
    format format' :
  WithTrace (JSONOptions format) = false ->
  WithTrace (JSONOptions format') = false ->
  forall hierarchy,
    toCustomJSON Sprintf SprintError FormatPanic TypeOfString' FormatMethod h
      (eraseLocations hierarchy) format'
    = toCustomJSON Sprintf SprintError FormatPanic TypeOfString FormatMethod h
        hierarchy format.
Proof.
  intros Hf Hf'.
  induction hierarchy as [ext locs links subs IH]
    using UnpackHierarchy_nested_ind.
  cbn [toCustomJSON eraseLocations]. rewrite Hf, Hf'. cbn [andb].
  change (map eraseLocations subs) with (eraseLocations <$> subs).
  rewrite !length_fmap, !mapM_fmap.
  rewrite (mapM_ext_Forall
             (fun x => wrapDocument Sprintf FormatPanic FormatMethod format'
                         (eraseLink x))
             (wrapDocument Sprintf FormatPanic FormatMethod format) links)
    by (apply Forall_forall; intros link _; by apply wrapDocument_erase).
  by rewrite (mapM_ext_Forall
                (fun x => toCustomJSON Sprintf SprintError FormatPanic
                            TypeOfString' FormatMethod h (eraseLocations x)
                            format')
                (fun x => toCustomJSON Sprintf SprintError FormatPanic
                            TypeOfString FormatMethod h x format) subs).
Qed.

(** The document is the same under two [Format] methods that agree on
    every call that asks for no trace, when the links print no error with
    its trace. *)
Lemma toCustomJSON_plain TypeOfString FormatMethod1 FormatMethod2 h format :
  (forall a verb plus,
     plainCall (a, verb, plus) ->
     FormatMethod1 a verb plus = FormatMethod2 a verb plus) ->
  forall hierarchy,
    allLinks (plainLink Sprintf SprintFields) hierarchy ->
    toCustomJSON Sprintf SprintError FormatPanic TypeOfString FormatMethod1 h
      hierarchy format
    = toCustomJSON Sprintf SprintError FormatPanic TypeOfString FormatMethod2 h
        hierarchy format.
Proof.
  intros Hagree.
  induction hierarchy as [ext locs links subs IH]
    using UnpackHierarchy_nested_ind.
  intros Hall. inversion Hall as [? ? ? ? Hlinks Hsubs]; subst.
  cbn [toCustomJSON].
  rewrite (mapM_ext_Forall
             (wrapDocument Sprintf FormatPanic FormatMethod1 format)
             (wrapDocument Sprintf FormatPanic FormatMethod2 format) links).
  2:{ eapply Forall_impl; [exact Hlinks |]. intros link [Hmessage _].
      unfold wrapDocument.
      by rewrite (runFmt_plain FormatPanic _ _ Hagree _ Hmessage). }
  rewrite (mapM_ext_Forall
             (fun x => toCustomJSON Sprintf SprintError FormatPanic
                         TypeOfString FormatMethod1 h x format)
             (fun x => toCustomJSON Sprintf SprintError FormatPanic
                         TypeOfString FormatMethod2 h x format) subs).
  2:{ clear Hall. induction IH as [| sub subs Hsub _ IHsubs]; [constructor |].
      apply Forall_cons in Hsubs as [Hsub' Hsubs'].
      constructor; [by apply Hsub | by apply IHsubs]. }
  destruct ext as [a |]; [| done].
  by rewrite (Sprint_plain SprintError FormatPanic _ _ Hagree).
Qed.

Lemma toCustomJSON_collapsed TypeOfString FormatMethod h format :
  forall hierarchy,
    collapsed hierarchy ->
    forall doc,
      toCustomJSON Sprintf SprintError FormatPanic TypeOfString FormatMethod h
        hierarchy format = Ok doc ->
      joinShaped doc.
Proof.
  induction hierarchy as [ext locs links subs IH]
    using UnpackHierarchy_nested_ind.
  intros Hcollapsed doc Hdoc.
  inversion Hcollapsed as [? ? ? ? Hlen Hext Hsubs]; subst.
  cbn [toCustomJSON] in Hdoc.
  apply bind_Ok in Hdoc as (root1 & Hroot1 & Hdoc).
  apply bind_Ok in Hdoc as (root2 & Hroot2 & Hdoc).
  apply bind_Ok in Hdoc as (root3 & Hroot3 & Hdoc).
  injection Hdoc as <-. constructor. intros d Hd.
  assert (Hjoin1 : root1 !! "join" = None
                   /\ root1 !! "external" = None /\ root1 !! "type" = None).
  { destruct (negb (length links =? 0)%nat).
    - apply bind_Ok in Hroot1 as (wrapArr & _ & Hroot1).
      injection Hroot1 as <-.
      destruct (WithTrace (JSONOptions format)
                && negb (length locs =? 0)%nat); by simplify_map_eq.
    - injection Hroot1 as <-.
      destruct (WithTrace (JSONOptions format)
                && negb (length locs =? 0)%nat); by simplify_map_eq. }
  destruct Hjoin1 as (Hjoin1 & Hexternal1 & Htype1).
  destruct subs as [| sub1 [| sub2 subs]]; [| done |].
  - exfalso. cbn [length Nat.eqb negb] in Hroot3. injection Hroot3 as <-.
    destruct ext as [a |].
    + apply bind_Ok in Hroot2 as (text & _ & Hroot2). injection Hroot2 as <-.
      destruct (WithTrace (JSONOptions format)); by simplify_map_eq.
    + injection Hroot2 as <-. congruence.
  - rewrite (Hext ltac:(done)) in Hroot2. injection Hroot2 as <-.
    cbn [length Nat.eqb negb] in Hroot3.
    apply bind_Ok in Hroot3 as (subArr & HsubArr & Hroot3).
    injection Hroot3 as <-.
    rewrite lookup_insert_eq in Hd. injection Hd as <-.
    exists subArr. split; [done |]. split.
    { rewrite (mapM_length _ _ _ HsubArr). cbn. lia. }
    split.
    { eapply mapM_Forall_elem; [| exact HsubArr].
      apply Forall_forall. intros sub Hin doc Hsub.
      eapply (proj1 (Forall_forall _ _) IH sub Hin); [| exact Hsub].
      by eapply (proj1 (Forall_forall _ _) Hsubs). }
    by simplify_map_eq.
Qed.

End Documents.

(** X16.  In a store where no message or fields map prints an error of
    the package with its trace (the verb [%+v]), a document asked for
    without trace does not depend on the symbol table, on the location
    formatter, or on the type names: [ToJSON] with [withTrace = false]
    gives the same outcome under any two of them. *)
Theorem ToJSON_without_trace_has_no_location
    Sprintf SprintFields SprintError FormatPanic TypeOfString CallersFrames
    fuel h err :
  plainStore Sprintf SprintFields h ->
  (forall callbacks TypeOfString' CallersFrames',
     ToJSON Sprintf SprintError FormatPanic TypeOfString' CallersFrames'
       (Format Sprintf SprintFields SprintError FormatPanic CallersFrames'
          callbacks h) fuel h err false
     = ToJSON Sprintf SprintError FormatPanic TypeOfString CallersFrames
         (Format Sprintf SprintFields SprintError FormatPanic CallersFrames
            callbacks h) fuel h err false)
  /\ (forall callbacks locationFormatFunc,
        ToCustomJSON Sprintf SprintError FormatPanic TypeOfString
          CallersFrames
          (Format Sprintf SprintFields SprintError FormatPanic CallersFrames
             callbacks h) fuel h err
          (NewDefaultJSONFormat (mkFormatOptions locationFormatFunc false))
        = ToJSON Sprintf SprintError FormatPanic TypeOfString CallersFrames
            (Format Sprintf SprintFields SprintError FormatPanic CallersFrames
               callbacks h) fuel h err false).
Proof.
  intros Hstore. split.
  - intros callbacks TypeOfString' CallersFrames'.
    unfold ToJSON, ToCustomJSON.
    pose proof (unpack_sameText CallersFrames' CallersFrames fuel h err 0)
      as Hsame.
    destruct (unpack CallersFrames' fuel h err 0) as [x | |] eqn:Hx,
      (unpack CallersFrames fuel h err 0) as [y | |] eqn:Hy; try done.
    cbn [mbind outcome_bind]. cbn in Hsame.
    set (format := NewDefaultJSONFormat _).
    rewrite <- (toCustomJSON_erase Sprintf SprintError FormatPanic
                  TypeOfString' TypeOfString' _ h format format
                  eq_refl eq_refl x).
    unfold sameText in Hsame. rewrite Hsame.
    rewrite (toCustomJSON_erase Sprintf SprintError FormatPanic
               TypeOfString TypeOfString' _ h format format
               eq_refl eq_refl y).
    apply (toCustomJSON_plain Sprintf SprintFields).
    + intros a verb plus Hcall. by apply Format_plain.
    + by eapply plainStore_allLinks.
  - intros callbacks locationFormatFunc. unfold ToJSON, ToCustomJSON.
    destruct (unpack CallersFrames fuel h err 0) as [x | |]; try done.
    cbn [mbind outcome_bind].
    set (format := NewDefaultJSONFormat
                     (mkFormatOptions DefaultLocationFormatFunc false)).
    set (format' := NewDefaultJSONFormat
                      (mkFormatOptions locationFormatFunc false)).
    rewrite <- (toCustomJSON_erase Sprintf SprintError FormatPanic
                  TypeOfString TypeOfString _ h format format
                  eq_refl eq_refl x).
    by rewrite (toCustomJSON_erase Sprintf SprintError FormatPanic
                  TypeOfString TypeOfString _ h format' format
                  eq_refl eq_refl x).
Qed.

Lemma ToJSON_without_trace_has_no_location_witness :
  ToJSON exampleSprintf exampleSprintError exampleFormatPanic
    (fun _ _ => "*errors.errorString")
    (fun pc => mkFrame "elsewhere.moved" "moved.go" (pc + 1))
    (Format exampleSprintf exampleSprintFields exampleSprintError
       exampleFormatPanic
       (fun pc => mkFrame "elsewhere.moved" "moved.go" (pc + 1)) 2 chainHeap)
    5 chainHeap (Some 2%nat) false
  = ToJSON exampleSprintf exampleSprintError exampleFormatPanic
      exampleSprintError exampleFrames
      (Format exampleSprintf exampleSprintFields exampleSprintError
         exampleFormatPanic exampleFrames 2 chainHeap)
      5 chainHeap (Some 2%nat) false.
Proof.
  destruct (ToJSON_without_trace_has_no_location exampleSprintf
              exampleSprintFields exampleSprintError exampleFormatPanic
              exampleSprintError exampleFrames 5 chainHeap (Some 2%nat)
              chainHeap_plainStore) as [Hindependent _].
  apply Hindependent.
Defined.

(** X17.  Every document [ToCustomJSON] returns is an object in which a
    ["join"] entry is an array of at least two objects of the same kind and
    excludes the entries ["external"] and ["type"]: a single cause never
    shows as a join, and an external error only shows at a leaf. *)
Theorem ToCustomJSON_join_shape
    Sprintf SprintError FormatPanic TypeOfString CallersFrames FormatMethod
    fuel h err format doc :
  ToCustomJSON Sprintf SprintError FormatPanic TypeOfString CallersFrames
    FormatMethod fuel h err format
  = Ok doc ->
  joinShaped doc.
Proof.
  unfold ToCustomJSON.
  destruct (unpack CallersFrames fuel h err 0) as [x | |] eqn:Hunpack;
    try done.
  cbn [mbind outcome_bind].
  apply toCustomJSON_collapsed. by eapply unpack_flattened.
Qed.

Lemma ToCustomJSON_join_shape_witness :
  exists doc,
    ToCustomJSON exampleSprintf exampleSprintError exampleFormatPanic
      exampleSprintError exampleFrames
      (Format exampleSprintf exampleSprintFields exampleSprintError
         exampleFormatPanic exampleFrames 2 joinHeap)
      4 joinHeap (Some 2%nat)
      (NewDefaultJSONFormat (mkFormatOptions DefaultLocationFormatFunc true))
    = Ok doc
    /\ joinShaped doc.
Proof.
  eexists. split; [reflexivity |].
  eapply (ToCustomJSON_join_shape exampleSprintf exampleSprintError
            exampleFormatPanic exampleSprintError exampleFrames
            (Format exampleSprintf exampleSprintFields exampleSprintError
               exampleFormatPanic exampleFrames 2 joinHeap)
            4 joinHeap (Some 2%nat)).
  reflexivity.
Defined.

(** ** Errors without anchor *)

(** X18.  An error from outside the package with no anchor behind it is
    rendered as its own text and nothing else, whatever the format and
    whatever the [Format] methods of the package do: the string is the
    indentation, the text and the error separator, and the document holds
    the text under ["external"], with the type name under ["type"] when a
    trace is asked for.  The nil error gives the empty string and the empty
    object. *)
Theorem render_without_anchor
    Sprintf SprintError FormatPanic TypeOfString CallersFrames FormatMethod
    fuel h err :
  Cause fuel h err = Ok None ->
  foreignOrNil h err ->
  (forall format,
     ToCustomString Sprintf SprintError FormatPanic CallersFrames FormatMethod
       (S fuel) h err format
     = Ok match err with
          | Some a =>
            Repeat (PreStackSep format) 1 +:+ SprintError h a
            +:+ ErrorSep format
          | None => ""
          end)
  /\ (forall format,
        ToCustomJSON Sprintf SprintError FormatPanic TypeOfString
          CallersFrames FormatMethod (S fuel) h err format
        = Ok (DObject
                match err with
                | Some a =>
                  if WithTrace (JSONOptions format)
                  then <["type" := DString (TypeOfString h a)]>
                         {["external" := DString (SprintError h a)]}
                  else {["external" := DString (SprintError h a)]}
                | None => ∅
                end)).
Proof.
  intros HCause Hforeign.
  assert (HSprint : forall a, err = Some a ->
            Sprint FormatPanic SprintError FormatMethod h a
            = Ok (SprintError h a)).
  { intros a ->. destruct Hforeign as (text & next & Hlookup).
    unfold Sprint, deref. by rewrite Hlookup. }
  split; intros format.
  - unfold ToCustomString. rewrite (unpack_no_anchor _ _ _ _ _ HCause).
    cbn [mbind outcome_bind toCustomString linkLoop].
    unfold trailingFrames. cbn [drop foldl].
    destruct err as [a |]; [| by destruct (WithTrace (Options format))].
    rewrite (HSprint a eq_refl). cbn [mbind outcome_bind].
    by destruct (WithTrace (Options format)).
  - unfold ToCustomJSON. rewrite (unpack_no_anchor _ _ _ _ _ HCause).
    cbn [mbind outcome_bind toCustomJSON length Nat.eqb negb].
    rewrite andb_false_r. cbn [mbind outcome_bind].
    destruct err as [a |]; [| done].
    rewrite (HSprint a eq_refl). cbn [mbind outcome_bind].
    by destruct (WithTrace (JSONOptions format)).
Qed.

Lemma render_without_anchor_witness :
  ToCustomString exampleSprintf exampleSprintError exampleFormatPanic
    exampleFrames
    (Format exampleSprintf exampleSprintFields exampleSprintError
       exampleFormatPanic exampleFrames 1 foreignHeap)
    2 foreignHeap (Some 0%nat)
    (NewDefaultStringFormat exampleSprintFields
       (mkFormatOptions DefaultLocationFormatFunc false))
  = Ok "unexpected EOF: ".
Proof.
  destruct (render_without_anchor exampleSprintf exampleSprintError
              exampleFormatPanic exampleSprintError exampleFrames
              (Format exampleSprintf exampleSprintFields exampleSprintError
                 exampleFormatPanic exampleFrames 1 foreignHeap)
              1 foreignHeap (Some 0%nat))
    as [Hstring _].
  - reflexivity.
  - by exists "unexpected EOF", NoUnwrap.
  - exact (Hstring _).
Defined.

(** ** The trace renderer stays within the locations *)










Section RendererSafety.

Variable Sprintf : string -> list value -> fmtCall.
Variable SprintError : heap -> addr -> string.
Variable FormatPanic : rune -> string.

(** A [Format] method that returns or panics on every call. *)
Variable FormatMethod : addr -> rune -> bool -> outcome string.
Hypothesis FormatMethod_returns :
  forall a verb plus, FormatMethod a verb plus ≠ Timeout.






End RendererSafety.


